(** * netcircuit: the wire routing engine of [Wire.calculatePath]

    A shallow embedding of the TypeScript classes [Pin] and [Wire]
    (constructor, [calculatePath] and its private helpers) together with the
    properties of the router that the specification states.

    Numbers.  Canvas coordinates, rectangle extents and the grid size are
    JavaScript numbers; they are modelled by exact rationals [Q], the values
    of the binary64 numbers of the program.  The coordinates of a pin are
    finite (the [Pin] setters reject the others); the numbers of a
    [Component], which its constructor does not check, are modelled with NaN
    and the infinities ([Num]).  Sums, products, quotients, [floor]
    and [ceil] are the exact operations of the source expressions; the
    program rounds each result to binary64, so a value computed here can
    differ from the program's in the last place.  The test of
    [arePointsCollinear] compares a rounded quantity with a tolerance; it is
    evaluated in binary64 itself, operation by operation ([toDouble] gives
    the binary64 number of a rational).  Grid indices are the integers
    produced by [Math.floor] and [Math.ceil] and are modelled by [Z].

    Objects.  Pins and wires are mutable objects compared by identity
    ([wire !== this]); they live in a heap indexed by references, and a
    method returns the heap it leaves together with its result.

    Loops.  The [for] loops over index ranges are folds over the range.  The
    two [while] loops of the A* search carry a fuel argument; the fuel passed
    by [findPathAStar] is shown to be sufficient ([findPathAStar_total]). *)

From Stdlib Require Import ZArith QArith Qround Qabs Qminmax Lia Lqa Bool.
From Stdlib Require Floats.
From stdpp Require Import gmap list strings sorting.

Set Default Proof Using "Type".
Set Warnings "-clear-no-such-hyp".

(** ** Outcomes of a call *)

Inductive JsError : Type :=
| RangeError  (* Invalid array length *)
| PinsError   (* 'Both enter and exit pins must be provided' *)
| TypeError.  (* property access through a reference that holds no object *)

Inductive Outcome (A : Type) : Type :=
| Ok (a : A)
| Throws (e : JsError)
| OutOfFuel.
Arguments Ok {A} a.
Arguments Throws {A} e.
Arguments OutOfFuel {A}.

(** ** Geometry primitives *)

Record Point : Type := mkPoint { pt_x : Q; pt_y : Q }.

Record Rectangle : Type := mkRect {
  rect_x : Q; rect_y : Q; rect_width : Q; rect_height : Q }.

(** [===] on both coordinates of two points. *)
Definition pt_eq (p q : Point) : Prop :=
  (pt_x p == pt_x q)%Q ∧ (pt_y p == pt_y q)%Q.

(** A grid cell [(x, y)]: column and row index. *)
Abbreviation Cell := (Z * Z)%type.

(** The passability grid [boolean[][]]: a list of rows, [true] = passable. *)
Abbreviation Grid := (list (list bool)).

(** [grid[0].length]. *)
Definition gridWidth (grid : Grid) : nat := length (default [] (grid !! 0%nat)).

(** [grid[y][x] = v] for indices inside the array. *)
Definition gridSet (grid : Grid) (x y : nat) (v : bool) : Grid :=
  alter (λ row, <[x := v]> row) y grid.

(** [grid[y][x]], read as a condition: a missing entry is falsy. *)
Definition gridGet (grid : Grid) (x y : nat) : bool :=
  default false (default [] (grid !! y) !! x).

(** ** calculateGridBounds *)

Record Bounds : Type := mkBounds {
  minX : Q; minY : Q; b_width : Q; b_height : Q }.

(** [Math.min(...l)] and [Math.max(...l)] of a list with first element [h]. *)
Definition Qmin_list (h : Q) (t : list Q) : Q := foldl Qmin h t.
Definition Qmax_list (h : Q) (t : list Q) : Q := foldl Qmax h t.

Definition calculateGridBounds
    (obstacles : list Rectangle) (start end_ : Point) : Bounds :=
  let allX := obstacles ≫= (λ o, [rect_x o; (rect_x o + rect_width o)%Q]) in
  let allY := obstacles ≫= (λ o, [rect_y o; (rect_y o + rect_height o)%Q]) in
  let minX := (Qmin_list (pt_x start) (pt_x end_ :: allX) - 50)%Q in
  let minY := (Qmin_list (pt_y start) (pt_y end_ :: allY) - 50)%Q in
  let maxX := (Qmax_list (pt_x start) (pt_x end_ :: allX) + 50)%Q in
  let maxY := (Qmax_list (pt_y start) (pt_y end_ :: allY) + 50)%Q in
  {| minX := minX; minY := minY;
     b_width := (maxX - minX)%Q; b_height := (maxY - minY)%Q |}.

(** ** markRectangleInGrid *)

(** The inner loop: [for (let x = xlo; x < xhi; x++) grid[y][x] = false]. *)
Definition markRow (grid : Grid) (y xlo xhi : Z) : Grid :=
  foldl (λ g x, gridSet g (Z.to_nat x) (Z.to_nat y) false)
        grid (seqZ xlo (xhi - xlo)).

Definition markRectangleInGrid
    (grid : Grid) (rect : Rectangle) (gridSize offsetX offsetY : Q) : Grid :=
  let startX := Qfloor ((rect_x rect - offsetX) / gridSize) in
  let startY := Qfloor ((rect_y rect - offsetY) / gridSize) in
  let endX := Qceiling ((rect_x rect + rect_width rect - offsetX) / gridSize) in
  let endY := Qceiling ((rect_y rect + rect_height rect - offsetY) / gridSize) in
  let ylo := Z.max 0 startY in
  let yhi := Z.min (Z.of_nat (length grid)) endY in
  foldl (λ g y, markRow g y (Z.max 0 startX) (Z.min (Z.of_nat (gridWidth g)) endX))
        grid (seqZ ylo (yhi - ylo)).

(** ** markWirePathInGrid *)

(** A division whose result is a finite number; [None] is the non-finite
    value (NaN or an infinity) that a zero divisor yields. *)
Definition js_div (a b : Q) : option Q :=
  if Qeq_bool b 0 then None else Some (a / b)%Q.

(** [Math.max(Math.abs(p2.x - p1.x), Math.abs(p2.y - p1.y))]. *)
Definition segmentSteps (p1 p2 : Point) : Q :=
  Qmax (Qabs (pt_x p2 - pt_x p1)) (Qabs (pt_y p2 - pt_y p1)).

(** The values taken by the loop counter in
    [for (let step = 0; step <= steps; step++)]. *)
Definition stepRange (steps : Q) : list Z := seqZ 0 (Qfloor steps + 1).

(** The point sampled at [step] in [markWirePathInGrid];
    [None] when [t] is not finite. *)
Definition wireSample (p1 p2 : Point) (steps : Q) (step : Z) : option Point :=
  let t := if Qeq_bool steps 0 then Some 0%Q else js_div (inject_Z step) steps in
  t ≫= λ t,
    Some {| pt_x := (pt_x p1 + (pt_x p2 - pt_x p1) * t)%Q;
            pt_y := (pt_y p1 + (pt_y p2 - pt_y p1) * t)%Q |}.

Definition tolerance : Z := 2.

(** The two nested loops over [dy] and [dx] around the cell
    [(gridX, gridY)]. *)
Definition markBlock (grid : Grid) (gridX gridY : Z) : Grid :=
  foldl (λ g dy,
     foldl (λ g dx,
        let gx := (gridX + dx)%Z in
        let gy := (gridY + dy)%Z in
        if (0 <=? gx)%Z && (0 <=? gy)%Z
           && (gy <? Z.of_nat (length g))%Z && (gx <? Z.of_nat (gridWidth g))%Z
        then gridSet g (Z.to_nat gx) (Z.to_nat gy) false
        else g)
       g (seqZ (- tolerance) (2 * tolerance + 1)))
    grid (seqZ (- tolerance) (2 * tolerance + 1)).

(** The body of the loop over [i]: one segment [p1 p2] of the path. *)
Definition markSegment
    (grid : Grid) (p1 p2 : Point) (gridSize offsetX offsetY : Q) : Grid :=
  let steps := segmentSteps p1 p2 in
  foldl (λ g step,
           match wireSample p1 p2 steps step with
           | Some s =>
               let gridX := Qfloor ((pt_x s - offsetX) / gridSize) in
               let gridY := Qfloor ((pt_y s - offsetY) / gridSize) in
               markBlock g gridX gridY
           | None => g  (* every comparison with NaN is false *)
           end)
        grid (stepRange steps).

Fixpoint markWirePathInGrid
    (grid : Grid) (path : list Point) (gridSize offsetX offsetY : Q) : Grid :=
  match path with
  | p1 :: ((p2 :: _) as rest) =>
      markWirePathInGrid (markSegment grid p1 p2 gridSize offsetX offsetY)
                         rest gridSize offsetX offsetY
  | _ => grid
  end.

(** ** createObstacleGrid *)

(** The largest length [Array(n)] accepts: 2^32 - 1. *)
Definition maxArrayLength : Z := 4294967295.

(** [Array(gridHeight).fill(null).map(() => Array(gridWidth).fill(true))].
    [Array(n)] throws a RangeError for a negative length and for a length
    above 2^32 - 1; [Array(gridWidth)] is evaluated once per row, so not at
    all when there is no row. *)
Definition newGrid (gridWidth gridHeight : Z) : Outcome Grid :=
  if (gridHeight <? 0)%Z || (maxArrayLength <? gridHeight)%Z then Throws RangeError
  else if (gridHeight =? 0)%Z then Ok []
  else if (gridWidth <? 0)%Z || (maxArrayLength <? gridWidth)%Z then Throws RangeError
  else Ok (replicate (Z.to_nat gridHeight) (replicate (Z.to_nat gridWidth) true)).

(** The grid of [createObstacleGrid]; [wirePaths] are the routed paths of
    the wires that pass the filter [wire !== this && routedPath.length > 0].
    The extents of the bounds are positive, so a zero [gridSize] makes both
    dimensions infinite and [Array] throws. *)
Definition createObstacleGrid
    (obstacles : list Rectangle) (wirePaths : list (list Point))
    (gridSize : Q) (start end_ : Point) : Outcome Grid :=
  let bounds := calculateGridBounds obstacles start end_ in
  if Qeq_bool gridSize 0 then Throws RangeError else
  let gridWidth := Qceiling (b_width bounds / gridSize) in
  let gridHeight := Qceiling (b_height bounds / gridSize) in
  match newGrid gridWidth gridHeight with
  | Ok grid =>
      let grid := foldl (λ g obstacle,
                    markRectangleInGrid g obstacle gridSize (minX bounds) (minY bounds))
                    grid obstacles in
      let grid := foldl (λ g path,
                    markWirePathInGrid g path gridSize (minX bounds) (minY bounds))
                    grid wirePaths in
      Ok grid
  | Throws e => Throws e
  | OutOfFuel => OutOfFuel
  end.

(** ** findPathAStar *)

Record GridNode : Type := mkNode {
  point : Cell; gScore : Z; fScore : Z; parent : option Cell }.

(** [Math.abs(a.x - b.x) + Math.abs(a.y - b.y)]. *)
Definition heuristic (a b : Cell) : Z :=
  (Z.abs (a.1 - b.1) + Z.abs (a.2 - b.2))%Z.

(** [openSet.sort((a, b) => a.fScore - b.fScore)]: the sort is stable, so
    nodes of equal [fScore] keep their order. *)
Fixpoint insertByF (n : GridNode) (l : list GridNode) : list GridNode :=
  match l with
  | [] => [n]
  | m :: l' => if (fScore n <=? fScore m)%Z then n :: l else m :: insertByF n l'
  end.

Definition sortByF (l : list GridNode) : list GridNode := foldr insertByF [] l.

(** The [neighbors] array, in the order of the source. *)
Definition neighbors (p : Cell) : list Cell :=
  [ (p.1 - 1, p.2)%Z; (p.1 + 1, p.2)%Z; (p.1, p.2 - 1)%Z; (p.1, p.2 + 1)%Z ].

(** The condition under which a neighbor is skipped ([continue]). *)
Definition skipped (grid : Grid) (closedSet : gset Cell) (neighbor : Cell) : bool :=
  bool_decide (neighbor ∈ closedSet)
  || (neighbor.1 <? 0)%Z || (neighbor.2 <? 0)%Z
  || (Z.of_nat (length grid) <=? neighbor.2)%Z
  || (Z.of_nat (gridWidth grid) <=? neighbor.1)%Z
  || negb (gridGet grid (Z.to_nat neighbor.1) (Z.to_nat neighbor.2)).

(** The mutable structures of the search.  Keys are cells: [pointKey] is
    injective on integer points. *)
Record SearchState : Type := mkState {
  openSet : list GridNode;
  closedSet : gset Cell;
  gScores : gmap Cell Z;
  parents : gmap Cell (option Cell) }.

(** The body of [for (const neighbor of neighbors)]. *)
Definition relax (grid : Grid) (gridEnd : Cell) (current : GridNode)
    (st : SearchState) (neighbor : Cell) : SearchState :=
  if skipped grid (closedSet st) neighbor then st else
  let tentativeGScore := (gScore current + 1)%Z in
  if match gScores st !! neighbor with
     | None => true
     | Some g => (tentativeGScore <? g)%Z
     end
  then
    let parents' := <[neighbor := Some (point current)]> (parents st) in
    let gScores' := <[neighbor := tentativeGScore]> (gScores st) in
    let fScore := (tentativeGScore + heuristic neighbor gridEnd)%Z in
    let openSet' :=
      if existsb (λ node, bool_decide (point node = neighbor)) (openSet st)
      then openSet st
      else openSet st ++ [ {| point := neighbor; gScore := tentativeGScore;
                               fScore := fScore; parent := Some (point current) |} ] in
    {| openSet := openSet'; closedSet := closedSet st;
       gScores := gScores'; parents := parents' |}
  else st.

(** ** reconstructPath *)

Definition toCanvas (gridSize : Q) (c : Cell) : Point :=
  {| pt_x := (inject_Z c.1 * gridSize)%Q; pt_y := (inject_Z c.2 * gridSize)%Q |}.

(** [while (currentPoint !== null)]; [path] is the array built so far. *)
Fixpoint reconstructLoop (fuel : nat) (parents : gmap Cell (option Cell))
    (currentPoint : Cell) (gridSize : Q) (path : list Point)
    : Outcome (list Point) :=
  match fuel with
  | O => OutOfFuel
  | S fuel' =>
      let path' := toCanvas gridSize currentPoint :: path in
      match parents !! currentPoint with
      | Some (Some p) => reconstructLoop fuel' parents p gridSize path'
      | _ => Ok path'
      end
  end.

(** Every parent link leads to a cell of smaller recorded g-score, so
    [fuel] = g-score of the end point + 1 iterations are enough. *)
Definition reconstructPath (fuel : nat) (parents : gmap Cell (option Cell))
    (endPoint : Cell) (gridSize : Q) : Outcome (list Point) :=
  reconstructLoop fuel parents endPoint gridSize [].

(** [while (openSet.length > 0)]. *)
Fixpoint searchLoop (fuel : nat) (grid : Grid) (gridEnd : Cell) (gridSize : Q)
    (st : SearchState) : Outcome (list Point) :=
  match fuel with
  | O => OutOfFuel
  | S fuel' =>
      match sortByF (openSet st) with
      | [] => Ok []
      | current :: rest =>
          if bool_decide (point current = gridEnd)
          then reconstructPath (S (Z.to_nat (gScore current)))
                 (parents st) (point current) gridSize
          else
            let st1 := {| openSet := rest;
                          closedSet := closedSet st ∪ {[point current]};
                          gScores := gScores st; parents := parents st |} in
            searchLoop fuel' grid gridEnd gridSize
              (foldl (relax grid gridEnd current) st1 (neighbors (point current)))
      end
  end.

(** Every iteration closes a cell that was not closed before, and a closed
    cell is the start cell or a cell of the grid. *)
Definition searchFuel (grid : Grid) : nat := length grid * gridWidth grid + 2.

Definition toCell (gridSize : Q) (p : Point) : Cell :=
  (Qfloor (pt_x p / gridSize), Qfloor (pt_y p / gridSize)).

Definition initialState (gridStart gridEnd : Cell) : SearchState :=
  {| openSet := [ {| point := gridStart; gScore := 0;
                     fScore := heuristic gridStart gridEnd; parent := None |} ];
     closedSet := ∅;
     gScores := {[ gridStart := 0%Z ]};
     parents := {[ gridStart := None ]} |}.

Definition findPathAStar
    (grid : Grid) (start end_ : Point) (gridSize : Q) : Outcome (list Point) :=
  let gridStart := toCell gridSize start in
  let gridEnd := toCell gridSize end_ in
  searchLoop (searchFuel grid) grid gridEnd gridSize (initialState gridStart gridEnd).

(** ** createLShapedPath and isLineClear *)

Definition pointInRectangle (p : Point) (rect : Rectangle) : bool :=
  Qle_bool (rect_x rect) (pt_x p)
  && Qle_bool (pt_x p) (rect_x rect + rect_width rect)
  && Qle_bool (rect_y rect) (pt_y p)
  && Qle_bool (pt_y p) (rect_y rect + rect_height rect).

(** The point sampled at [i] in [isLineClear]; [None] when [t] is not
    finite.  The sample is the exact point of the segment; the program's
    sample is that point rounded, which for [i = 0] is [start] itself. *)
Definition lineSample (start end_ : Point) (steps : Q) (i : Z) : option Point :=
  let t := if Qeq_bool steps 0 then Some 0%Q else js_div (inject_Z i) steps in
  t ≫= λ t,
    Some {| pt_x := (pt_x start + (pt_x end_ - pt_x start) * t)%Q;
            pt_y := (pt_y start + (pt_y end_ - pt_y start) * t)%Q |}.

Definition isLineClear (start end_ : Point) (obstacles : list Rectangle) : bool :=
  let steps := segmentSteps start end_ in
  forallb (λ i,
     match lineSample start end_ steps i with
     | Some p => negb (existsb (pointInRectangle p) obstacles)
     | None => true  (* every comparison with NaN is false *)
     end)
    (stepRange steps).

Definition createLShapedPath
    (start end_ : Point) (obstacles : list Rectangle) : list Point :=
  let midPoint1 := {| pt_x := pt_x end_; pt_y := pt_y start |} in
  if isLineClear start midPoint1 obstacles && isLineClear midPoint1 end_ obstacles
  then [start; midPoint1; end_]
  else
    let midPoint2 := {| pt_x := pt_x start; pt_y := pt_y end_ |} in
    if isLineClear start midPoint2 obstacles && isLineClear midPoint2 end_ obstacles
    then [start; midPoint2; end_]
    else [start; end_].

(** ** optimizePath and arePointsCollinear *)

(** The binary64 number nearest to [q], ties to even: the number itself when
    [q] is the value of a binary64 number.  The quotient of numerator and
    denominator is taken to 64 bits and a sticky bit, and rounded once. *)
Definition toDouble (q : Q) : PrimFloat.float :=
  let n := Qnum q in
  let d := Z.pos (Qden q) in
  let s := Z.max 0 (64 + Z.log2 d - Z.log2 (Z.abs n)) in
  let a := (Z.abs n * 2 ^ s)%Z in
  let m := (2 * (a / d) + (if (a mod d =? 0)%Z then 0 else 1))%Z in
  FloatOps.SF2Prim
    (SpecFloat.binary_normalize FloatOps.prec FloatOps.emax
       (if (n <? 0)%Z then (- m)%Z else m) (- s - 1) false).

(** [Math.abs((p2.x - p1.x) * (p3.y - p1.y) - (p3.x - p1.x) * (p2.y - p1.y))],
    each operation rounded to binary64. *)
Definition crossArea (p1 p2 p3 : Point) : PrimFloat.float :=
  let x1 := toDouble (pt_x p1) in let y1 := toDouble (pt_y p1) in
  let x2 := toDouble (pt_x p2) in let y2 := toDouble (pt_y p2) in
  let x3 := toDouble (pt_x p3) in let y3 := toDouble (pt_y p3) in
  PrimFloat.abs
    (PrimFloat.sub
       (PrimFloat.mul (PrimFloat.sub x2 x1) (PrimFloat.sub y3 y1))
       (PrimFloat.mul (PrimFloat.sub x3 x1) (PrimFloat.sub y2 y1))).

(** [area < 1e-5]; the literal is the binary64 number nearest to 1/100000,
    and a comparison with NaN is false. *)
Definition arePointsCollinear (p1 p2 p3 : Point) : bool :=
  PrimFloat.ltb (crossArea p1 p2 p3) (toDouble (1 # 100000)).

(** The two nested loops of [optimizePath].  [current] is [path[current]],
    [farthest] is [path[farthest]] and [rest] holds the points after
    [farthest].  The inner loop advances [farthest] while the triple is
    collinear; when it stops, [farthest] is pushed and becomes the next
    [current], and the next inner loop starts at the point after it. *)
Fixpoint optimizeFrom (current farthest : Point) (rest : list Point) : list Point :=
  match rest with
  | [] => [farthest]
  | next :: rest' =>
      if arePointsCollinear current farthest next
      then optimizeFrom current next rest'
      else farthest :: optimizeFrom farthest next rest'
  end.

Definition optimizePath (path : list Point) : list Point :=
  match path with
  | p0 :: p1 :: ((_ :: _) as rest) => p0 :: optimizeFrom p0 p1 rest
  | _ => path   (* path.length <= 2 *)
  end.

(** ** Pins, wires and the heap *)

Inductive PinType : Type := INPUT | OUTPUT | POWER | GROUND | NULL.

(** References to objects. *)
Abbreviation Ref := nat (only parsing).

Record Pin : Type := mkPin {
  pin_name : string;
  pin_x : Q;
  pin_y : Q;
  pin_type : PinType;
  pin_component : option Ref;
  convergenceCount : Z;
  divergenceCount : Z }.

Record Wire : Type := mkWire {
  enterPin : Ref;
  exitPin : Ref;
  wire_name : string;
  bendPoints : list Point;
  routedPath : list Point }.

Record Heap : Type := mkHeap {
  pins : gmap Ref Pin;
  wires : gmap Ref Wire }.

(** [pin.divergenceCount++] and [pin.convergenceCount++]. *)
Definition incDivergence (p : Pin) : Pin :=
  {| pin_name := pin_name p; pin_x := pin_x p; pin_y := pin_y p;
     pin_type := pin_type p; pin_component := pin_component p;
     convergenceCount := convergenceCount p;
     divergenceCount := (divergenceCount p + 1)%Z |}.

Definition incConvergence (p : Pin) : Pin :=
  {| pin_name := pin_name p; pin_x := pin_x p; pin_y := pin_y p;
     pin_type := pin_type p; pin_component := pin_component p;
     convergenceCount := (convergenceCount p + 1)%Z;
     divergenceCount := divergenceCount p |}.

(** [new Wire(_enterPin, _exitPin, _name, bendPoints)]; a [None] argument is
    [null] or [undefined].  The result is the heap after the call and either
    the reference of the new wire or the exception thrown. *)
Definition newWire (h : Heap) (_enterPin _exitPin : option Ref)
    (_name : string) (bendPoints : list Point) : Heap * Outcome Ref :=
  match _enterPin, _exitPin with
  | Some e, Some x =>
      let pins1 := alter incDivergence e (pins h) in
      let pins2 := alter incConvergence x pins1 in
      let this := fresh (dom (wires h)) in
      ({| pins := pins2;
          wires := <[this := {| enterPin := e; exitPin := x; wire_name := _name;
                                bendPoints := bendPoints; routedPath := [] |}]>
                     (wires h) |},
       Ok this)
  | _, _ => (h, Throws PinsError)
  end.

Definition getPosition (p : Pin) : Point := {| pt_x := pin_x p; pt_y := pin_y p |}.

(** ** calculatePath *)

(** The routed paths selected by
    [existingWires.filter(wire => wire !== this && wire.routedPath.length > 0)]. *)
Definition otherWirePaths (h : Heap) (this : Ref) (existingWires : list Ref)
    : list (list Point) :=
  omap (λ r,
          if bool_decide (r ≠ this)
          then w ← wires h !! r;
               if (0 <? length (routedPath w))%nat then Some (routedPath w) else None
          else None)
       existingWires.

(** The path computed by [calculatePath] from the values it reads: the
    wire's bend points, the two pin positions and the arguments. *)
Definition route (bends : list Point) (start end_ : Point)
    (obstacles : list Rectangle) (wirePaths : list (list Point)) (gridSize : Q)
    : Outcome (list Point) :=
  if (0 <? length bends)%nat then Ok (start :: bends ++ [end_])
  else
    match createObstacleGrid obstacles wirePaths gridSize start end_ with
    | Ok grid =>
        match findPathAStar grid start end_ gridSize with
        | Ok path =>
            if (0 <? length path)%nat then Ok (optimizePath path)
            else Ok (createLShapedPath start end_ obstacles)
        | Throws e => Throws e
        | OutOfFuel => OutOfFuel
        end
    | Throws e => Throws e
    | OutOfFuel => OutOfFuel
    end.

Definition setRoutedPath (w : Wire) (path : list Point) : Wire :=
  {| enterPin := enterPin w; exitPin := exitPin w; wire_name := wire_name w;
     bendPoints := bendPoints w; routedPath := path |}.

Definition defaultGridSize : Q := 10.

(** [this.calculatePath(obstacles, existingWires, gridSize)]: the heap after
    the call and either the returned copy of the routed path or the exception
    thrown. *)
Definition calculatePath (h : Heap) (this : Ref) (obstacles : list Rectangle)
    (existingWires : list Ref) (gridSize : Q) : Heap * Outcome (list Point) :=
  match wires h !! this with
  | None => (h, Throws TypeError)
  | Some w =>
      match pins h !! enterPin w, pins h !! exitPin w with
      | Some pe, Some px =>
          match route (bendPoints w) (getPosition pe) (getPosition px) obstacles
                      (otherWirePaths h this existingWires) gridSize with
          | Ok path =>
              ({| pins := pins h;
                  wires := <[this := setRoutedPath w path]> (wires h) |},
               Ok path)
          | Throws e => (h, Throws e)
          | OutOfFuel => (h, OutOfFuel)
          end
      | _, _ => (h, Throws TypeError)
      end
  end.

(** * The objects around the router: pins, bend points, components, circuits

    The remaining methods of [Pin] and [Wire], the classes [Component],
    [Resistor] and [Circuit], and the routing loop of [buildCircuit].  A
    method of an object is a function of the object's fields (and of the
    store of the objects it reaches) to the fields and store it leaves,
    together with what it returns or throws.  The numbers a [Component]
    receives and stores are not checked by every method, so they are
    [Num]s: finite values, NaN or an infinity; an argument handed to a
    setter that tests [Number.isFinite] is a [JsNumber].  Finite values are
    rationals as before, and an operation whose exact result is beyond the
    binary64 range gives an infinity. *)

From stdpp Require Import pretty.

(** ** Values and exceptions *)

(** A number argument as [Number.isFinite] sees it: a finite value, or one
    of [NaN], [Infinity], [-Infinity]. *)
Inductive JsNumber : Type :=
| Number (q : Q)
| NonFinite.

(** A point argument [{ x, y }] whose coordinates need not be finite. *)
Record JsPoint : Type := mkJsPoint { js_x : JsNumber; js_y : JsNumber }.

(** The [Error]s thrown by the classes, by message. *)
Inductive ObjError : Type :=
| InvalidXCoordinate   (* `Invalid x coordinate: ${value}` *)
| InvalidYCoordinate   (* `Invalid y coordinate: ${value}` *)
| InvalidWidth         (* `Invalid width: ${value}` *)
| InvalidHeight        (* `Invalid height: ${value}` *)
| NonPositiveSize      (* 'Width and height must be positive' *)
| InvalidResistance    (* `Invalid resistance value: ${_resistance}` *)
| NullComponent        (* 'Component cannot be null' *)
| NullWire.            (* 'Wire cannot be null' *)

Inductive Completion (A : Type) : Type :=
| Returns (a : A)
| Raises (e : ObjError).
Arguments Returns {A} a.
Arguments Raises {A} e.

(** ** Pin *)

(** [new Pin(_name)]. *)
Definition newPin (_name : string) : Pin :=
  {| pin_name := _name; pin_x := 0; pin_y := 0; pin_type := NULL;
     pin_component := None; convergenceCount := 0; divergenceCount := 0 |}.

(** The four assignments [this._x = value], [this._y = value],
    [this._type = value], [this._component = value]. *)
Definition withX (p : Pin) (value : Q) : Pin :=
  {| pin_name := pin_name p; pin_x := value; pin_y := pin_y p;
     pin_type := pin_type p; pin_component := pin_component p;
     convergenceCount := convergenceCount p;
     divergenceCount := divergenceCount p |}.

Definition withY (p : Pin) (value : Q) : Pin :=
  {| pin_name := pin_name p; pin_x := pin_x p; pin_y := value;
     pin_type := pin_type p; pin_component := pin_component p;
     convergenceCount := convergenceCount p;
     divergenceCount := divergenceCount p |}.

Definition withType (p : Pin) (value : PinType) : Pin :=
  {| pin_name := pin_name p; pin_x := pin_x p; pin_y := pin_y p;
     pin_type := value; pin_component := pin_component p;
     convergenceCount := convergenceCount p;
     divergenceCount := divergenceCount p |}.

Definition withComponent (p : Pin) (value : option Ref) : Pin :=
  {| pin_name := pin_name p; pin_x := pin_x p; pin_y := pin_y p;
     pin_type := pin_type p; pin_component := value;
     convergenceCount := convergenceCount p;
     divergenceCount := divergenceCount p |}.

(** [set x(value)] and [set y(value)]: the pin after the call and the
    completion. *)
Definition Pin_set_x (p : Pin) (value : JsNumber) : Pin * Completion unit :=
  match value with
  | NonFinite => (p, Raises InvalidXCoordinate)
  | Number v => (withX p v, Returns tt)
  end.

Definition Pin_set_y (p : Pin) (value : JsNumber) : Pin * Completion unit :=
  match value with
  | NonFinite => (p, Raises InvalidYCoordinate)
  | Number v => (withY p v, Returns tt)
  end.

(** [setPosition(point)]: [this.x = point.x; this.y = point.y]. *)
Definition Pin_setPosition (p : Pin) (point : JsPoint) : Pin * Completion unit :=
  match Pin_set_x p (js_x point) with
  | (p1, Returns _) => Pin_set_y p1 (js_y point)
  | (p1, Raises e) => (p1, Raises e)
  end.

(** ** Wire: bend points *)

Definition setBendPoints (w : Wire) (bends : list Point) : Wire :=
  {| enterPin := enterPin w; exitPin := exitPin w; wire_name := wire_name w;
     bendPoints := bends; routedPath := routedPath w |}.

(** [this._bendPoints.push({ ...point })]. *)
Definition addBendPoint (h : Heap) (this : Ref) (point : Point) : Heap :=
  {| pins := pins h;
     wires := alter (λ w, setBendPoints w (bendPoints w ++ [point])) this (wires h) |}.

(** [this._bendPoints = []]. *)
Definition clearBendPoints (h : Heap) (this : Ref) : Heap :=
  {| pins := pins h;
     wires := alter (λ w, setBendPoints w []) this (wires h) |}.

(** ** Numbers that need not be finite *)

Inductive Num : Type :=
| Val (q : Q)
| NaN
| PosInfinity
| NegInfinity.

(** What [Number.isFinite] makes of a number. *)
Definition classify (a : Num) : JsNumber :=
  match a with Val q => Number q | _ => NonFinite end.

(** The value of a finite number. *)
Definition finiteValue (a : Num) : option Q :=
  match a with Val q => Some q | _ => None end.

(** A result rounds to an infinity when its exact value is at least
    2^1024 - 2^970 in magnitude: half a unit in the last place above the
    largest binary64 number. *)
Definition overflowBound : Q := inject_Z (2 ^ 1024 - 2 ^ 970).

Definition norm (q : Q) : Num :=
  if Qle_bool overflowBound q then PosInfinity
  else if Qle_bool q (- overflowBound) then NegInfinity
  else Val q.

(** [a + b]. *)
Definition numAdd (a b : Num) : Num :=
  match a, b with
  | Val x, Val y => norm (x + y)
  | NaN, _ | _, NaN => NaN
  | PosInfinity, NegInfinity | NegInfinity, PosInfinity => NaN
  | PosInfinity, _ | _, PosInfinity => PosInfinity
  | NegInfinity, _ | _, NegInfinity => NegInfinity
  end.

(** [Math.max(a, b)] for a finite [b]. *)
Definition numMax (a : Num) (b : Q) : Num :=
  match a with
  | Val q => Val (Qmax q b)
  | NaN => NaN
  | PosInfinity => PosInfinity
  | NegInfinity => Val b
  end.

(** [a <= 0]. *)
Definition numLe0 (a : Num) : bool :=
  match a with
  | Val q => Qle_bool q 0
  | NegInfinity => true
  | NaN | PosInfinity => false
  end.

(** [(extent * (index + 1)) / (count + 1)]; both [index + 1] and
    [count + 1] are positive integers. *)
Definition spread (extent : Q) (index count : nat) : Q :=
  (extent * inject_Z (Z.of_nat index + 1) / inject_Z (Z.of_nat count + 1))%Q.

Definition numSpread (extent : Num) (index count : nat) : Num :=
  match extent with
  | Val e =>
      match norm (e * inject_Z (Z.of_nat index + 1)) with
      | Val _ => Val (spread e index count)
      | other => other
      end
  | other => other
  end.

(** ** Component *)

Record Component : Type := mkComponent {
  _inputPins : list Ref;
  _outputPins : list Ref;
  _groundPins : list Ref;
  _powerPins : list Ref;
  comp_name : string;
  comp_x : Num;
  comp_y : Num;
  comp_width : Num;
  comp_height : Num }.

(** A [Rectangle] object whose numbers need not be finite. *)
Record NumRectangle : Type := mkNumRect {
  nr_x : Num; nr_y : Num; nr_width : Num; nr_height : Num }.

Definition getBoundingBox (c : Component) : NumRectangle :=
  {| nr_x := comp_x c; nr_y := comp_y c;
     nr_width := comp_width c; nr_height := comp_height c |}.

(** The rectangle, when its four numbers are finite. *)
Definition asRectangle (r : NumRectangle) : option Rectangle :=
  match nr_x r, nr_y r, nr_width r, nr_height r with
  | Val x, Val y, Val w, Val h =>
      Some {| rect_x := x; rect_y := y; rect_width := w; rect_height := h |}
  | _, _, _, _ => None
  end.

Definition getAllPins (c : Component) : list Ref :=
  _inputPins c ++ _outputPins c ++ _groundPins c ++ _powerPins c.

(** [pins.forEach((pin, index) => body)] on the store of the pins, counting
    [index] up from [index0]; the loop ends at the first exception, with
    the pin as the body left it.  In the source every reference holds an
    object; a reference that holds none in the store is passed over. *)
Fixpoint forEachPin (body : nat → Pin → Pin * Completion unit)
    (refs : list Ref) (index0 : nat) (ps : gmap Ref Pin)
    : gmap Ref Pin * Completion unit :=
  match refs with
  | [] => (ps, Returns tt)
  | r :: rest =>
      match ps !! r with
      | Some pin =>
          match body index0 pin with
          | (pin', Returns _) => forEachPin body rest (S index0) (<[r := pin']> ps)
          | (pin', Raises e) => (<[r := pin']> ps, Raises e)
          end
      | None => forEachPin body rest (S index0) ps
      end
  end.

(** [pin.x = x; pin.y = y]: the two validating setters of the pin, in this
    order. *)
Definition placeAt (x y : Num) (pin : Pin) : Pin * Completion unit :=
  Pin_setPosition pin {| js_x := classify x; js_y := classify y |}.

(** Sequencing of two statements on the store of the pins. *)
Definition andThen (r : gmap Ref Pin * Completion unit)
    (next : gmap Ref Pin → gmap Ref Pin * Completion unit)
    : gmap Ref Pin * Completion unit :=
  match r with
  | (ps, Returns _) => next ps
  | (ps, Raises e) => (ps, Raises e)
  end.

(** The four loops of [updatePinPositions()]: inputs on the left side,
    outputs on the right, power pins on top, ground pins on the bottom. *)
Definition placeInputPins (c : Component) (ps : gmap Ref Pin)
    : gmap Ref Pin * Completion unit :=
  forEachPin (λ index,
      placeAt (comp_x c)
              (numAdd (comp_y c)
                 (numSpread (comp_height c) index (length (_inputPins c)))))
    (_inputPins c) 0 ps.

Definition placeOutputPins (c : Component) (ps : gmap Ref Pin)
    : gmap Ref Pin * Completion unit :=
  forEachPin (λ index,
      placeAt (numAdd (comp_x c) (comp_width c))
              (numAdd (comp_y c)
                 (numSpread (comp_height c) index (length (_outputPins c)))))
    (_outputPins c) 0 ps.

Definition placePowerPins (c : Component) (ps : gmap Ref Pin)
    : gmap Ref Pin * Completion unit :=
  forEachPin (λ index,
      placeAt (numAdd (comp_x c)
                 (numSpread (comp_width c) index (length (_powerPins c))))
              (comp_y c))
    (_powerPins c) 0 ps.

Definition placeGroundPins (c : Component) (ps : gmap Ref Pin)
    : gmap Ref Pin * Completion unit :=
  forEachPin (λ index,
      placeAt (numAdd (comp_x c)
                 (numSpread (comp_width c) index (length (_groundPins c))))
              (numAdd (comp_y c) (comp_height c)))
    (_groundPins c) 0 ps.

Definition updatePinPositions (c : Component) (ps : gmap Ref Pin)
    : gmap Ref Pin * Completion unit :=
  andThen (placeInputPins c ps) (λ ps1,
  andThen (placeOutputPins c ps1) (λ ps2,
  andThen (placePowerPins c ps2) (placeGroundPins c))).

(** [pins.forEach(pin => { pin.type = type; pin.component = this; })]; the
    two setters check nothing. *)
Definition markPins (this : Ref) (type : PinType) (refs : list Ref)
    (ps : gmap Ref Pin) : gmap Ref Pin :=
  (forEachPin (λ _ pin, (withComponent (withType pin type) (Some this), Returns tt))
     refs 0 ps).1.

(** [initializePins()]; [this] is the reference of the component. *)
Definition initializePins (this : Ref) (c : Component) (ps : gmap Ref Pin)
    : gmap Ref Pin * Completion unit :=
  let ps1 := markPins this INPUT (_inputPins c) ps in
  let ps2 := markPins this OUTPUT (_outputPins c) ps1 in
  let ps3 := markPins this POWER (_powerPins c) ps2 in
  let ps4 := markPins this GROUND (_groundPins c) ps3 in
  updatePinPositions c ps4.

(** [new Component(inputPins, outputPins, groundPins, powerPins, name, x, y,
    width, height)], allocated at [this]: the store of the pins after the
    constructor, and the fields of the new object or the exception of a pin
    setter.  No argument is checked. *)
Definition newComponent (this : Ref) (ps : gmap Ref Pin)
    (inputPins outputPins groundPins powerPins : list Ref) (name : string)
    (x y width height : Num) : gmap Ref Pin * Completion Component :=
  let c := {| _inputPins := inputPins; _outputPins := outputPins;
              _groundPins := groundPins; _powerPins := powerPins;
              comp_name := name; comp_x := x; comp_y := y;
              comp_width := numMax width 20; comp_height := numMax height 20 |} in
  match initializePins this c ps with
  | (ps', Returns _) => (ps', Returns c)
  | (ps', Raises e) => (ps', Raises e)
  end.

Definition withPosition (c : Component) (x y : Num) : Component :=
  {| _inputPins := _inputPins c; _outputPins := _outputPins c;
     _groundPins := _groundPins c; _powerPins := _powerPins c;
     comp_name := comp_name c; comp_x := x; comp_y := y;
     comp_width := comp_width c; comp_height := comp_height c |}.

Definition withSize (c : Component) (width height : Num) : Component :=
  {| _inputPins := _inputPins c; _outputPins := _outputPins c;
     _groundPins := _groundPins c; _powerPins := _powerPins c;
     comp_name := comp_name c; comp_x := comp_x c; comp_y := comp_y c;
     comp_width := width; comp_height := height |}.

(** The state a method of a component works on: its fields and the pins. *)
Abbreviation CompState := (Component * gmap Ref Pin)%type.

(** The fields are assigned, then [updatePinPositions()] runs. *)
Definition assignAndUpdate (c' : Component) (ps : gmap Ref Pin)
    : CompState * Completion unit :=
  ((c', (updatePinPositions c' ps).1), (updatePinPositions c' ps).2).

(** The four validating setters. *)
Definition Component_set_x (c : Component) (ps : gmap Ref Pin) (value : JsNumber)
    : CompState * Completion unit :=
  match value with
  | NonFinite => ((c, ps), Raises InvalidXCoordinate)
  | Number v => assignAndUpdate (withPosition c (Val v) (comp_y c)) ps
  end.

Definition Component_set_y (c : Component) (ps : gmap Ref Pin) (value : JsNumber)
    : CompState * Completion unit :=
  match value with
  | NonFinite => ((c, ps), Raises InvalidYCoordinate)
  | Number v => assignAndUpdate (withPosition c (comp_x c) (Val v)) ps
  end.

Definition Component_set_width (c : Component) (ps : gmap Ref Pin) (value : JsNumber)
    : CompState * Completion unit :=
  match value with
  | NonFinite => ((c, ps), Raises InvalidWidth)
  | Number v =>
      if Qle_bool v 0 then ((c, ps), Raises InvalidWidth)
      else assignAndUpdate (withSize c (Val v) (comp_height c)) ps
  end.

Definition Component_set_height (c : Component) (ps : gmap Ref Pin) (value : JsNumber)
    : CompState * Completion unit :=
  match value with
  | NonFinite => ((c, ps), Raises InvalidHeight)
  | Number v =>
      if Qle_bool v 0 then ((c, ps), Raises InvalidHeight)
      else assignAndUpdate (withSize c (comp_width c) (Val v)) ps
  end.

(** [setPosition(x, y)]: nothing is checked. *)
Definition Component_setPosition (c : Component) (ps : gmap Ref Pin) (x y : Num)
    : CompState * Completion unit :=
  assignAndUpdate (withPosition c x y) ps.

(** [setSize(width, height)]: only [width <= 0 || height <= 0] is
    checked, which NaN and Infinity pass. *)
Definition Component_setSize (c : Component) (ps : gmap Ref Pin) (width height : Num)
    : CompState * Completion unit :=
  if numLe0 width || numLe0 height
  then ((c, ps), Raises NonPositiveSize)
  else assignAndUpdate (withSize c width height) ps.

(** [new Resistor(..., _resistance)]: the constructor of [Component] runs
    first, then the resistance is checked.  The store of the pins is the one
    left by the call, also when it throws. *)
Definition newResistor (this : Ref) (ps : gmap Ref Pin)
    (inputPins outputPins groundPins powerPins : list Ref) (name : string)
    (x y width height : Num) (_resistance : JsNumber)
    : gmap Ref Pin * Completion (Component * Q) :=
  match newComponent this ps inputPins outputPins groundPins powerPins
          name x y width height with
  | (ps', Raises e) => (ps', Raises e)
  | (ps', Returns c) =>
      match _resistance with
      | NonFinite => (ps', Raises InvalidResistance)
      | Number r =>
          if Qle_bool r 0 then (ps', Raises InvalidResistance)
          else (ps', Returns (c, r))
      end
  end.

(** ** Circuit *)

Record Circuit : Type := mkCircuit {
  _components : list Ref;
  _wires : list Ref;
  circuit_name : string }.

(** [array.indexOf(x)] on an array of object references; [None] is [-1]. *)
Fixpoint indexOf (x : Ref) (array : list Ref) : option nat :=
  match array with
  | [] => None
  | y :: rest => if bool_decide (y = x) then Some 0%nat else S <$> indexOf x rest
  end.

(** [addComponent(component)]; [None] is [null] or [undefined]. *)
Definition addComponent (c : Circuit) (component : option Ref)
    : Circuit * Completion unit :=
  match component with
  | None => (c, Raises NullComponent)
  | Some r =>
      ({| _components := _components c ++ [r]; _wires := _wires c;
          circuit_name := circuit_name c |}, Returns tt)
  end.

(** [removeComponent(component)]: [splice(index, 1)] at the first index. *)
Definition removeComponent (c : Circuit) (component : Ref) : Circuit * bool :=
  match indexOf component (_components c) with
  | Some index =>
      ({| _components := delete index (_components c); _wires := _wires c;
          circuit_name := circuit_name c |}, true)
  | None => (c, false)
  end.

Definition addWire (c : Circuit) (wire : option Ref) : Circuit * Completion unit :=
  match wire with
  | None => (c, Raises NullWire)
  | Some r =>
      ({| _components := _components c; _wires := _wires c ++ [r];
          circuit_name := circuit_name c |}, Returns tt)
  end.

Definition removeWire (c : Circuit) (wire : Ref) : Circuit * bool :=
  match indexOf wire (_wires c) with
  | Some index =>
      ({| _components := _components c; _wires := delete index (_wires c);
          circuit_name := circuit_name c |}, true)
  | None => (c, false)
  end.

(** [this._components.flatMap(comp => comp.getAllPins())]; a reference that
    holds no component contributes nothing. *)
Definition allPins (comps : gmap Ref Component) (c : Circuit) : list Ref :=
  _components c ≫= λ r, from_option getAllPins [] (comps !! r).

(** The messages pushed for the wire at [index]. *)
Definition wireErrors (all : list Ref) (index : nat) (w : Wire) : list string :=
  (if bool_decide (enterPin w ∈ all) then []
   else ["Wire " +:+ pretty index +:+ " (" +:+ wire_name w
         +:+ "): Enter pin not found in circuit"])
  ++ (if bool_decide (exitPin w ∈ all) then []
      else ["Wire " +:+ pretty index +:+ " (" +:+ wire_name w
            +:+ "): Exit pin not found in circuit"]).

(** [validateConnections()]. *)
Definition validateConnections (comps : gmap Ref Component) (ws : gmap Ref Wire)
    (c : Circuit) : list string :=
  let all := allPins comps c in
  concat (imap (λ index r, from_option (wireErrors all index) [] (ws !! r))
               (_wires c)).

(** ** The routing loop of buildCircuit *)

(** [circuit.components.map(comp => comp.getBoundingBox())]. *)
Definition boundingBoxes (comps : gmap Ref Component) (c : Circuit)
    : list NumRectangle :=
  omap (λ r, getBoundingBox <$> comps !! r) (_components c).

(** [a <= b]; a comparison with NaN is false. *)
Definition numLe (a b : Num) : bool :=
  match a, b with
  | Val x, Val y => Qle_bool x y
  | NaN, _ | _, NaN => false
  | NegInfinity, _ | _, PosInfinity => true
  | _, _ => false
  end.

(** [pointInRectangle], [isLineClear] and [createLShapedPath] on
    rectangles whose numbers need not be finite. *)
Definition numPointInRectangle (p : Point) (rect : NumRectangle) : bool :=
  numLe (nr_x rect) (Val (pt_x p))
  && numLe (Val (pt_x p)) (numAdd (nr_x rect) (nr_width rect))
  && numLe (nr_y rect) (Val (pt_y p))
  && numLe (Val (pt_y p)) (numAdd (nr_y rect) (nr_height rect)).

Definition numIsLineClear (start end_ : Point) (obstacles : list NumRectangle) : bool :=
  let steps := segmentSteps start end_ in
  forallb (λ i,
     match lineSample start end_ steps i with
     | Some p => negb (existsb (numPointInRectangle p) obstacles)
     | None => true
     end)
    (stepRange steps).

Definition numCreateLShapedPath
    (start end_ : Point) (obstacles : list NumRectangle) : list Point :=
  let midPoint1 := {| pt_x := pt_x end_; pt_y := pt_y start |} in
  if numIsLineClear start midPoint1 obstacles && numIsLineClear midPoint1 end_ obstacles
  then [start; midPoint1; end_]
  else
    let midPoint2 := {| pt_x := pt_x start; pt_y := pt_y end_ |} in
    if numIsLineClear start midPoint2 obstacles && numIsLineClear midPoint2 end_ obstacles
    then [start; midPoint2; end_]
    else [start; end_].

(** The search part of [calculatePath] when a number of some obstacle is
    not finite.  A bound of the window of [calculateGridBounds] is then NaN
    or infinite, and so is a dimension of the grid.  [Array(gridHeight)]
    throws if that dimension is the height.  If it is the width,
    [Array(gridWidth)] throws when the first row is made; only a grid
    without rows is built.  Nothing can be marked in that grid, the search
    runs on it, and the fallback tests the obstacles as they are. *)
Definition routeNonFinite (obstacles : list NumRectangle) (start end_ : Point)
    (gridSize : Q) : Outcome (list Point) :=
  match mapM finiteValue
          (obstacles ≫= (λ o, [nr_y o; numAdd (nr_y o) (nr_height o)])) with
  | None => Throws RangeError
  | Some allY =>
      let minY := (Qmin_list (pt_y start) (pt_y end_ :: allY) - 50)%Q in
      let maxY := (Qmax_list (pt_y start) (pt_y end_ :: allY) + 50)%Q in
      if Qeq_bool gridSize 0 then Throws RangeError
      else if (Qceiling ((maxY - minY) / gridSize) =? 0)%Z then
        match findPathAStar [] start end_ gridSize with
        | Ok path =>
            if (0 <? length path)%nat then Ok (optimizePath path)
            else Ok (numCreateLShapedPath start end_ obstacles)
        | Throws e => Throws e
        | OutOfFuel => OutOfFuel
        end
      else Throws RangeError
  end.

(** The path computed by [calculatePath] among the bounding boxes of the
    components: [route] when all their numbers are finite. *)
Definition routeAmong (obstacles : list NumRectangle) (bends : list Point)
    (start end_ : Point) (wirePaths : list (list Point)) (gridSize : Q)
    : Outcome (list Point) :=
  match mapM asRectangle obstacles with
  | Some finite => route bends start end_ finite wirePaths gridSize
  | None =>
      if (0 <? length bends)%nat then Ok (start :: bends ++ [end_])
      else routeNonFinite obstacles start end_ gridSize
  end.

(** [wire.calculatePath(obstacles, routedWires, gridSize)] among such
    obstacles. *)
Definition calculatePathAmong (h : Heap) (this : Ref) (obstacles : list NumRectangle)
    (existingWires : list Ref) (gridSize : Q) : Heap * Outcome (list Point) :=
  match wires h !! this with
  | None => (h, Throws TypeError)
  | Some w =>
      match pins h !! enterPin w, pins h !! exitPin w with
      | Some pe, Some px =>
          match routeAmong obstacles (bendPoints w) (getPosition pe) (getPosition px)
                           (otherWirePaths h this existingWires) gridSize with
          | Ok path =>
              ({| pins := pins h;
                  wires := <[this := setRoutedPath w path]> (wires h) |},
               Ok path)
          | Throws e => (h, Throws e)
          | OutOfFuel => (h, OutOfFuel)
          end
      | _, _ => (h, Throws TypeError)
      end
  end.

(** [circuit.wires.forEach(wire => { wire.calculatePath(obstacles,
    routedWires, opts.gridSize); routedWires.push(wire); })]: the loop stops
    at the first exception. *)
Fixpoint routeWires (h : Heap) (obstacles : list NumRectangle) (gridSize : Q)
    (routedWires : list Ref) (ws : list Ref) : Heap * Outcome (list Ref) :=
  match ws with
  | [] => (h, Ok routedWires)
  | wire :: rest =>
      match calculatePathAmong h wire obstacles routedWires gridSize with
      | (h', Ok _) => routeWires h' obstacles gridSize (routedWires ++ [wire]) rest
      | (h', Throws e) => (h', Throws e)
      | (h', OutOfFuel) => (h', OutOfFuel)
      end
  end.

(** The block "Calculate wire paths" of [buildCircuit]. *)
Definition calculateWirePaths (comps : gmap Ref Component) (h : Heap) (c : Circuit)
    (gridSize : Q) : Heap * Outcome (list Ref) :=
  routeWires h (boundingBoxes comps c) gridSize [] (_wires c).

(** * Definitions used by the statements *)

(** The number of steps of a path: one less than its number of points. *)
Definition stepCount (path : list Point) : Z := (Z.of_nat (length path) - 1)%Z.

(** A pin at position [p] with the given counters, not yet attached to a
    component. *)
Definition pinAt (name : string) (p : Point) (conv div : Z) : Pin :=
  {| pin_name := name; pin_x := pt_x p; pin_y := pt_y p; pin_type := NULL;
     pin_component := None; convergenceCount := conv; divergenceCount := div |}.

(** A heap with one wire (reference 0) from a pin at [source] (reference 0)
    to a pin at [target] (reference 1), as left by the constructors. *)
Definition wireHeap (source target : Point) (bends : list Point) : Heap :=
  {| pins := {[ 0%nat := pinAt "a" source 0 1; 1%nat := pinAt "b" target 1 0 ]};
     wires := {[ 0%nat := {| enterPin := 0%nat; exitPin := 1%nat; wire_name := "w";
                             bendPoints := bends; routedPath := [] |} ]} |}.

(** The obstacle of the avoidance scenario: the rectangle (40,-20)-(60,20). *)
Definition blockingObstacle : Rectangle :=
  {| rect_x := 40; rect_y := -20; rect_width := 20; rect_height := 40 |}.

(** The fields of a pin other than its two counters. *)
Definition samePinFrame (p p' : Pin) : Prop :=
  pin_name p' = pin_name p ∧ pin_x p' = pin_x p ∧ pin_y p' = pin_y p
  ∧ pin_type p' = pin_type p ∧ pin_component p' = pin_component p.


(** ** The invariant of the search loop *)

(** A cell that indexes the grid. *)
Definition inGrid (grid : Grid) (c : Cell) : Prop :=
  (0 ≤ c.1 < Z.of_nat (gridWidth grid))%Z ∧ (0 ≤ c.2 < Z.of_nat (length grid))%Z.

Definition gridCells (grid : Grid) : list Cell :=
  x ← seqZ 0 (Z.of_nat (gridWidth grid));
  y ← seqZ 0 (Z.of_nat (length grid));
  [(x, y)].

(** The cells the search can ever close: the start cell and the grid. *)
Definition universe (grid : Grid) (s : Cell) : gset Cell :=
  {[ s ]} ∪ list_to_set (gridCells grid).

Record SearchInv (grid : Grid) (s : Cell) (st : SearchState) : Prop := {
  inv_closed : closedSet st ⊆ universe grid s;
  inv_open : ∀ n, n ∈ openSet st →
             point n ∈ universe grid s ∧ point n ∉ closedSet st;
  inv_nodup : NoDup (point <$> openSet st);
  inv_g : ∀ n, n ∈ openSet st →
          ∃ g, gScores st !! point n = Some g ∧ (0 ≤ g ≤ gScore n)%Z;
  inv_parent : ∀ v p, parents st !! v = Some (Some p) →
               ∃ gp gv, gScores st !! p = Some gp ∧ gScores st !! v = Some gv
                        ∧ (0 ≤ gp < gv)%Z }.

(** The node being expanded: it is closed and its recorded g-score is at
    most the one it carries. *)
Definition Expanding (st : SearchState) (current : GridNode) : Prop :=
  point current ∈ closedSet st
  ∧ ∃ g, gScores st !! point current = Some g ∧ (0 ≤ g ≤ gScore current)%Z.

(** ** Rasterizing a rectangle *)

(** The square of cell [(x, y)], [x·gs, (x+1)·gs] × [y·gs, (y+1)·gs] in
    grid-local coordinates, meets the translated rectangle in more than a
    boundary point along both axes. *)
Definition cellOverlaps (rect : Rectangle) (gridSize offsetX offsetY : Q)
    (x y : nat) : Prop :=
  (inject_Z (Z.of_nat x) * gridSize < rect_x rect + rect_width rect - offsetX)%Q
  ∧ (rect_x rect - offsetX < inject_Z (Z.of_nat x + 1) * gridSize)%Q
  ∧ (inject_Z (Z.of_nat y) * gridSize < rect_y rect + rect_height rect - offsetY)%Q
  ∧ (rect_y rect - offsetY < inject_Z (Z.of_nat y + 1) * gridSize)%Q.

(** The centre of cell [(x, y)] lies in the translated rectangle. *)
Definition cellCenterInside (rect : Rectangle) (gridSize offsetX offsetY : Q)
    (x y : nat) : Prop :=
  let cx := ((inject_Z (Z.of_nat x) + (1 # 2)) * gridSize)%Q in
  let cy := ((inject_Z (Z.of_nat y) + (1 # 2)) * gridSize)%Q in
  (rect_x rect - offsetX <= cx)%Q
  ∧ (cx <= rect_x rect + rect_width rect - offsetX)%Q
  ∧ (rect_y rect - offsetY <= cy)%Q
  ∧ (cy <= rect_y rect + rect_height rect - offsetY)%Q.

(** ** Simplifying a path *)

(** The signed cross product whose absolute value [arePointsCollinear]
    compares with the tolerance. *)
Definition crossProduct (p1 p2 p3 : Point) : Q :=
  ((pt_x p2 - pt_x p1) * (pt_y p3 - pt_y p1)
   - (pt_x p3 - pt_x p1) * (pt_y p2 - pt_y p1))%Q.

(** No two points of the path are equal. *)
Fixpoint pairwiseDistinct (path : list Point) : Prop :=
  match path with
  | [] => True
  | p :: rest => Forall (λ q, ¬ pt_eq p q) rest ∧ pairwiseDistinct rest
  end.

(** On the points of [path] the tolerance test, as the program evaluates
    it, accepts exactly the collinear triples. *)
Definition collinearityExact (path : list Point) : Prop :=
  ∀ a b c, a ∈ path → b ∈ path → c ∈ path →
    arePointsCollinear a b c = true ↔ (crossProduct a b c == 0)%Q.

(** The same, decided by running the test on every triple. *)
Definition collinearityExactb (path : list Point) : bool :=
  forallb (λ a,
    forallb (λ b,
      forallb (λ c,
        Bool.eqb (arePointsCollinear a b c) (Qeq_bool (crossProduct a b c) 0))
        path) path) path.

(** No three consecutive points of the path pass the collinearity test. *)
Fixpoint noCollinearTriple (path : list Point) : Prop :=
  match path with
  | a :: rest =>
      match rest with
      | b :: c :: _ => arePointsCollinear a b c = false ∧ noCollinearTriple rest
      | _ => True
      end
  | [] => True
  end.

(** ** The search on an open grid *)

(** Every row of the grid has the width of the first and holds only
    passable cells. *)
Definition openGrid (grid : Grid) : Prop :=
  Forall (λ row, row = replicate (gridWidth grid) true) grid.

(** [c] lies on a shortest lattice path from [s] to [t]: in the rectangle
    spanned by the two cells. *)
Definition onShortest (s t c : Cell) : Prop :=
  (heuristic s c + heuristic c t = heuristic s t)%Z.

#[global] Instance onShortest_dec (s t c : Cell) : Decision (onShortest s t c).
Proof. unfold onShortest. apply _. Defined.

(** The cells of the open nodes whose f-score is the distance from [s] to
    [t], in the order of the open set. *)
Definition frontier (s t : Cell) (st : SearchState) : list Cell :=
  point <$> filter (λ n, fScore n = heuristic s t) (openSet st).

Definition discovered (s t : Cell) (st : SearchState) (c : Cell) : Prop :=
  c ∈ closedSet st ∨ c ∈ frontier s t st.

(** The search has closed the cells of the rectangle at distance less than
    [k] from [s] and is working on those at distance [k]; the frontier holds
    the remaining cells at distance [k] followed by cells at distance
    [k + 1]. *)
Record LayerInv (s t : Cell) (k : Z) (st : SearchState) : Prop := {
  li_open : ∀ n, n ∈ openSet st →
    (fScore n = heuristic s t ∧ onShortest s t (point n)
     ∧ gScore n = heuristic s (point n))
    ∨ ((heuristic s t < fScore n)%Z ∧ ¬ onShortest s t (point n));
  li_layers : ∃ A B, frontier s t st = A ++ B
    ∧ Forall (λ c, heuristic s c = k) A
    ∧ Forall (λ c, heuristic s c = (k + 1)%Z) B;
  li_closed : ∀ c, c ∈ closedSet st →
    onShortest s t c ∧ c ≠ t ∧ (heuristic s c ≤ k)%Z;
  li_below : ∀ v, onShortest s t v → (heuristic s v ≤ k)%Z → discovered s t st v;
  li_g : ∀ v, onShortest s t v → discovered s t st v →
    gScores st !! v = Some (heuristic s v);
  li_g_conv : ∀ v, onShortest s t v → is_Some (gScores st !! v) →
    discovered s t st v;
  li_parent : ∀ v, onShortest s t v → discovered s t st v →
    (v = s ∧ parents st !! v = Some None)
    ∨ (∃ p, parents st !! v = Some (Some p) ∧ onShortest s t p
            ∧ (heuristic s p + 1 = heuristic s v)%Z ∧ p ∈ closedSet st) }.

(** The neighbors of [c] one step further from [s] inside the rectangle have
    been discovered. *)
Definition succDone (s t : Cell) (st : SearchState) (c : Cell) : Prop :=
  ∀ v, v ∈ neighbors c → onShortest s t v →
       heuristic s v = (heuristic s c + 1)%Z → discovered s t st v.

(** The invariant at the head of the search loop on an open grid. *)
Definition OpenInv (s t : Cell) (st : SearchState) : Prop :=
  ∃ k, LayerInv s t k st
       ∧ (∀ c, c ∈ closedSet st → succDone s t st c)
       ∧ (∃ q, q ∈ frontier s t st ∧ heuristic s q = k).

(** The invariant while the neighbors of [u] are processed. *)
Definition ExpandInv (s t u : Cell) (k : Z) (st : SearchState) : Prop :=
  LayerInv s t k st
  ∧ u ∈ closedSet st ∧ heuristic s u = k ∧ onShortest s t u
  ∧ (∀ c, c ∈ closedSet st → c ≠ u → succDone s t st c).

(** ** Paths on the grid *)

(** A cell of the grid that is marked passable. *)
Definition passable (grid : Grid) (c : Cell) : Prop :=
  inGrid grid c ∧ gridGet grid (Z.to_nat c.1) (Z.to_nat c.2) = true.

(** Every cell of the list is one of the four neighbors of the cell
    before it. *)
Fixpoint stepwise (cells : list Cell) : Prop :=
  match cells with
  | a :: rest =>
      match rest with
      | b :: _ => b ∈ neighbors a ∧ stepwise rest
      | [] => True
      end
  | [] => True
  end.

(** The cells that can be reached from [s] by steps to passable neighbors. *)
Inductive reachable (grid : Grid) (s : Cell) : Cell → Prop :=
| reach_start : reachable grid s s
| reach_step c v :
    reachable grid s c → v ∈ neighbors c → passable grid v →
    reachable grid s v.

(** What the search has recorded about parents: the start cell has none,
    every other recorded cell is a passable neighbor of its parent, and the
    parent is recorded too. *)
Record ChainInv (grid : Grid) (s : Cell) (st : SearchState) : Prop := {
  ci_start : parents st !! s = Some None;
  ci_root : ∀ v, parents st !! v = Some None → v = s;
  ci_link : ∀ v p, parents st !! v = Some (Some p) →
            v ∈ neighbors p ∧ passable grid v ∧ is_Some (parents st !! p);
  ci_open : ∀ n, n ∈ openSet st → is_Some (parents st !! point n);
  ci_closed : s ∈ closedSet st ∨ ∀ n, n ∈ openSet st → point n = s }.

(** What the search has explored: the start cell is known, the goal is not
    closed, every recorded cell is closed or open, and the passable
    neighbors of a closed cell are closed or open. *)
Record ExploreInv (grid : Grid) (s t : Cell) (st : SearchState) : Prop := {
  ei_start : s ∈ closedSet st ∨ s ∈ point <$> openSet st;
  ei_goal : t ∉ closedSet st;
  ei_closed : ∀ c v, c ∈ closedSet st → v ∈ neighbors c → passable grid v →
              v ∈ closedSet st ∨ v ∈ point <$> openSet st;
  ei_known : ∀ v, is_Some (gScores st !! v) →
             v ∈ closedSet st ∨ v ∈ point <$> openSet st }.

(** ** Grids with more blocked cells *)




(** ** Components and their pins *)

(** The pin lies in the rectangle, sides included. *)
Definition onBox (box : Rectangle) (p : Pin) : Prop :=
  pointInRectangle (getPosition p) box = true.

(** The four numbers of the component are finite, and [box] is its
    bounding box. *)
Definition finiteBox (c : Component) (box : Rectangle) : Prop :=
  asRectangle (getBoundingBox c) = Some box.

(** The pin's type is the type of a group of the component that lists it. *)
Definition typedBy (c : Component) (r : Ref) (p : Pin) : Prop :=
  (pin_type p = INPUT ∧ r ∈ _inputPins c)
  ∨ (pin_type p = OUTPUT ∧ r ∈ _outputPins c)
  ∨ (pin_type p = POWER ∧ r ∈ _powerPins c)
  ∨ (pin_type p = GROUND ∧ r ∈ _groundPins c).

(** The fields of a pin that no method of a component writes. *)
Definition samePinIdentity (p p' : Pin) : Prop :=
  pin_name p' = pin_name p
  ∧ convergenceCount p' = convergenceCount p
  ∧ divergenceCount p' = divergenceCount p.

(** A number of magnitude at most 2^1000: sums and products of a few of
    them stay in the binary64 range. *)
Definition moderate (q : Q) : Prop :=
  (- inject_Z (2 ^ 1000) <= q)%Q ∧ (q <= inject_Z (2 ^ 1000))%Q.

(** The state of a component in use: finite numbers, a positive size, and
    every pin of the component on its bounding box. *)
Definition wellPlaced (c : Component) (ps : gmap Ref Pin) : Prop :=
  ∃ box, finiteBox c box
         ∧ (0 < rect_width box)%Q ∧ (0 < rect_height box)%Q
         ∧ ∀ r p, r ∈ getAllPins c → ps !! r = Some p → onBox box p.

(** A call of one of the six methods that change a component. *)
Inductive ComponentCall : Type :=
| call_set_x (value : JsNumber)
| call_set_y (value : JsNumber)
| call_set_width (value : JsNumber)
| call_set_height (value : JsNumber)
| call_setPosition (x y : Num)
| call_setSize (width height : Num).

Definition runCall (st : CompState) (call : ComponentCall)
    : CompState * Completion unit :=
  match call with
  | call_set_x value => Component_set_x st.1 st.2 value
  | call_set_y value => Component_set_y st.1 st.2 value
  | call_set_width value => Component_set_width st.1 st.2 value
  | call_set_height value => Component_set_height st.1 st.2 value
  | call_setPosition x y => Component_setPosition st.1 st.2 x y
  | call_setSize width height => Component_setSize st.1 st.2 width height
  end.

(** The calls one after the other, up to the first that throws. *)
Fixpoint runCalls (st : CompState) (calls : list ComponentCall)
    : CompState * Completion unit :=
  match calls with
  | [] => (st, Returns tt)
  | call :: rest =>
      match runCall st call with
      | (st', Returns _) => runCalls st' rest
      | (st', Raises e) => (st', Raises e)
      end
  end.

(** The arguments of the call are finite numbers. *)
Definition finiteCall (call : ComponentCall) : Prop :=
  match call with
  | call_setPosition x y => is_Some (finiteValue x) ∧ is_Some (finiteValue y)
  | call_setSize width height =>
      is_Some (finiteValue width) ∧ is_Some (finiteValue height)
  | call_set_x value | call_set_y value
  | call_set_width value | call_set_height value => value ≠ NonFinite
  end.

(** A store with two fresh pins, references 0 and 1. *)
Definition twoPins : gmap Ref Pin :=
  {[ 0%nat := newPin "in"; 1%nat := newPin "out" ]}.

(** ** Circuits and the routing loop *)



(** Two wire slots that differ at most in the routed path. *)
Definition sameModuloPath (o1 o2 : option Wire) : Prop :=
  match o1, o2 with
  | Some w1, Some w2 => setRoutedPath w1 [] = setRoutedPath w2 []
  | None, None => True
  | _, _ => False
  end.

(** Two heaps with the same pins and the same wires up to their routed
    paths, which agree on the wires of [routed]. *)
Definition agreeOn (routed : list Ref) (h1 h2 : Heap) : Prop :=
  pins h1 = pins h2
  ∧ (∀ r, r ∈ routed → wires h1 !! r = wires h2 !! r)
  ∧ (∀ r, sameModuloPath (wires h1 !! r) (wires h2 !! r)).

(** A heap with two wires between the same two pins. *)
Definition twoWireHeap : Heap :=
  {| pins := {[ 0%nat := pinAt "a" (mkPoint 0 0) 0 2;
                1%nat := pinAt "b" (mkPoint 40 0) 2 0 ]};
     wires := {[ 0%nat := {| enterPin := 0%nat; exitPin := 1%nat; wire_name := "w0";
                             bendPoints := []; routedPath := [] |};
                 1%nat := {| enterPin := 0%nat; exitPin := 1%nat; wire_name := "w1";
                             bendPoints := [mkPoint 20 20]; routedPath := [] |} ]} |}.

(** ** A grid on which the search takes a detour *)

(** Three rows of six cells; blocked: (1,1), (4,1) and (3,2). *)
Definition detourGrid : Grid :=
  [ [true; true;  true; true;  true;  true];
    [true; false; true; true;  false; true];
    [true; true;  true; false; true;  true] ].

(** A walk of 9 steps from cell (0,1) to cell (4,2) along the top row. *)
Definition detourShortcut : list Cell :=
  [ (0, 1); (0, 0); (1, 0); (2, 0); (3, 0); (4, 0); (5, 0); (5, 1); (5, 2); (4, 2) ]%Z.

(** ** Cells away from the grid *)






(** * The router on concrete inputs *)

(** C1 (endpoint preservation) fails on the search branch: for a wire from
    (5,5) to (100,0), no obstacles, no other wires and cell size 10, the
    returned path is [(0,0); (100,0)], whose first point is the corner of the
    source's cell, not the source.  The bend-point branch and the fallback
    return the source itself. *)
Theorem calculatePath_snaps_source_to_cell :
  (calculatePath (wireHeap (mkPoint 5 5) (mkPoint 100 0) []) 0 [] [] 10).2
  = Ok [mkPoint 0 0; mkPoint 100 0].
Proof. vm_compute. reflexivity. Qed.

(** C2 (obstacle avoidance) fails: with source (0,0), target (100,0), the
    single obstacle (40,-20)-(60,20), no other wires and cell size 10, the
    router returns the direct line [(0,0); (100,0)], which crosses the
    obstacle (at (50,0), and [isLineClear] rejects the segment): the
    obstacle is rasterized relative to the window origin (-50,-70) while the
    search indexes the grid with absolute cells. *)
Theorem calculatePath_crosses_obstacle :
  (calculatePath (wireHeap (mkPoint 0 0) (mkPoint 100 0) []) 0
                 [blockingObstacle] [] 10).2
  = Ok [mkPoint 0 0; mkPoint 100 0]
  ∧ pointInRectangle (mkPoint 50 0) blockingObstacle = true
  ∧ isLineClear (mkPoint 0 0) (mkPoint 100 0) [blockingObstacle] = false.
Proof. repeat split; vm_compute; reflexivity. Qed.

(** C3 (at least two points) fails: with source = target = (0,0) and no
    obstacles the search dequeues the goal at once and the router returns
    the one-point path [(0,0)]. *)
Theorem calculatePath_single_point :
  (calculatePath (wireHeap (mkPoint 0 0) (mkPoint 0 0) []) 0 [] [] 10).2
  = Ok [mkPoint 0 0].
Proof. vm_compute. reflexivity. Qed.

(** * Manual bend points *)

(** C4: a wire with a non-empty list of bend points is routed as
    [source :: bends ++ [target]], whatever the obstacles, the other wires
    and the grid size (even one for which building the grid would throw);
    the path is stored in the wire and nothing else changes. *)
Theorem calculatePath_manual_bends
    (h : Heap) (this : Ref) (w : Wire) (pe px : Pin)
    (obstacles : list Rectangle) (existingWires : list Ref) (gridSize : Q) :
  wires h !! this = Some w →
  pins h !! enterPin w = Some pe →
  pins h !! exitPin w = Some px →
  bendPoints w ≠ [] →
  let path := getPosition pe :: bendPoints w ++ [getPosition px] in
  calculatePath h this obstacles existingWires gridSize
  = ({| pins := pins h; wires := <[this := setRoutedPath w path]> (wires h) |},
     Ok path).
Proof.
  intros Hw Hpe Hpx Hb path. unfold calculatePath, route.
  rewrite Hw, Hpe, Hpx.
  destruct (bendPoints w) as [|b bs] eqn:E; [done|]. reflexivity.
Qed.

Lemma calculatePath_manual_bends_witness :
  let b1 := mkPoint 10 30 in
  let b2 := mkPoint 70 30 in
  calculatePath (wireHeap (mkPoint 0 0) (mkPoint 100 0) [b1; b2]) 0
                [blockingObstacle] [] 0
  = ({| pins := pins (wireHeap (mkPoint 0 0) (mkPoint 100 0) [b1; b2]);
        wires := <[0%nat := setRoutedPath
                     {| enterPin := 0%nat; exitPin := 1%nat; wire_name := "w";
                        bendPoints := [b1; b2]; routedPath := [] |}
                     [mkPoint 0 0; b1; b2; mkPoint 100 0]]>
                   (wires (wireHeap (mkPoint 0 0) (mkPoint 100 0) [b1; b2])) |},
     Ok [mkPoint 0 0; b1; b2; mkPoint 100 0]).
Proof.
  intros b1 b2.
  apply (calculatePath_manual_bends
           (wireHeap (mkPoint 0 0) (mkPoint 100 0) [b1; b2]) 0%nat
           {| enterPin := 0%nat; exitPin := 1%nat; wire_name := "w";
              bendPoints := [b1; b2]; routedPath := [] |}
           (pinAt "a" (mkPoint 0 0) 0 1) (pinAt "b" (mkPoint 100 0) 1 0)
           [blockingObstacle] [] 0).
  - reflexivity.
  - reflexivity.
  - reflexivity.
  - discriminate.
Defined.

(** * Segment interpolation *)

Lemma segmentSteps_zero (p1 p2 : Point) :
  pt_eq p1 p2 → (segmentSteps p1 p2 == 0)%Q.
Proof.
  intros [Hx Hy]. unfold segmentSteps.
  assert (Ex : (pt_x p2 - pt_x p1 == 0)%Q) by (rewrite Hx; ring).
  assert (Ey : (pt_y p2 - pt_y p1 == 0)%Q) by (rewrite Hy; ring).
  rewrite Ex, Ey. reflexivity.
Qed.

Lemma stepRange_zero (steps : Q) : (steps == 0)%Q → stepRange steps = [0%Z].
Proof. intros H. unfold stepRange. rewrite H. reflexivity. Qed.

Lemma wireSample_finite (p1 p2 : Point) (steps : Q) (step : Z) :
  is_Some (wireSample p1 p2 steps step).
Proof.
  unfold wireSample, js_div.
  destruct (Qeq_bool steps 0); simpl; eauto.
Qed.

Lemma lineSample_finite (p1 p2 : Point) (steps : Q) (i : Z) :
  is_Some (lineSample p1 p2 steps i).
Proof.
  unfold lineSample, js_div.
  destruct (Qeq_bool steps 0); simpl; eauto.
Qed.

Lemma Qle_bool_proper (a a' b b' : Q) :
  (a == a')%Q → (b == b')%Q → Qle_bool a b = Qle_bool a' b'.
Proof.
  intros Ha Hb. apply eq_true_iff_eq. rewrite !Qle_bool_iff, Ha, Hb. done.
Qed.

Lemma pointInRectangle_proper (p q : Point) (rect : Rectangle) :
  pt_eq p q → pointInRectangle p rect = pointInRectangle q rect.
Proof.
  intros [Hx Hy]. unfold pointInRectangle.
  rewrite (Qle_bool_proper (rect_x rect) (rect_x rect) (pt_x p) (pt_x q)),
          (Qle_bool_proper (pt_x p) (pt_x q) (rect_x rect + rect_width rect)
                           (rect_x rect + rect_width rect)),
          (Qle_bool_proper (rect_y rect) (rect_y rect) (pt_y p) (pt_y q)),
          (Qle_bool_proper (pt_y p) (pt_y q) (rect_y rect + rect_height rect)
                           (rect_y rect + rect_height rect)); done.
Qed.

Lemma existsb_pointInRectangle_proper (p q : Point) (obstacles : list Rectangle) :
  pt_eq p q →
  existsb (pointInRectangle p) obstacles = existsb (pointInRectangle q) obstacles.
Proof.
  intros Heq. induction obstacles as [|o l IH]; [done|].
  cbn [existsb]. by rewrite IH, (pointInRectangle_proper p q o Heq).
Qed.

(** On a zero-length segment [markSegment] runs its loop once and marks the
    block around the cell of the endpoint. *)
Lemma markSegment_zero_length (grid : Grid) (p1 p2 : Point)
    (gridSize offsetX offsetY : Q) :
  pt_eq p1 p2 →
  markSegment grid p1 p2 gridSize offsetX offsetY
  = markBlock grid (Qfloor ((pt_x p1 - offsetX) / gridSize))
                   (Qfloor ((pt_y p1 - offsetY) / gridSize)).
Proof.
  intros Heq. pose proof (segmentSteps_zero p1 p2 Heq) as Hz.
  unfold markSegment. rewrite (stepRange_zero _ Hz). cbn [foldl].
  unfold wireSample. apply Qeq_bool_iff in Hz as Hb. rewrite Hb.
  cbn [mbind option_bind pt_x pt_y].
  f_equal; apply Qfloor_comp.
  - assert (E : (pt_x p1 + (pt_x p2 - pt_x p1) * 0 == pt_x p1)%Q) by ring.
    by rewrite E.
  - assert (E : (pt_y p1 + (pt_y p2 - pt_y p1) * 0 == pt_y p1)%Q) by ring.
    by rewrite E.
Qed.

(** On a zero-length segment [isLineClear] runs its loop once and tests the
    endpoint. *)
Lemma isLineClear_zero_length (p1 p2 : Point) (obstacles : list Rectangle) :
  pt_eq p1 p2 →
  isLineClear p1 p2 obstacles = negb (existsb (pointInRectangle p1) obstacles).
Proof.
  intros Heq. pose proof (segmentSteps_zero p1 p2 Heq) as Hz.
  unfold isLineClear. rewrite (stepRange_zero _ Hz). cbn [forallb].
  unfold lineSample. apply Qeq_bool_iff in Hz as Hb. rewrite Hb.
  cbn [mbind option_bind]. rewrite andb_true_r. f_equal.
  apply existsb_pointInRectangle_proper. split; cbn [pt_x pt_y]; ring.
Qed.

(** C9: in [markWirePathInGrid] and in [isLineClear] the interpolation
    parameter is always finite (the division is never by zero).  On a
    zero-length segment each of the two loops runs once, with [t = 0], and
    samples the endpoint itself: [markWirePathInGrid] marks the block of
    cells around the cell of that point and nothing else, and [isLineClear]
    answers whether that point lies outside every obstacle. *)
Theorem zero_length_segment_sampling (p1 p2 : Point) :
  (∀ step, is_Some (wireSample p1 p2 (segmentSteps p1 p2) step)
           ∧ is_Some (lineSample p1 p2 (segmentSteps p1 p2) step))
  ∧ (pt_eq p1 p2 →
     (∃ s, wireSample p1 p2 (segmentSteps p1 p2) <$> stepRange (segmentSteps p1 p2)
           = [Some s]
         ∧ lineSample p1 p2 (segmentSteps p1 p2) <$> stepRange (segmentSteps p1 p2)
           = [Some s]
         ∧ s = {| pt_x := (pt_x p1 + (pt_x p2 - pt_x p1) * 0)%Q;
                  pt_y := (pt_y p1 + (pt_y p2 - pt_y p1) * 0)%Q |}
         ∧ pt_eq s p1 ∧ pt_eq s p2)
     ∧ (∀ grid gridSize offsetX offsetY,
          markWirePathInGrid grid [p1; p2] gridSize offsetX offsetY
          = markBlock grid (Qfloor ((pt_x p1 - offsetX) / gridSize))
                           (Qfloor ((pt_y p1 - offsetY) / gridSize))
          ∧ markSegment grid p1 p2 gridSize offsetX offsetY
            = markBlock grid (Qfloor ((pt_x p1 - offsetX) / gridSize))
                             (Qfloor ((pt_y p1 - offsetY) / gridSize)))
     ∧ (∀ obstacles,
          isLineClear p1 p2 obstacles
          = negb (existsb (pointInRectangle p1) obstacles))).
Proof.
  split.
  - intros step. split; [apply wireSample_finite | apply lineSample_finite].
  - intros Heq. split; [|split].
    + pose proof (segmentSteps_zero p1 p2 Heq) as Hz.
      rewrite (stepRange_zero _ Hz).
      eexists. simpl. unfold wireSample, lineSample.
      apply Qeq_bool_iff in Hz as Hb. rewrite Hb. simpl.
      split; [reflexivity|]. split; [reflexivity|]. split; [reflexivity|].
      destruct Heq as [Hx Hy]. split; split; simpl; try ring.
      * rewrite <- Hx. ring.
      * rewrite <- Hy. ring.
    + intros grid gridSize offsetX offsetY. cbn [markWirePathInGrid].
      split; by apply markSegment_zero_length.
    + intros obstacles. by apply isLineClear_zero_length.
Qed.

(** * The Wire constructor *)

(** C10: [new Wire(e, x, name, bends)] adds 1 to [e.divergenceCount] and 1
    to [x.convergenceCount], keeps the name, position, type and component of
    both pins (and, when they are different pins, the other counter of
    each), and leaves every other pin alone; when a pin argument is
    missing it throws and the heap, hence every counter, is unchanged. *)
Theorem newWire_counts (h : Heap) (e x : Ref) (pe px : Pin)
    (name : string) (bends : list Point) :
  pins h !! e = Some pe →
  pins h !! x = Some px →
  (∃ h' this pe' px',
      newWire h (Some e) (Some x) name bends = (h', Ok this)
      ∧ pins h' !! e = Some pe' ∧ pins h' !! x = Some px'
      ∧ divergenceCount pe' = (divergenceCount pe + 1)%Z
      ∧ convergenceCount px' = (convergenceCount px + 1)%Z
      ∧ samePinFrame pe pe' ∧ samePinFrame px px'
      ∧ (e ≠ x → convergenceCount pe' = convergenceCount pe
                 ∧ divergenceCount px' = divergenceCount px)
      ∧ (∀ r, r ≠ e → r ≠ x → pins h' !! r = pins h !! r))
  ∧ (∀ oe ox, oe = None ∨ ox = None →
       newWire h oe ox name bends = (h, Throws PinsError)).
Proof.
  intros He Hx. split.
  - destruct (decide (e = x)) as [->|Hne].
    + assert (px = pe) as -> by congruence.
      eexists _, _, (incConvergence (incDivergence pe)), _.
      split; [reflexivity|]. simpl.
      rewrite !lookup_alter_eq, He. simpl.
      repeat split; try reflexivity; try done.
      intros r Hr _. by rewrite !lookup_alter_ne.
    + eexists _, _, (incDivergence pe), (incConvergence px).
      split; [reflexivity|]. simpl.
      rewrite (lookup_alter_ne _ _ x e) by done.
      rewrite !lookup_alter_eq.
      rewrite lookup_alter_ne by done. rewrite He, Hx. simpl.
      repeat split; try reflexivity.
      intros r Hr1 Hr2. by rewrite !lookup_alter_ne.
  - intros oe ox [-> | ->]; [reflexivity|]. by destruct oe.
Qed.

Lemma newWire_counts_witness :
  let h := {| pins := {[ 0%nat := pinAt "a" (mkPoint 0 0) 0 0;
                         1%nat := pinAt "b" (mkPoint 100 0) 0 0 ]};
              wires := ∅ |} in
  (∃ h' this pe' px',
      newWire h (Some 0%nat) (Some 1%nat) "w" [] = (h', Ok this)
      ∧ pins h' !! 0%nat = Some pe' ∧ pins h' !! 1%nat = Some px'
      ∧ divergenceCount pe' = (0 + 1)%Z
      ∧ convergenceCount px' = (0 + 1)%Z
      ∧ samePinFrame (pinAt "a" (mkPoint 0 0) 0 0) pe'
      ∧ samePinFrame (pinAt "b" (mkPoint 100 0) 0 0) px'
      ∧ (0%nat ≠ 1%nat → convergenceCount pe' = 0%Z ∧ divergenceCount px' = 0%Z)
      ∧ (∀ r, r ≠ 0%nat → r ≠ 1%nat → pins h' !! r = pins h !! r))
  ∧ (∀ oe ox, oe = None ∨ ox = None →
       newWire h oe ox "w" [] = (h, Throws PinsError)).
Proof.
  intros h.
  apply (newWire_counts h 0%nat 1%nat (pinAt "a" (mkPoint 0 0) 0 0)
           (pinAt "b" (mkPoint 100 0) 0 0) "w" []).
  - reflexivity.
  - reflexivity.
Defined.

(** * The search loop terminates *)

Lemma insertByF_perm (n : GridNode) (l : list GridNode) :
  insertByF n l ≡ₚ n :: l.
Proof.
  induction l as [|m l IH]; simpl; [done|].
  destruct (fScore n <=? fScore m)%Z; [done|].
  rewrite IH. apply Permutation_swap.
Qed.

Lemma sortByF_perm (l : list GridNode) : sortByF l ≡ₚ l.
Proof.
  induction l as [|n l IH]; simpl; [done|].
  rewrite insertByF_perm. by rewrite IH.
Qed.

Lemma skipped_false (grid : Grid) (closed : gset Cell) (v : Cell) :
  skipped grid closed v = false →
  (v ∉ closed) ∧ inGrid grid v
  ∧ gridGet grid (Z.to_nat v.1) (Z.to_nat v.2) = true.
Proof.
  unfold skipped, inGrid. intros H.
  repeat (apply orb_false_iff in H as [H ?]).
  apply bool_decide_eq_false in H.
  apply negb_false_iff in H0.
  repeat split; try done; lia.
Qed.

Lemma elem_of_gridCells (grid : Grid) (c : Cell) :
  inGrid grid c → c ∈ gridCells grid.
Proof.
  intros [Hx Hy]. unfold gridCells.
  apply list_elem_of_bind. exists c.1. split.
  - apply list_elem_of_bind. exists c.2. split.
    + destruct c. simpl. apply list_elem_of_singleton. done. 
    + apply elem_of_seqZ. lia.
  - apply elem_of_seqZ. lia.
Qed.

Lemma inGrid_universe (grid : Grid) (s c : Cell) :
  inGrid grid c → c ∈ universe grid s.
Proof.
  intros H. unfold universe. apply elem_of_union_r, elem_of_list_to_set.
  by apply elem_of_gridCells.
Qed.

Lemma size_list_to_set_le (l : list Cell) :
  size (list_to_set l : gset Cell) ≤ length l.
Proof.
  induction l as [|a l IH].
  - rewrite list_to_set_nil, size_empty. done.
  - rewrite list_to_set_cons, size_union_alt, size_singleton. simpl.
    assert (Hsub : list_to_set l ∖ {[a]} ⊆ (list_to_set l : gset Cell)) by set_solver.
    apply subseteq_size in Hsub. lia.
Qed.

Lemma length_bind_const {A B : Type} (f : A → list B) (k : nat) (l : list A) :
  (∀ x, length (f x) = k) → length (l ≫= f) = length l * k.
Proof.
  intros Hf. induction l as [|x l IH]; [done|].
  rewrite bind_cons, length_app, IH, Hf. simpl. lia.
Qed.

Lemma length_gridCells (grid : Grid) :
  length (gridCells grid) = gridWidth grid * length grid.
Proof.
  unfold gridCells.
  rewrite (length_bind_const _ (length grid)).
  - rewrite length_seqZ. lia.
  - intros x. rewrite (length_bind_const _ 1) by done.
    rewrite length_seqZ. lia.
Qed.

Lemma size_universe (grid : Grid) (s : Cell) :
  size (universe grid s) < searchFuel grid.
Proof.
  unfold universe, searchFuel.
  rewrite size_union_alt, size_singleton.
  pose proof (size_list_to_set_le (gridCells grid)) as H1.
  rewrite length_gridCells in H1.
  assert (H2 : list_to_set (gridCells grid) ∖ {[s]} ⊆ (list_to_set (gridCells grid) : gset Cell))
    by set_solver.
  apply subseteq_size in H2. lia.
Qed.

Lemma relax_closedSet grid gridEnd current st v :
  closedSet (relax grid gridEnd current st v) = closedSet st.
Proof.
  unfold relax. destruct (skipped _ _ _); [done|].
  by destruct (match gScores st !! v with None => true | Some g => _ end).
Qed.

Lemma foldl_relax_closedSet grid gridEnd current (l : list Cell) st :
  closedSet (foldl (relax grid gridEnd current) st l) = closedSet st.
Proof.
  revert st. induction l as [|v l IH]; intros st; simpl; [done|].
  by rewrite IH, relax_closedSet.
Qed.

Lemma existsb_point_false (l : list GridNode) (v : Cell) :
  existsb (λ node, bool_decide (point node = v)) l = false →
  v ∉ point <$> l.
Proof.
  induction l as [|n l IH]; simpl; intros H.
  - apply not_elem_of_nil.
  - apply orb_false_iff in H as [H1 H2].
    apply bool_decide_eq_false in H1.
    apply not_elem_of_cons. split; [congruence | by apply IH].
Qed.

Lemma relax_inv grid gridEnd s current st v :
  SearchInv grid s st → Expanding st current →
  SearchInv grid s (relax grid gridEnd current st v)
  ∧ Expanding (relax grid gridEnd current st v) current.
Proof.
  intros Inv (Hcl & gc & Hgc & Hgc01). unfold relax.
  destruct (skipped grid (closedSet st) v) eqn:Hs.
  { split; [done|]. by split; eauto. }
  apply skipped_false in Hs as (Hncl & Hin & _).
  destruct (match gScores st !! v with
            | None => true | Some g => (gScore current + 1 <? g)%Z end) eqn:Hc.
  2:{ split; [done|]. by split; eauto. }
  assert (Hne : point current ≠ v) by (intros Heq; rewrite Heq in Hcl; done).
  split; [constructor; simpl|].
  - apply Inv.
  - intros n Hn.
    destruct (existsb _ (openSet st)); [by apply Inv|].
    apply elem_of_app in Hn as [Hn|Hn]; [by apply Inv|].
    apply list_elem_of_singleton in Hn as ->. simpl.
    split; [by apply inGrid_universe | done].
  - destruct (existsb _ (openSet st)) eqn:He; [apply Inv|].
    rewrite fmap_app. apply NoDup_app. split; [apply Inv|]. split.
    + intros x Hx Hx'. apply list_elem_of_singleton in Hx'. subst x.
      by apply existsb_point_false in He.
    + simpl. apply NoDup_singleton.
  - intros n Hn.
    assert (Hcase : n ∈ openSet st
                    ∨ n = {| point := v; gScore := gScore current + 1;
                             fScore := gScore current + 1 + heuristic v gridEnd;
                             parent := Some (point current) |}).
    { destruct (existsb _ (openSet st)); [by left|].
      apply elem_of_app in Hn as [Hn|Hn]; [by left|].
      right. by apply list_elem_of_singleton in Hn. }
    destruct Hcase as [Hn'| ->].
    + destruct (inv_g _ _ _ Inv n Hn') as (g & Hg & Hg01).
      destruct (decide (point n = v)) as [Hv|Hv].
      * rewrite Hv, lookup_insert_eq. eexists; split; [done|].
        rewrite Hv in Hg. rewrite Hg in Hc. apply Z.ltb_lt in Hc. lia.
      * rewrite lookup_insert_ne by done. eauto.
    + simpl. rewrite lookup_insert_eq. eexists; split; [done|]. lia.
  - intros v' p Hp.
    destruct (decide (v = v')) as [<-|Hv].
    + rewrite lookup_insert_eq in Hp. injection Hp as <-.
      rewrite lookup_insert_ne by done. rewrite lookup_insert_eq.
      exists gc, (gScore current + 1)%Z. repeat split; try done; lia.
    + rewrite lookup_insert_ne in Hp by done.
      destruct (inv_parent _ _ _ Inv v' p Hp) as (gp & gv & Hgp & Hgv & Hlt).
      rewrite (lookup_insert_ne _ v v') by done.
      destruct (decide (v = p)) as [<-|Hp'].
      * rewrite lookup_insert_eq. rewrite Hgp in Hc. apply Z.ltb_lt in Hc.
        exists (gScore current + 1)%Z, gv. repeat split; try done; lia.
      * rewrite lookup_insert_ne by done. exists gp, gv. done.
  - split; [done|]. simpl. rewrite lookup_insert_ne by done. eauto.
Qed.

Lemma foldl_relax_inv grid gridEnd s current (l : list Cell) st :
  SearchInv grid s st → Expanding st current →
  SearchInv grid s (foldl (relax grid gridEnd current) st l).
Proof.
  revert st. induction l as [|v l IH]; intros st Inv Hcur; simpl; [done|].
  destruct (relax_inv grid gridEnd s current st v Inv Hcur) as [Inv' Hcur'].
  by apply IH.
Qed.

Lemma reconstructLoop_total (parents : gmap Cell (option Cell))
    (gScores : gmap Cell Z) (gridSize : Q) :
  (∀ v p, parents !! v = Some (Some p) →
     ∃ gp gv, gScores !! p = Some gp ∧ gScores !! v = Some gv ∧ (0 ≤ gp < gv)%Z) →
  ∀ fuel c g path,
    gScores !! c = Some g → (0 ≤ g)%Z → Z.to_nat g < fuel →
    ∃ path', reconstructLoop fuel parents c gridSize path = Ok path'.
Proof.
  intros Hpar. induction fuel as [|fuel IH]; intros c g path Hg Hg0 Hlt; [lia|].
  simpl. destruct (parents !! c) as [[p|]|] eqn:Hp; eauto.
  destruct (Hpar c p Hp) as (gp & gv & Hgp & Hgv & Hlt').
  assert (gv = g) as -> by congruence.
  apply (IH p gp); [done|lia|lia].
Qed.

Lemma searchLoop_S fuel grid gridEnd gridSize st :
  searchLoop (S fuel) grid gridEnd gridSize st
  = match sortByF (openSet st) with
    | [] => Ok []
    | current :: rest =>
        if bool_decide (point current = gridEnd)
        then reconstructPath (S (Z.to_nat (gScore current)))
               (parents st) (point current) gridSize
        else
          searchLoop fuel grid gridEnd gridSize
            (foldl (relax grid gridEnd current)
               {| openSet := rest;
                  closedSet := closedSet st ∪ {[point current]};
                  gScores := gScores st; parents := parents st |}
               (neighbors (point current)))
    end.
Proof. reflexivity. Qed.

(** From a state that satisfies the invariant, a fuel larger than the number
    of cells not yet closed is enough. *)
Lemma searchLoop_total grid gridEnd gridSize s :
  ∀ fuel st,
    SearchInv grid s st →
    size (universe grid s) - size (closedSet st) < fuel →
    ∃ path, searchLoop fuel grid gridEnd gridSize st = Ok path.
Proof.
  induction fuel as [|fuel IH]; intros st Inv Hfuel; [lia|].
  rewrite searchLoop_S.
  destruct (sortByF (openSet st)) as [|current rest] eqn:Hsort; [eauto|].
  assert (Hperm : current :: rest ≡ₚ openSet st)
    by (rewrite <- Hsort; apply sortByF_perm).
  assert (Hcur : current ∈ openSet st)
    by (rewrite <- Hperm; apply list_elem_of_here).
  destruct (inv_open _ _ _ Inv current Hcur) as [HcU Hcncl].
  destruct (inv_g _ _ _ Inv current Hcur) as (g & Hg & Hg01).
  case_bool_decide as Hgoal.
  - unfold reconstructPath.
    apply (reconstructLoop_total _ (gScores st) gridSize (inv_parent _ _ _ Inv))
      with (g := g); [done|lia|lia].
  - set (st1 := {| openSet := rest; closedSet := closedSet st ∪ {[point current]};
                   gScores := gScores st; parents := parents st |}).
    assert (Hnd : NoDup (point <$> current :: rest)).
    { rewrite Hperm. apply Inv. }
    rewrite fmap_cons in Hnd. apply NoDup_cons in Hnd as [Hnin Hnd].
    assert (Inv1 : SearchInv grid s st1).
    { constructor; simpl.
      - pose proof (inv_closed _ _ _ Inv). set_solver.
      - intros n Hn.
        assert (Hn' : n ∈ openSet st)
          by (rewrite <- Hperm; by apply list_elem_of_further).
        destruct (inv_open _ _ _ Inv n Hn') as [? ?]. split; [done|].
        apply not_elem_of_union. split; [done|].
        apply not_elem_of_singleton. intros Heq. apply Hnin.
        rewrite <- Heq. by apply list_elem_of_fmap_2.
      - done.
      - intros n Hn. apply (inv_g _ _ _ Inv).
        rewrite <- Hperm. by apply list_elem_of_further.
      - apply Inv. }
    assert (Hexp : Expanding st1 current).
    { split; simpl; [set_solver|eauto]. }
    apply IH.
    + by apply foldl_relax_inv.
    + rewrite foldl_relax_closedSet. simpl.
      rewrite size_union by set_solver. rewrite size_singleton.
      assert (Hsub : closedSet st ∪ {[point current]} ⊆ universe grid s).
      { pose proof (inv_closed _ _ _ Inv). set_solver. }
      apply subseteq_size in Hsub.
      rewrite size_union in Hsub by set_solver. rewrite size_singleton in Hsub.
      lia.
Qed.

Lemma initialState_inv grid (gridStart gridEnd : Cell) :
  SearchInv grid gridStart (initialState gridStart gridEnd).
Proof.
  constructor; simpl.
  - set_solver.
  - intros n Hn. apply list_elem_of_singleton in Hn as ->. simpl.
    split; [unfold universe; set_solver | set_solver].
  - apply NoDup_singleton.
  - intros n Hn. apply list_elem_of_singleton in Hn as ->. simpl.
    exists 0%Z. rewrite lookup_singleton_eq. split; [done|lia].
  - intros v p Hp. apply lookup_singleton_Some in Hp as [_ ?]. done.
Qed.

(** The search always returns: the fuel of [findPathAStar] never runs out. *)
Theorem findPathAStar_total (grid : Grid) (start end_ : Point) (gridSize : Q) :
  ∃ path, findPathAStar grid start end_ gridSize = Ok path.
Proof.
  unfold findPathAStar.
  apply searchLoop_total with (s := toCell gridSize start).
  - apply initialState_inv.
  - pose proof (size_universe grid (toCell gridSize start)). lia.
Qed.

(** * The router facade *)

Lemma createObstacleGrid_fuel obstacles wirePaths gridSize start end_ :
  createObstacleGrid obstacles wirePaths gridSize start end_ ≠ OutOfFuel.
Proof.
  unfold createObstacleGrid, newGrid.
  destruct (Qeq_bool gridSize 0); [done|].
  repeat (case_match; try done).
Qed.

Lemma route_fuel bends start end_ obstacles wirePaths gridSize :
  route bends start end_ obstacles wirePaths gridSize ≠ OutOfFuel.
Proof.
  unfold route. destruct (0 <? length bends)%nat; [done|].
  pose proof (createObstacleGrid_fuel obstacles wirePaths gridSize start end_).
  destruct (createObstacleGrid _ _ _ _ _) as [grid| |]; try done.
  destruct (findPathAStar_total grid start end_ gridSize) as [path ->].
  by destruct (0 <? length path)%nat.
Qed.







(** Every point of a path found by the search is the corner
    [cell * gridSize] of a cell; the start and end points themselves are
    not part of it. *)
Lemma reconstructLoop_cells parents gridSize :
  ∀ fuel c path path',
    Forall (λ p, ∃ c, p = toCanvas gridSize c) path →
    reconstructLoop fuel parents c gridSize path = Ok path' →
    Forall (λ p, ∃ c, p = toCanvas gridSize c) path'.
Proof.
  induction fuel as [|fuel IH]; intros c path path' Hpath Hrec; [done|].
  cbn [reconstructLoop] in Hrec.
  assert (Hpath' : Forall (λ p, ∃ c, p = toCanvas gridSize c)
                     (toCanvas gridSize c :: path))
    by (constructor; eauto).
  destruct (parents !! c) as [[p|]|]; [by eapply IH| |]; by injection Hrec as <-.
Qed.

Lemma searchLoop_cells grid gridEnd gridSize :
  ∀ fuel st path,
    searchLoop fuel grid gridEnd gridSize st = Ok path →
    Forall (λ p, ∃ c, p = toCanvas gridSize c) path.
Proof.
  induction fuel as [|fuel IH]; intros st path Hloop; [done|].
  rewrite searchLoop_S in Hloop.
  destruct (sortByF (openSet st)) as [|current rest].
  { injection Hloop as <-. constructor. }
  case_bool_decide.
  - by eapply reconstructLoop_cells.
  - by eapply IH.
Qed.

Lemma findPathAStar_cells grid start end_ gridSize path :
  findPathAStar grid start end_ gridSize = Ok path →
  Forall (λ p, ∃ c, p = toCanvas gridSize c) path.
Proof. apply searchLoop_cells. Qed.




Lemma otherWirePaths_insert_this h this w existingWires :
  otherWirePaths {| pins := pins h; wires := <[this := w]> (wires h) |}
                 this existingWires
  = otherWirePaths h this existingWires.
Proof.
  unfold otherWirePaths. apply list_omap_ext.
  induction existingWires as [|r l IH]; constructor; [|done].
  case_bool_decide as Hr; [|done]. simpl. by rewrite lookup_insert_ne.
Qed.

(** C8: calling [calculatePath] again on the heap left by a first call, with
    the same arguments, gives the same result and leaves that heap as it is.
    A call never runs out of fuel; it changes no pin and no other wire; when
    it returns a path, the wire's [routedPath] is that path afterwards and
    the wire's other fields are kept; when it throws, the heap is
    unchanged. *)
Theorem calculatePath_idempotent (h : Heap) (this : Ref)
    (obstacles : list Rectangle) (existingWires : list Ref) (gridSize : Q) :
  let r := calculatePath h this obstacles existingWires gridSize in
  calculatePath r.1 this obstacles existingWires gridSize = r
  ∧ r.2 ≠ OutOfFuel
  ∧ pins r.1 = pins h
  ∧ (∀ r', r' ≠ this → wires r.1 !! r' = wires h !! r')
  ∧ (∀ path, r.2 = Ok path →
       ∃ w w', wires h !! this = Some w
               ∧ wires r.1 !! this = Some w'
               ∧ routedPath w' = path
               ∧ enterPin w' = enterPin w
               ∧ exitPin w' = exitPin w
               ∧ wire_name w' = wire_name w
               ∧ bendPoints w' = bendPoints w)
  ∧ (∀ e, r.2 = Throws e → r.1 = h).
Proof.
  unfold calculatePath.
  destruct (wires h !! this) as [w|] eqn:Hw; simpl.
  2:{ rewrite Hw. repeat split; try done. }
  destruct (pins h !! enterPin w) as [pe|] eqn:Hpe; simpl.
  2:{ rewrite Hw, Hpe. repeat split; try done. }
  destruct (pins h !! exitPin w) as [px|] eqn:Hpx; simpl.
  2:{ rewrite Hw, Hpe, Hpx. repeat split; try done. }
  pose proof (route_fuel (bendPoints w) (getPosition pe) (getPosition px)
                obstacles (otherWirePaths h this existingWires) gridSize) as Hfuel.
  destruct (route (bendPoints w) (getPosition pe) (getPosition px) obstacles
              (otherWirePaths h this existingWires) gridSize)
    as [path|e|] eqn:Hroute; [| |done]; simpl.
  - rewrite lookup_insert_eq. simpl. rewrite Hpe, Hpx.
    rewrite otherWirePaths_insert_this, Hroute.
    rewrite insert_insert_eq.
    repeat split; try done.
    + intros r' Hr'. by rewrite lookup_insert_ne.
    + intros path' [= <-]. by exists w, (setRoutedPath w path).
  - rewrite Hw, Hpe, Hpx, Hroute. repeat split; try done.
Qed.

(** * The rasterizer *)













(** Every cell whose centre lies in the rectangle overlaps it, so it is
    among the marked cells; the converse fails. *)
Lemma cellCenterInside_overlaps rect gridSize offsetX offsetY (x y : nat) :
  (0 < gridSize)%Q →
  cellCenterInside rect gridSize offsetX offsetY x y →
  cellOverlaps rect gridSize offsetX offsetY x y.
Proof.
  unfold cellCenterInside, cellOverlaps. intros Hgs (H1 & H2 & H3 & H4).
  rewrite !inject_Z_plus.
  set (qx := inject_Z (Z.of_nat x)) in *. set (qy := inject_Z (Z.of_nat y)) in *.
  assert (Ex : ((qx + (1 # 2)) * gridSize == qx * gridSize + (1 # 2) * gridSize)%Q)
    by ring.
  assert (Ey : ((qy + (1 # 2)) * gridSize == qy * gridSize + (1 # 2) * gridSize)%Q)
    by ring.
  assert (Ex' : ((qx + inject_Z 1) * gridSize == qx * gridSize + gridSize)%Q)
    by ring.
  assert (Ey' : ((qy + inject_Z 1) * gridSize == qy * gridSize + gridSize)%Q)
    by ring.
  rewrite Ex in H1, H2. rewrite Ey in H3, H4. rewrite Ex', Ey'.
  repeat split; lra.
Qed.


(** * The path simplifier *)

Lemma optimizePath_short (path : list Point) :
  length path ≤ 2 → optimizePath path = path.
Proof.
  destruct path as [|p0 [|p1 [|p2 rest]]]; simpl; try done. lia.
Qed.

Lemma optimizeFrom_fixed (rest : list Point) :
  ∀ a b, noCollinearTriple (a :: b :: rest) → optimizeFrom a b rest = b :: rest.
Proof.
  induction rest as [|c rest IH]; intros a b H; [done|].
  destruct H as [Hab H]. cbn [optimizeFrom]. rewrite Hab.
  f_equal. by apply IH.
Qed.

Lemma optimizePath_fixed (path : list Point) :
  noCollinearTriple path → optimizePath path = path.
Proof.
  destruct path as [|p0 [|p1 [|p2 rest]]]; try done.
  intros H. unfold optimizePath. f_equal. by apply optimizeFrom_fixed.
Qed.

(** If [cur], [far], [next] are collinear and [next] differs from [cur],
    a point [prev] off the line through [cur] and [far] is off the line
    through [cur] and [next]. *)
Lemma cross_extend (prev cur far next : Point) :
  (crossProduct cur far next == 0)%Q →
  ¬ (crossProduct prev cur far == 0)%Q →
  ¬ pt_eq cur next →
  ¬ (crossProduct prev cur next == 0)%Q.
Proof.
  unfold crossProduct, pt_eq.
  destruct prev as [px py], cur as [cx cy], far as [fx fy], next as [nx ny]; simpl.
  intros Huv Hwu Hne Hwv.
  set (wu := ((cx - px) * (fy - py) - (fx - px) * (cy - py))%Q) in *.
  set (wv := ((cx - px) * (ny - py) - (nx - px) * (cy - py))%Q) in *.
  set (uv := ((fx - cx) * (ny - cy) - (nx - cx) * (fy - cy))%Q) in *.
  assert (E1 : (wv * (fx - cx) == (nx - cx) * wu + (cx - px) * uv)%Q)
    by (unfold wu, wv, uv; ring).
  assert (E2 : (wv * (fy - cy) == (ny - cy) * wu + (cy - py) * uv)%Q)
    by (unfold wu, wv, uv; ring).
  rewrite Hwv, Huv in E1. rewrite Hwv, Huv in E2.
  assert (E1' : ((nx - cx) * wu == 0)%Q).
  { transitivity ((nx - cx) * wu + (cx - px) * 0)%Q; [ring|].
    symmetry. etransitivity; [|exact E1]. ring. }
  assert (E2' : ((ny - cy) * wu == 0)%Q).
  { transitivity ((ny - cy) * wu + (cy - py) * 0)%Q; [ring|].
    symmetry. etransitivity; [|exact E2]. ring. }
  apply Qmult_integral in E1' as [E1'|E1']; [|done].
  apply Qmult_integral in E2' as [E2'|E2']; [|done].
  apply Hne. split.
  - rewrite <- (Qplus_0_r cx), <- E1'. ring.
  - rewrite <- (Qplus_0_r cy), <- E2'. ring.
Qed.

Section Simplify.
Variable path : list Point.
Hypothesis Hexact : collinearityExact path.

Lemma cross_not_collinear (a b c : Point) :
  a ∈ path → b ∈ path → c ∈ path →
  ¬ (crossProduct a b c == 0)%Q → arePointsCollinear a b c = false.
Proof using Hexact.
  intros Ha Hb Hc Hn.
  destruct (arePointsCollinear a b c) eqn:E; [|done].
  destruct Hn. by apply Hexact.
Qed.

Lemma not_collinear_cross (a b c : Point) :
  a ∈ path → b ∈ path → c ∈ path →
  arePointsCollinear a b c = false → ¬ (crossProduct a b c == 0)%Q.
Proof using Hexact.
  intros Ha Hb Hc Hf Hz. apply (Hexact a b c Ha Hb Hc) in Hz. congruence.
Qed.

(** The output of the loops started at [cur] with look-ahead [far], when
    the previously kept point [prev] is off the line through them. *)
Lemma optimizeFrom_turns (rest : list Point) :
  ∀ prev cur far,
    prev ∈ path → cur ∈ path → far ∈ path → rest ⊆ path →
    ¬ (crossProduct prev cur far == 0)%Q →
    Forall (λ q, ¬ pt_eq cur q) (far :: rest) →
    pairwiseDistinct (far :: rest) →
    noCollinearTriple (prev :: cur :: optimizeFrom cur far rest).
Proof using Hexact.
  induction rest as [|next rest IH];
    intros prev cur far Hprev Hcur Hfar Hrest Hcross Hd1 Hd2.
  - simpl. split; [|done]. by apply cross_not_collinear.
  - assert (Hnext : next ∈ path) by (apply Hrest; left).
    assert (Hrest' : rest ⊆ path).
    { intros q Hq. apply Hrest. by right. }
    cbn [optimizeFrom].
    destruct (arePointsCollinear cur far next) eqn:Hcol.
    + apply IH; try done.
      * apply (cross_extend prev cur far next); try done.
        -- by apply Hexact.
        -- apply Forall_cons in Hd1 as [_ Hd1].
           by apply Forall_cons in Hd1 as [Hd1 _].
      * apply Forall_cons in Hd1 as [_ Hd1]. done.
      * destruct Hd2 as [_ Hd2]. done.
    + assert (Hturn : arePointsCollinear prev cur far = false)
        by (by apply cross_not_collinear).
      change (arePointsCollinear prev cur far = false
              ∧ noCollinearTriple (cur :: far :: optimizeFrom far next rest)).
      split; [done|].
      apply IH; try done.
      * by apply not_collinear_cross.
      * by destruct Hd2 as [Hd2 _].
      * by destruct Hd2 as [_ Hd2].
Qed.

Lemma optimizeFrom_first (rest : list Point) :
  ∀ cur far,
    cur ∈ path → far ∈ path → rest ⊆ path →
    Forall (λ q, ¬ pt_eq cur q) (far :: rest) →
    pairwiseDistinct (far :: rest) →
    noCollinearTriple (cur :: optimizeFrom cur far rest).
Proof using Hexact.
  induction rest as [|next rest IH]; intros cur far Hcur Hfar Hrest Hd1 Hd2.
  - done.
  - assert (Hnext : next ∈ path) by (apply Hrest; left).
    assert (Hrest' : rest ⊆ path).
    { intros q Hq. apply Hrest. by right. }
    cbn [optimizeFrom].
    destruct (arePointsCollinear cur far next) eqn:Hcol.
    + apply IH; try done.
      * apply Forall_cons in Hd1 as [_ Hd1]. done.
      * destruct Hd2 as [_ Hd2]. done.
    + apply optimizeFrom_turns; try done.
      * by apply not_collinear_cross.
      * by destruct Hd2 as [Hd2 _].
      * by destruct Hd2 as [_ Hd2].
Qed.

End Simplify.

Lemma optimizePath_turns (path : list Point) :
  collinearityExact path → pairwiseDistinct path →
  noCollinearTriple (optimizePath path).
Proof.
  intros Hexact Hd.
  destruct path as [|p0 [|p1 [|p2 rest]]]; try done.
  destruct Hd as [Hd1 Hd2]. unfold optimizePath.
  apply (optimizeFrom_first (p0 :: p1 :: p2 :: rest) Hexact); try done.
  - left.
  - right. left.
  - intros q Hq. by do 2 right.
Qed.


Lemma collinearityExactb_spec (path : list Point) :
  collinearityExactb path = true → collinearityExact path.
Proof.
  unfold collinearityExactb. rewrite forallb_forall. intros H a b c Ha Hb Hc.
  apply list_elem_of_In in Ha, Hb, Hc.
  specialize (H a Ha). rewrite forallb_forall in H.
  specialize (H b Hb). rewrite forallb_forall in H.
  specialize (H c Hc). apply Bool.eqb_prop in H. rewrite H.
  apply Qeq_bool_iff.
Qed.

(** C7, as the code has it: [optimizePath] returns every path of at most
    two points unchanged, and it is idempotent on every path whose points
    are pairwise different and on whose points the tolerance test, as the
    program evaluates it, accepts exactly the collinear triples. *)
Theorem optimizePath_idempotent (path : list Point) :
  (length path ≤ 2 → optimizePath path = path)
  ∧ (pairwiseDistinct path →
     collinearityExact path →
     optimizePath (optimizePath path) = optimizePath path).
Proof.
  split; [apply optimizePath_short|]. intros Hd Hex.
  by apply optimizePath_fixed, optimizePath_turns.
Qed.

Lemma optimizePath_idempotent_witness :
  let path := [mkPoint 0 0; mkPoint 10 0; mkPoint 20 0; mkPoint 20 10; mkPoint 20 20] in
  pairwiseDistinct path ∧ collinearityExact path
  ∧ optimizePath (optimizePath path) = optimizePath path.
Proof.
  intros path.
  assert (Hd : pairwiseDistinct path).
  { simpl. repeat split; repeat constructor;
      intros [Hx Hy]; vm_compute in Hx, Hy; discriminate. }
  assert (Hex : collinearityExact path).
  { apply collinearityExactb_spec. vm_compute. reflexivity. }
  split; [exact Hd|]. split; [exact Hex|].
  exact (proj2 (optimizePath_idempotent path) Hd Hex).
Defined.

(** C7 as stated (idempotent on every polyline) fails: on the path
    (0,0), (1,0), (1,1), (1,0), which returns to a point it has visited, the
    first pass gives (0,0), (1,0), (1,0) and the second (0,0), (1,0). *)
Lemma optimizePath_not_idempotent :
  let path := [mkPoint 0 0; mkPoint 1 0; mkPoint 1 1; mkPoint 1 0] in
  optimizePath path = [mkPoint 0 0; mkPoint 1 0; mkPoint 1 0]
  ∧ optimizePath (optimizePath path) = [mkPoint 0 0; mkPoint 1 0]
  ∧ optimizePath (optimizePath path) ≠ optimizePath path.
Proof.
  split; [vm_compute; reflexivity|]. split; [vm_compute; reflexivity|].
  vm_compute. discriminate.
Qed.

(** The tolerance alone also breaks idempotence, on pairwise different
    points: the last point, (1 + 2^-17, 2^-17), is within the tolerance of
    two different lines. *)
Lemma optimizePath_tolerance_not_idempotent :
  let path := [mkPoint 0 0; mkPoint 1 0; mkPoint 1 1;
               mkPoint (131073 # 131072) (1 # 131072)] in
  optimizePath path = [mkPoint 0 0; mkPoint 1 0; mkPoint (131073 # 131072) (1 # 131072)]
  ∧ optimizePath (optimizePath path)
    = [mkPoint 0 0; mkPoint (131073 # 131072) (1 # 131072)].
Proof. split; vm_compute; reflexivity. Qed.

(** * The search on an open grid *)

(** ** The lattice *)

Lemma elem_of_neighbors (u v : Cell) :
  v ∈ neighbors u
  ↔ v = (u.1 - 1, u.2)%Z ∨ v = (u.1 + 1, u.2)%Z
    ∨ v = (u.1, u.2 - 1)%Z ∨ v = (u.1, u.2 + 1)%Z.
Proof. unfold neighbors. set_solver. Qed.

Ltac lattice :=
  repeat match goal with
         | c : Cell |- _ => destruct c as [? ?]
         | c : (Z * Z)%type |- _ => destruct c as [? ?]
         | H : _ ∈ neighbors _ |- _ => apply elem_of_neighbors in H
         | H : (_, _) = (_, _) |- _ => injection H as ? ?
         | H : _ ∨ _ |- _ => destruct H
         end;
  unfold onShortest, heuristic, inGrid in *; simpl in *; subst;
  try lia.

Lemma heuristic_nonneg (a b : Cell) : (0 ≤ heuristic a b)%Z.
Proof. lattice. Qed.

Lemma heuristic_self (c : Cell) : heuristic c c = 0%Z.
Proof. destruct c. unfold heuristic. simpl. lia. Qed.

Lemma heuristic_zero (a b : Cell) : heuristic a b = 0%Z → b = a.
Proof. destruct a, b. unfold heuristic. simpl. intros H. f_equal; lia. Qed.

Lemma onShortest_start (s t : Cell) : onShortest s t s.
Proof. lattice. Qed.

Lemma onShortest_inGrid grid (s t c : Cell) :
  inGrid grid s → inGrid grid t → onShortest s t c → inGrid grid c.
Proof. intros Hs Ht Hc. lattice. Qed.

Lemma neighbor_on (s t u v : Cell) :
  onShortest s t u → v ∈ neighbors u → onShortest s t v →
  heuristic s v = (heuristic s u + 1)%Z ∨ heuristic s v = (heuristic s u - 1)%Z.
Proof. intros Hu Hv Hv'. lattice. Qed.

Lemma neighbor_off (s t u v : Cell) :
  onShortest s t u → v ∈ neighbors u → ¬ onShortest s t v →
  heuristic v t = (heuristic u t + 1)%Z.
Proof. intros Hu Hv Hv'. lattice. Qed.

Lemma successor_exists (s t u : Cell) :
  onShortest s t u → u ≠ t →
  ∃ v, v ∈ neighbors u ∧ onShortest s t v
       ∧ heuristic s v = (heuristic s u + 1)%Z.
Proof.
  intros Hu Hne. destruct s as [sx sy], t as [tx ty], u as [ux uy].
  destruct (Z.lt_trichotomy ux tx) as [H|[H|H]].
  - exists (ux + 1, uy)%Z. rewrite elem_of_neighbors. simpl.
    split; [tauto|]. unfold onShortest, heuristic in *. simpl in *. lia.
  - destruct (Z.lt_trichotomy uy ty) as [H'|[H'|H']].
    + exists (ux, uy + 1)%Z. rewrite elem_of_neighbors. simpl.
      split; [tauto|]. unfold onShortest, heuristic in *. simpl in *. lia.
    + subst. done.
    + exists (ux, uy - 1)%Z. rewrite elem_of_neighbors. simpl.
      split; [tauto|]. unfold onShortest, heuristic in *. simpl in *. lia.
  - exists (ux - 1, uy)%Z. rewrite elem_of_neighbors. simpl.
    split; [tauto|]. unfold onShortest, heuristic in *. simpl in *. lia.
Qed.

Lemma predecessor_exists (s t v : Cell) :
  onShortest s t v → v ≠ s →
  ∃ p, v ∈ neighbors p ∧ onShortest s t p
       ∧ (heuristic s p + 1 = heuristic s v)%Z.
Proof.
  intros Hv Hne. destruct s as [sx sy], t as [tx ty], v as [vx vy].
  destruct (Z.lt_trichotomy vx sx) as [H|[H|H]].
  - exists (vx + 1, vy)%Z. rewrite elem_of_neighbors. simpl.
    split; [left; f_equal; lia|]. unfold onShortest, heuristic in *. simpl in *. lia.
  - destruct (Z.lt_trichotomy vy sy) as [H'|[H'|H']].
    + exists (vx, vy + 1)%Z. rewrite elem_of_neighbors. simpl.
      split; [right; right; left; f_equal; lia|].
      unfold onShortest, heuristic in *. simpl in *. lia.
    + subst. done.
    + exists (vx, vy - 1)%Z. rewrite elem_of_neighbors. simpl.
      split; [right; right; right; f_equal; lia|].
      unfold onShortest, heuristic in *. simpl in *. lia.
  - exists (vx - 1, vy)%Z. rewrite elem_of_neighbors. simpl.
    split; [right; left; f_equal; lia|].
    unfold onShortest, heuristic in *. simpl in *. lia.
Qed.

(** ** The stable sort *)

Lemma insertByF_filter (c : Z) (n : GridNode) (l : list GridNode) :
  filter (λ m, fScore m = c) (insertByF n l)
  = filter (λ m, fScore m = c) (n :: l).
Proof.
  induction l as [|m l IH]; [done|].
  cbn [insertByF]. destruct (fScore n <=? fScore m)%Z eqn:E; [done|].
  apply Z.leb_gt in E.
  rewrite filter_cons, IH, !filter_cons.
  destruct (decide (fScore m = c)), (decide (fScore n = c)); try done. lia.
Qed.

Lemma sortByF_filter (c : Z) (l : list GridNode) :
  filter (λ m, fScore m = c) (sortByF l) = filter (λ m, fScore m = c) l.
Proof.
  induction l as [|n l IH]; [done|].
  cbn [sortByF foldr]. fold (sortByF l).
  rewrite insertByF_filter, !filter_cons, IH. done.
Qed.

Lemma insertByF_head (n : GridNode) (l : list GridNode) (b : Z) :
  (b ≤ fScore n)%Z → Forall (λ m, (b ≤ fScore m)%Z) l →
  Forall (λ m, (b ≤ fScore m)%Z) (insertByF n l).
Proof.
  intros Hn Hl. rewrite Forall_forall in *. intros m Hm.
  rewrite insertByF_perm in Hm. apply elem_of_cons in Hm as [->|Hm]; auto.
Qed.

Lemma insertByF_sorted (n : GridNode) (l : list GridNode) :
  StronglySorted (λ a b, (fScore a ≤ fScore b)%Z) l →
  StronglySorted (λ a b, (fScore a ≤ fScore b)%Z) (insertByF n l).
Proof.
  induction 1 as [|m l Hs IH Hm]; cbn [insertByF].
  - repeat constructor.
  - destruct (fScore n <=? fScore m)%Z eqn:E.
    + apply Z.leb_le in E. constructor; [by constructor|].
      constructor; [done|]. eapply Forall_impl; [exact Hm|].
      simpl. intros. lia.
    + apply Z.leb_gt in E. constructor; [done|].
      apply insertByF_head; [lia|done].
Qed.

Lemma sortByF_sorted (l : list GridNode) :
  StronglySorted (λ a b, (fScore a ≤ fScore b)%Z) (sortByF l).
Proof.
  induction l as [|n l IH]; [constructor|].
  cbn [sortByF foldr]. by apply insertByF_sorted.
Qed.

Lemma sortByF_head_min (l : list GridNode) (current : GridNode) rest :
  sortByF l = current :: rest →
  ∀ n, n ∈ l → (fScore current ≤ fScore n)%Z.
Proof.
  intros Hs n Hn. pose proof (sortByF_sorted l) as Hsorted.
  rewrite Hs in Hsorted. apply StronglySorted_inv in Hsorted as [_ Hall].
  rewrite <- (sortByF_perm l), Hs in Hn.
  apply elem_of_cons in Hn as [->|Hn]; [lia|].
  rewrite Forall_forall in Hall. by apply Hall.
Qed.

(** ** One relaxation *)

Lemma openGrid_get (grid : Grid) (c : Cell) :
  openGrid grid → inGrid grid c →
  gridGet grid (Z.to_nat c.1) (Z.to_nat c.2) = true.
Proof.
  intros Hopen [Hx Hy]. unfold gridGet.
  destruct (lookup_lt_is_Some_2 grid (Z.to_nat c.2)) as [row Hrow]; [lia|].
  rewrite Hrow. simpl.
  unfold openGrid in Hopen. rewrite Forall_lookup in Hopen.
  rewrite (Hopen _ _ Hrow).
  rewrite lookup_replicate_2 by lia. done.
Qed.

Lemma skipped_inGrid (grid : Grid) (closed : gset Cell) (v : Cell) :
  openGrid grid → inGrid grid v →
  skipped grid closed v = bool_decide (v ∈ closed).
Proof.
  intros Hopen Hin. unfold skipped.
  rewrite (openGrid_get grid v Hopen Hin).
  destruct Hin as [Hx Hy].
  replace (v.1 <? 0)%Z with false by lia.
  replace (v.2 <? 0)%Z with false by lia.
  replace (Z.of_nat (length grid) <=? v.2)%Z with false by lia.
  replace (Z.of_nat (gridWidth grid) <=? v.1)%Z with false by lia.
  simpl. by rewrite !orb_false_r.
Qed.

Lemma frontier_push (s t : Cell) (n : GridNode) (l : list GridNode)
    (cl : gset Cell) g p :
  frontier s t {| openSet := l ++ [n]; closedSet := cl; gScores := g; parents := p |}
  = frontier s t {| openSet := l; closedSet := cl; gScores := g; parents := p |}
    ++ (if decide (fScore n = heuristic s t) then [point n] else []).
Proof.
  unfold frontier. simpl. rewrite filter_app, fmap_app. f_equal.
  rewrite filter_cons, filter_nil. by case_decide.
Qed.

Lemma existsb_point_true (l : list GridNode) (v : Cell) :
  existsb (λ node, bool_decide (point node = v)) l = true →
  ∃ n, n ∈ l ∧ point n = v.
Proof.
  intros H. apply existsb_exists in H as (n & Hn & Hv).
  apply bool_decide_eq_true in Hv. exists n. split; [|done].
  by apply list_elem_of_In.
Qed.

Section OpenGridSearch.
Variable grid : Grid.
Variables s t : Cell.
Hypothesis Hopen : openGrid grid.
Hypothesis Hs : inGrid grid s.
Hypothesis Ht : inGrid grid t.

Lemma frontier_layers k st c :
  LayerInv s t k st → c ∈ frontier s t st →
  heuristic s c = k ∨ heuristic s c = (k + 1)%Z.
Proof.
  intros HL Hc. destruct (li_layers _ _ _ _ HL) as (A & B & E & HA & HB).
  rewrite E in Hc. rewrite Forall_forall in HA, HB.
  apply elem_of_app in Hc as [Hc|Hc]; [left; by apply HA | right; by apply HB].
Qed.

Lemma frontier_open st c :
  c ∈ frontier s t st →
  ∃ n, n ∈ openSet st ∧ point n = c ∧ fScore n = heuristic s t.
Proof.
  unfold frontier. intros Hc.
  apply list_elem_of_fmap in Hc as (n & -> & Hn).
  apply list_elem_of_filter in Hn as [Hf Hn]. eauto.
Qed.

Lemma open_frontier st n :
  n ∈ openSet st → fScore n = heuristic s t → point n ∈ frontier s t st.
Proof.
  intros Hn Hf. unfold frontier. apply list_elem_of_fmap_2.
  by apply list_elem_of_filter.
Qed.

(** A cell of the rectangle that is in the open set is in the frontier. *)
Lemma open_on_frontier k st n :
  LayerInv s t k st → n ∈ openSet st → onShortest s t (point n) →
  point n ∈ frontier s t st.
Proof.
  intros HL Hn Hon.
  destruct (li_open _ _ _ _ HL n Hn) as [(Hf & _)|(_ & Hoff)]; [|done].
  by apply open_frontier.
Qed.

(** A cell of the rectangle off the closed set and the frontier is
    discovered by pushing a node for it. *)
Lemma layer_push_on k st u v :
  LayerInv s t k st →
  u ∈ closedSet st → onShortest s t u → heuristic s u = k →
  onShortest s t v → heuristic s v = (k + 1)%Z → ¬ discovered s t st v →
  LayerInv s t k
    {| openSet := openSet st
                  ++ [ {| point := v; gScore := k + 1;
                          fScore := k + 1 + heuristic v t; parent := Some u |} ];
       closedSet := closedSet st;
       gScores := <[v := (k + 1)%Z]> (gScores st);
       parents := <[v := Some u]> (parents st) |}.
Proof using Type.
  intros HL Hucl Huon Huk Hvon Hvk Hnd.
  assert (Hf : (k + 1 + heuristic v t)%Z = heuristic s t).
  { unfold onShortest in Hvon. lia. }
  assert (Hfr : ∀ c, c ∈ frontier s t
                  {| openSet := openSet st
                       ++ [ {| point := v; gScore := k + 1;
                               fScore := k + 1 + heuristic v t; parent := Some u |} ];
                     closedSet := closedSet st;
                     gScores := <[v := (k + 1)%Z]> (gScores st);
                     parents := <[v := Some u]> (parents st) |}
                ↔ c ∈ frontier s t st ∨ c = v).
  { intros c. rewrite frontier_push. simpl. rewrite decide_True by done.
    rewrite elem_of_app, list_elem_of_singleton. done. }
  assert (Hdisc : ∀ c, discovered s t
                  {| openSet := openSet st
                       ++ [ {| point := v; gScore := k + 1;
                               fScore := k + 1 + heuristic v t; parent := Some u |} ];
                     closedSet := closedSet st;
                     gScores := <[v := (k + 1)%Z]> (gScores st);
                     parents := <[v := Some u]> (parents st) |} c
                ↔ discovered s t st c ∨ c = v).
  { intros c. unfold discovered at 1. rewrite Hfr. unfold discovered. simpl. tauto. }
  constructor.
  - simpl. intros n Hn. apply elem_of_app in Hn as [Hn|Hn].
    + by apply (li_open _ _ _ _ HL).
    + apply list_elem_of_singleton in Hn as ->. simpl. left. done.
  - destruct (li_layers _ _ _ _ HL) as (A & B & E & HA & HB).
    exists A, (B ++ [v]). split; [|split; [done|]].
    + rewrite frontier_push. simpl. rewrite decide_True by done.
      change (frontier s t {| openSet := openSet st; closedSet := closedSet st;
                              gScores := <[v := (k + 1)%Z]> (gScores st);
                              parents := <[v := Some u]> (parents st) |})
        with (frontier s t st).
      rewrite E. by rewrite app_assoc.
    + apply Forall_app. split; [done|]. by constructor.
  - simpl. apply (li_closed _ _ _ _ HL).
  - intros c Hc Hck. apply Hdisc. left. by apply (li_below _ _ _ _ HL).
  - intros c Hc Hd. simpl. apply Hdisc in Hd as [Hd| ->].
    + rewrite lookup_insert_ne by (intros ->; done).
      by apply (li_g _ _ _ _ HL).
    + rewrite lookup_insert_eq. by rewrite Hvk.
  - intros c Hc Hsome. simpl in Hsome. apply Hdisc.
    destruct (decide (v = c)) as [->|Hne]; [by right|].
    rewrite lookup_insert_ne in Hsome by done. left.
    by apply (li_g_conv _ _ _ _ HL).
  - intros c Hc Hd. simpl. apply Hdisc in Hd as [Hd| ->].
    + rewrite lookup_insert_ne by (intros ->; done).
      by apply (li_parent _ _ _ _ HL).
    + right. exists u. rewrite lookup_insert_eq.
      repeat split; try done. lia.
Qed.

(** Recording a cell outside the rectangle changes nothing for the cells
    of the rectangle. *)
Lemma layer_update_off k st v (open' : list GridNode) (g : Z) (p : option Cell) :
  LayerInv s t k st → ¬ onShortest s t v →
  (open' = openSet st
   ∨ ∃ n, open' = openSet st ++ [n] ∧ point n = v
          ∧ (heuristic s t < fScore n)%Z) →
  LayerInv s t k {| openSet := open'; closedSet := closedSet st;
                    gScores := <[v := g]> (gScores st);
                    parents := <[v := p]> (parents st) |}
  ∧ frontier s t {| openSet := open'; closedSet := closedSet st;
                    gScores := <[v := g]> (gScores st);
                    parents := <[v := p]> (parents st) |}
    = frontier s t st.
Proof using Type.
  intros HL Hoff Hopen'.
  assert (Hfr : frontier s t {| openSet := open'; closedSet := closedSet st;
                                gScores := <[v := g]> (gScores st);
                                parents := <[v := p]> (parents st) |}
                = frontier s t st).
  { destruct Hopen' as [->|(n & -> & Hn & Hf)]; [done|].
    rewrite frontier_push. simpl. rewrite decide_False by lia.
    by rewrite app_nil_r. }
  split; [|done].
  assert (Hdisc : ∀ c, discovered s t
                         {| openSet := open'; closedSet := closedSet st;
                            gScores := <[v := g]> (gScores st);
                            parents := <[v := p]> (parents st) |} c
                       ↔ discovered s t st c).
  { intros c. unfold discovered. rewrite Hfr. done. }
  constructor.
  - simpl. intros n Hn.
    destruct Hopen' as [->|(n0 & -> & Hn0 & Hf)].
    + by apply (li_open _ _ _ _ HL).
    + apply elem_of_app in Hn as [Hn|Hn].
      * by apply (li_open _ _ _ _ HL).
      * apply list_elem_of_singleton in Hn as ->. right. by rewrite Hn0.
  - rewrite Hfr. apply (li_layers _ _ _ _ HL).
  - simpl. apply (li_closed _ _ _ _ HL).
  - intros c Hc Hck. apply Hdisc. by apply (li_below _ _ _ _ HL).
  - intros c Hc Hd. simpl. apply Hdisc in Hd.
    rewrite lookup_insert_ne by (intros ->; done).
    by apply (li_g _ _ _ _ HL).
  - intros c Hc Hsome. simpl in Hsome. apply Hdisc.
    rewrite lookup_insert_ne in Hsome by (intros ->; done).
    by apply (li_g_conv _ _ _ _ HL).
  - intros c Hc Hd. simpl. apply Hdisc in Hd.
    rewrite lookup_insert_ne by (intros ->; done).
    by apply (li_parent _ _ _ _ HL).
Qed.
End OpenGridSearch.

Section OpenGridLoop.
Variable grid : Grid.
Variables s t : Cell.
Hypothesis Hopen : openGrid grid.
Hypothesis Hs : inGrid grid s.
Hypothesis Ht : inGrid grid t.

(** Processing one neighbor [v] of the node being expanded. *)
Lemma relax_layer (u : Cell) (k : Z) (cf : Z) (cp : option Cell)
    (st : SearchState) (v : Cell) :
  ExpandInv s t u k st → v ∈ neighbors u →
  let current := {| point := u; gScore := k; fScore := cf; parent := cp |} in
  ExpandInv s t u k (relax grid t current st v)
  ∧ (∀ x, discovered s t st x → discovered s t (relax grid t current st v) x)
  ∧ (onShortest s t v → heuristic s v = (k + 1)%Z →
     discovered s t (relax grid t current st v) v).
Proof using Hopen Hs Ht.
  intros HE Hv current. pose proof HE as (HL & Hucl & Huk & Huon & Hsucc).
  unfold relax, current. simpl.
  destruct (skipped grid (closedSet st) v) eqn:Hsk.
  { split; [done|]. split; [done|]. intros Hon Hk.
    rewrite skipped_inGrid in Hsk;
      [|done|exact (onShortest_inGrid grid s t v Hs Ht Hon)].
    apply bool_decide_eq_true in Hsk. by left. }
  apply skipped_false in Hsk as (Hncl & Hin & _).
  destruct (decide (onShortest s t v)) as [Hon|Hoff].
  - destruct (neighbor_on s t u v Huon Hv Hon) as [Hk1|Hk1].
    2:{ exfalso.
        assert (Hd : discovered s t st v)
          by (apply (li_below _ _ _ _ HL); [done|lia]).
        destruct Hd as [Hd|Hd]; [done|].
        destruct (frontier_layers s t k st v HL Hd); lia. }
    destruct (gScores st !! v) as [g|] eqn:Hgv.
    + assert (Hd : discovered s t st v)
        by (apply (li_g_conv _ _ _ _ HL); [done|by rewrite Hgv]).
      pose proof (li_g _ _ _ _ HL v Hon Hd) as Hg'.
      rewrite Hgv in Hg'. injection Hg' as ->.
      replace (k + 1 <? heuristic s v)%Z with false by lia.
      split; [done|]. split; [done|]. done.
    + assert (Hnd : ¬ discovered s t st v).
      { intros Hd. rewrite (li_g _ _ _ _ HL v Hon Hd) in Hgv. done. }
      assert (Hex : existsb (λ node, bool_decide (point node = v)) (openSet st)
                    = false).
      { destruct (existsb _ (openSet st)) eqn:E; [|done].
        apply existsb_point_true in E as (n & Hn & Hnv).
        destruct Hnd. right. rewrite <- Hnv.
        eapply open_on_frontier; [done..| by rewrite Hnv]. }
      rewrite Hex.
      assert (Hvk : heuristic s v = (k + 1)%Z) by lia.
      pose proof (layer_push_on s t k st u v HL Hucl Huon Huk Hon Hvk Hnd) as HL'.
      assert (Hmono : ∀ x, discovered s t st x →
                discovered s t
                  {| openSet := openSet st
                       ++ [ {| point := v; gScore := k + 1;
                               fScore := k + 1 + heuristic v t; parent := Some u |} ];
                     closedSet := closedSet st;
                     gScores := <[v := (k + 1)%Z]> (gScores st);
                     parents := <[v := Some u]> (parents st) |} x).
      { intros x [Hx|Hx]; [by left|]. right.
        rewrite frontier_push. apply elem_of_app. by left. }
      split; [|split; [done|]].
      * split; [done|]. simpl. do 3 (split; [done|]).
        intros c Hc Hne w Hw Hwon Hwk. apply Hmono. by apply (Hsucc c).
      * intros _ _. right. rewrite frontier_push. apply elem_of_app. right.
        simpl. rewrite decide_True; [by apply list_elem_of_singleton|].
        unfold onShortest in Hon. lia.
  - pose proof (neighbor_off s t u v Huon Hv Hoff) as Hh.
    destruct (match gScores st !! v with
              | Some g => (k + 1 <? g)%Z | None => true end) eqn:Hc.
    2:{ split; [done|]. split; [done|]. done. }
    set (open' := if existsb (λ node, bool_decide (point node = v)) (openSet st)
                  then openSet st
                  else openSet st
                       ++ [ {| point := v; gScore := k + 1;
                               fScore := k + 1 + heuristic v t; parent := Some u |} ]).
    assert (Hopen' : open' = openSet st
                     ∨ ∃ n, open' = openSet st ++ [n] ∧ point n = v
                            ∧ (heuristic s t < fScore n)%Z).
    { unfold open'. destruct (existsb _ (openSet st)); [by left|].
      right. eexists. split; [done|]. split; [done|]. simpl.
      unfold onShortest in Huon. lia. }
    destruct (layer_update_off s t k st v open' (k + 1)%Z (Some u) HL Hoff Hopen')
      as [HL' Hfr].
    assert (Hdisc : ∀ x, discovered s t st x ↔
                discovered s t
                  {| openSet := open'; closedSet := closedSet st;
                     gScores := <[v := (k + 1)%Z]> (gScores st);
                     parents := <[v := Some u]> (parents st) |} x).
    { intros x. unfold discovered. rewrite Hfr. done. }
    split; [|split].
    + split; [done|]. simpl. do 3 (split; [done|]).
      intros c Hc' Hne w Hw Hwon Hwk. apply Hdisc. by apply (Hsucc c).
    + intros x. apply Hdisc.
    + intros Hon. done.
Qed.

Lemma foldl_relax_layer (u : Cell) (k : Z) (cf : Z) (cp : option Cell)
    (l : list Cell) :
  (∀ v, v ∈ l → v ∈ neighbors u) →
  ∀ st, ExpandInv s t u k st →
  let current := {| point := u; gScore := k; fScore := cf; parent := cp |} in
  ExpandInv s t u k (foldl (relax grid t current) st l)
  ∧ (∀ x, discovered s t st x →
          discovered s t (foldl (relax grid t current) st l) x)
  ∧ (∀ v, v ∈ l → onShortest s t v → heuristic s v = (k + 1)%Z →
          discovered s t (foldl (relax grid t current) st l) v).
Proof using Hopen Hs Ht.
  induction l as [|v l IH]; intros Hl st HE current.
  - split; [done|]. split; [done|]. intros v Hv. by apply elem_of_nil in Hv.
  - cbn [foldl].
    destruct (relax_layer u k cf cp st v HE) as (HE1 & Hm1 & Hv1);
      [apply Hl; left|].
    destruct (IH (λ w Hw, Hl w (list_elem_of_further _ _ _ Hw))
                (relax grid t current st v) HE1) as (HE2 & Hm2 & Hv2).
    split; [done|]. split; [by intros x Hx; apply Hm2, Hm1|].
    intros w Hw Hon Hk. apply elem_of_cons in Hw as [->|Hw].
    + by apply Hm2, Hv1.
    + by apply Hv2.
Qed.
End OpenGridLoop.

(** ** The loop *)

Section OpenGridMain.
Variable grid : Grid.
Variables s t : Cell.
Hypothesis Hopen : openGrid grid.
Hypothesis Hs : inGrid grid s.
Hypothesis Ht : inGrid grid t.

(** The node taken from the sorted open set is the head of the frontier. *)
Lemma open_head st current rest :
  OpenInv s t st → sortByF (openSet st) = current :: rest →
  LayerInv s t (gScore current) st
  ∧ (∀ c, c ∈ closedSet st → succDone s t st c)
  ∧ onShortest s t (point current)
  ∧ heuristic s (point current) = gScore current
  ∧ frontier s t st
    = point current :: (point <$> filter (λ n, fScore n = heuristic s t) rest)
  ∧ (∃ A B, point <$> filter (λ n, fScore n = heuristic s t) rest = A ++ B
            ∧ Forall (λ c, heuristic s c = gScore current) A
            ∧ Forall (λ c, heuristic s c = (gScore current + 1)%Z) B)
  ∧ (∀ n, n ∈ rest → n ∈ openSet st).
Proof using Type.
  intros (k & HL & Hsd & q & Hq & Hqk) Hsort.
  assert (Hperm : current :: rest ≡ₚ openSet st)
    by (rewrite <- Hsort; apply sortByF_perm).
  assert (Hcur : current ∈ openSet st)
    by (rewrite <- Hperm; apply list_elem_of_here).
  destruct (frontier_open s t st q Hq) as (n0 & Hn0 & Hn0p & Hn0f).
  pose proof (sortByF_head_min _ _ _ Hsort n0 Hn0) as Hmin.
  destruct (li_open _ _ _ _ HL current Hcur) as [(Hf & Hon & Hg)|(Hlt & _)];
    [|lia].
  assert (Hfr : frontier s t st
                = point current
                  :: (point <$> filter (λ n, fScore n = heuristic s t) rest)).
  { unfold frontier. rewrite <- (sortByF_filter _ (openSet st)), Hsort.
    rewrite filter_cons, decide_True by done. done. }
  destruct (li_layers _ _ _ _ HL) as (A & B & E & HA & HB).
  destruct A as [|a A'].
  { exfalso. simpl in E. rewrite E in Hq. rewrite Forall_forall in HB.
    specialize (HB q Hq). lia. }
  rewrite Hfr in E. simpl in E. injection E as Ea Etail.
  apply Forall_cons in HA as [Hak HA']. subst a.
  assert (Hk : gScore current = k) by lia. rewrite Hk.
  split; [done|]. split; [done|]. split; [done|]. split; [done|].
  split; [done|]. split; [by exists A', B|].
  intros n Hn. rewrite <- Hperm. by apply list_elem_of_further.
Qed.

Lemma open_nonempty st : OpenInv s t st → sortByF (openSet st) ≠ [].
Proof using Type.
  intros (k & HL & _ & q & Hq & _) Hsort.
  destruct (frontier_open s t st q Hq) as (n0 & Hn0 & _).
  rewrite <- (sortByF_perm (openSet st)), Hsort in Hn0.
  by apply elem_of_nil in Hn0.
Qed.

(** Closing the head of the frontier. *)
Lemma expand_start st current rest :
  OpenInv s t st → sortByF (openSet st) = current :: rest →
  point current ≠ t →
  ExpandInv s t (point current) (gScore current)
    {| openSet := rest; closedSet := closedSet st ∪ {[point current]};
       gScores := gScores st; parents := parents st |}.
Proof using Type.
  clear Hopen Hs Ht. intros HJ Hsort Hne.
  destruct (open_head st current rest HJ Hsort)
    as (HL & Hsd & Hon & Hk & Hfr & (A & B & E & HA & HB) & Hrest).
  set (u := point current) in *. set (k := gScore current) in *.
  set (st1 := {| openSet := rest; closedSet := closedSet st ∪ {[u]};
                 gScores := gScores st; parents := parents st |}).
  assert (Hfr1 : frontier s t st1
                 = point <$> filter (λ n, fScore n = heuristic s t) rest) by done.
  assert (Hdisc : ∀ x, discovered s t st x ↔ discovered s t st1 x).
  { intros x. unfold discovered. rewrite Hfr, Hfr1. simpl.
    rewrite elem_of_union, elem_of_singleton, elem_of_cons. tauto. }
  split; [constructor|].
  - simpl. intros n Hn. by apply (li_open _ _ _ _ HL), Hrest.
  - exists A, B. by rewrite Hfr1.
  - simpl. intros c Hc. apply elem_of_union in Hc as [Hc|Hc].
    + by apply (li_closed _ _ _ _ HL).
    + apply elem_of_singleton in Hc as ->. split; [done|]. split; [done|]. lia.
  - intros v Hv Hvk. apply Hdisc. by apply (li_below _ _ _ _ HL).
  - intros v Hv Hd. apply Hdisc in Hd. by apply (li_g _ _ _ _ HL).
  - intros v Hv Hsome. apply Hdisc. by apply (li_g_conv _ _ _ _ HL).
  - intros v Hv Hd. apply Hdisc in Hd.
    destruct (li_parent _ _ _ _ HL v Hv Hd) as [?|(p & ? & ? & ? & ?)]; [by left|].
    right. exists p. simpl. repeat split; try done.
    apply elem_of_union. by left.
  - simpl. split; [set_solver|]. split; [done|]. split; [done|].
    intros c Hc Hcu w Hw Hwon Hwk. apply Hdisc.
    apply (Hsd c); [set_solver|done..].
Qed.

(** After all four neighbors have been processed. *)
Lemma expand_finish u k sf :
  ExpandInv s t u k sf → u ≠ t →
  (∀ v, v ∈ neighbors u → onShortest s t v → heuristic s v = (k + 1)%Z →
        discovered s t sf v) →
  OpenInv s t sf.
Proof using Type.
  intros (HL & Hucl & Huk & Huon & Hsucc) Hne Hall.
  destruct (successor_exists s t u Huon Hne) as (v & Hv & Hvon & Hvk).
  assert (Hvf : v ∈ frontier s t sf).
  { destruct (Hall v Hv Hvon) as [Hc|Hf]; [lia| |done].
    destruct (li_closed _ _ _ _ HL v Hc) as (_ & _ & ?). lia. }
  assert (Hsd : ∀ c, c ∈ closedSet sf → succDone s t sf c).
  { intros c Hc. destruct (decide (c = u)) as [->|Hcu]; [|by apply Hsucc].
    intros w Hw Hwon Hwk. apply Hall; [done..|lia]. }
  destruct (li_layers _ _ _ _ HL) as (A & B & E & HA & HB).
  destruct A as [|a A'].
  - simpl in E. exists (k + 1)%Z. split; [constructor|split; [done|]].
    + apply (li_open _ _ _ _ HL).
    + exists B, []. rewrite E, app_nil_r. split; [done|]. split; [done|].
      constructor.
    + intros c Hc. destruct (li_closed _ _ _ _ HL c Hc) as (? & ? & ?).
      split; [done|]. split; [done|]. lia.
    + intros w Hwon Hwk.
      destruct (decide (heuristic s w ≤ k)%Z) as [Hle|Hgt];
        [by apply (li_below _ _ _ _ HL)|].
      assert (Hws : w ≠ s).
      { intros ->. rewrite heuristic_self in Hgt.
        pose proof (heuristic_nonneg s u). lia. }
      destruct (predecessor_exists s t w Hwon Hws) as (p & Hwp & Hpon & Hpk).
      assert (Hpd : discovered s t sf p)
        by (apply (li_below _ _ _ _ HL); [done|lia]).
      destruct Hpd as [Hpc|Hpf].
      * apply (Hsd p Hpc w); [done..|lia].
      * rewrite E in Hpf. rewrite Forall_forall in HB.
        specialize (HB p Hpf). lia.
    + apply (li_g _ _ _ _ HL).
    + apply (li_g_conv _ _ _ _ HL).
    + apply (li_parent _ _ _ _ HL).
    + exists v. split; [done|lia].
  - exists k. split; [done|]. split; [done|].
    exists a. split; [rewrite E; left|]. by apply Forall_cons in HA as [? _].
Qed.

(** Following the parents from a discovered cell of the rectangle. *)
Lemma reconstruct_layer k st gridSize :
  LayerInv s t k st →
  ∀ (n : nat) fuel v path,
    onShortest s t v → discovered s t st v →
    heuristic s v = Z.of_nat n → n < fuel →
    ∃ pre, reconstructLoop fuel (parents st) v gridSize path = Ok (pre ++ path)
           ∧ length pre = S n.
Proof using Type.
  intros HL. induction n as [|n IH]; intros fuel v path Hon Hd Hk Hf;
    (destruct fuel as [|fuel]; [lia|]); cbn [reconstructLoop];
    destruct (li_parent _ _ _ _ HL v Hon Hd)
      as [[-> Hp]|(p & Hp & Hpon & Hpk & Hpcl)]; rewrite Hp.
  - by exists [toCanvas gridSize s].
  - pose proof (heuristic_nonneg s p). lia.
  - rewrite heuristic_self in Hk. lia.
  - destruct (IH fuel p (toCanvas gridSize v :: path)) as (pre & Hpre & Hlen);
      [done|by left|lia|lia|].
    exists (pre ++ [toCanvas gridSize v]). rewrite <- app_assoc. split; [done|].
    rewrite length_app. simpl. lia.
Qed.

Lemma searchLoop_open gridSize :
  ∀ fuel st, OpenInv s t st →
    searchLoop fuel grid t gridSize st = OutOfFuel
    ∨ ∃ path, searchLoop fuel grid t gridSize st = Ok path
              ∧ stepCount path = heuristic s t.
Proof using Hopen Hs Ht.
  induction fuel as [|fuel IH]; intros st HJ; [by left|].
  rewrite searchLoop_S.
  destruct (sortByF (openSet st)) as [|current rest] eqn:Hsort.
  { by destruct (open_nonempty st HJ). }
  case_bool_decide as Hgoal.
  - right. destruct (open_head st current rest HJ Hsort)
      as (HL & _ & Hon & Hk & Hfr & _).
    pose proof (heuristic_nonneg s (point current)) as Hnn.
    destruct (reconstruct_layer (gScore current) st gridSize HL
                (Z.to_nat (gScore current)) (S (Z.to_nat (gScore current)))
                (point current) []) as (pre & Hpre & Hlen);
      [done| |lia|lia|].
    { right. rewrite Hfr. left. }
    exists pre. unfold reconstructPath. rewrite Hpre, app_nil_r. split; [done|].
    unfold stepCount. rewrite Hlen, <- Hgoal. lia.
  - apply IH.
    pose proof (expand_start st current rest HJ Hsort Hgoal) as HE.
    destruct current as [u k cf cp]. simpl in *.
    destruct (foldl_relax_layer grid s t Hopen Hs Ht u k cf cp (neighbors u)
                (λ v Hv, Hv) _ HE) as (HE' & _ & Hall).
    by apply (expand_finish u k).
Qed.

Lemma initialState_open : OpenInv s t (initialState s t).
Proof using Type.
  assert (Hfr : frontier s t (initialState s t) = [s]).
  { unfold frontier, initialState. simpl.
    rewrite filter_cons, decide_True by done. done. }
  assert (Hd : ∀ v, discovered s t (initialState s t) v ↔ v = s).
  { intros v. unfold discovered. rewrite Hfr. simpl.
    rewrite elem_of_empty, list_elem_of_singleton. tauto. }
  exists 0%Z. split; [constructor|split].
  - simpl. intros n Hn. apply list_elem_of_singleton in Hn as ->. simpl.
    left. split; [done|]. split; [apply onShortest_start|].
    by rewrite heuristic_self.
  - exists [s], []. rewrite Hfr. split; [done|]. split; [|constructor].
    constructor; [apply heuristic_self|constructor].
  - simpl. intros c Hc. by apply elem_of_empty in Hc.
  - intros v Hv Hk. apply Hd. apply heuristic_zero.
    pose proof (heuristic_nonneg s v). lia.
  - intros v Hv Hv'. apply Hd in Hv' as ->. simpl.
    by rewrite lookup_singleton_eq, heuristic_self.
  - intros v Hv Hsome. apply Hd. simpl in Hsome.
    destruct Hsome as [g Hg]. by apply lookup_singleton_Some in Hg as [? _].
  - intros v Hv Hv'. apply Hd in Hv' as ->. left. split; [done|].
    simpl. by rewrite lookup_singleton_eq.
  - simpl. intros c Hc. by apply elem_of_empty in Hc.
  - exists s. rewrite Hfr. split; [left|apply heuristic_self].
Qed.
End OpenGridMain.

(** X30: on a grid whose cells are all passable, when the cells of [start]
    and [end] both index the grid, [findPathAStar] returns a path whose
    number of steps is the Manhattan distance between the two cells. *)
Theorem findPathAStar_open_grid
    (grid : Grid) (start end_ : Point) (gridSize : Q) :
  openGrid grid →
  inGrid grid (toCell gridSize start) →
  inGrid grid (toCell gridSize end_) →
  ∃ path, findPathAStar grid start end_ gridSize = Ok path
          ∧ stepCount path
            = heuristic (toCell gridSize start) (toCell gridSize end_).
Proof.
  intros Hopen Hs Ht.
  destruct (findPathAStar_total grid start end_ gridSize) as [path Hpath].
  exists path. split; [done|].
  unfold findPathAStar in Hpath.
  destruct (searchLoop_open grid _ _ Hopen Hs Ht gridSize (searchFuel grid) _
              (initialState_open _ _)) as [Hout|(path' & Hp & Hsteps)].
  - congruence.
  - congruence.
Qed.

Lemma findPathAStar_open_grid_witness :
  let grid := replicate 10 (replicate 20 true) in
  ∃ path, findPathAStar grid (mkPoint 0 0) (mkPoint 100 50) 10 = Ok path
          ∧ stepCount path
            = heuristic (toCell 10 (mkPoint 0 0)) (toCell 10 (mkPoint 100 50)).
Proof.
  intros grid.
  apply (findPathAStar_open_grid grid (mkPoint 0 0) (mkPoint 100 50) 10).
  - unfold grid. repeat constructor.
  - vm_compute. repeat split; congruence.
  - vm_compute. repeat split; congruence.
Defined.

(** C5 (step count equal to the Manhattan distance on an open grid) fails:
    for a wire from (300,0) to (400,0), no obstacles, no other wires and
    cell size 10 the grid built by [createObstacleGrid] is the open 20x10
    grid of the window (250,-50)-(450,50), but the search starts at the
    cell (30,0), counted from the canvas origin, which is not a cell of that
    grid; it finds no path, although the Manhattan distance between the two
    cells is 10, and the router returns the fallback
    [(300,0); (400,0); (400,0)]. *)
Theorem findPathAStar_open_grid_no_path :
  let start := mkPoint 300 0 in
  let end_ := mkPoint 400 0 in
  createObstacleGrid [] [] 10 start end_ = Ok (replicate 10 (replicate 20 true))
  ∧ findPathAStar (replicate 10 (replicate 20 true)) start end_ 10 = Ok []
  ∧ heuristic (toCell 10 start) (toCell 10 end_) = 10%Z
  ∧ stepCount [] ≠ heuristic (toCell 10 start) (toCell 10 end_)
  ∧ (calculatePath (wireHeap start end_ []) 0 [] [] 10).2
    = Ok [start; mkPoint 400 0; end_].
Proof.
  split; [vm_compute; reflexivity|]. split; [vm_compute; reflexivity|].
  split; [vm_compute; reflexivity|]. split; [vm_compute; discriminate|].
  vm_compute. reflexivity.
Qed.

(** * The search on any grid *)

(** ** The path found is a chain of passable cells *)

Lemma skipped_passable (grid : Grid) (closed : gset Cell) (v : Cell) :
  skipped grid closed v = false → (v ∉ closed) ∧ passable grid v.
Proof.
  intros H. apply skipped_false in H as (? & ? & ?). split; [done|]. by split.
Qed.

Lemma passable_skipped (grid : Grid) (closed : gset Cell) (v : Cell) :
  passable grid v → skipped grid closed v = true → v ∈ closed.
Proof.
  intros [[Hx Hy] Hg] H. unfold skipped in H. rewrite Hg in H.
  replace (v.1 <? 0)%Z with false in H by lia.
  replace (v.2 <? 0)%Z with false in H by lia.
  replace (Z.of_nat (length grid) <=? v.2)%Z with false in H by lia.
  replace (Z.of_nat (gridWidth grid) <=? v.1)%Z with false in H by lia.
  simpl in H. rewrite !orb_false_r in H. by apply bool_decide_eq_true in H.
Qed.

Lemma relax_chain grid gridEnd s current st v :
  ChainInv grid s st → s ∈ closedSet st →
  v ∈ neighbors (point current) → is_Some (parents st !! point current) →
  ChainInv grid s (relax grid gridEnd current st v)
  ∧ is_Some (parents (relax grid gridEnd current st v) !! point current).
Proof.
  intros HC Hs Hv Hcur. unfold relax.
  destruct (skipped grid (closedSet st) v) eqn:Hsk; [done|].
  apply skipped_passable in Hsk as [Hncl Hpass].
  destruct (match gScores st !! v with
            | None => true | Some g => (gScore current + 1 <? g)%Z end); [|done].
  assert (Hvs : v ≠ s) by (intros ->; done).
  split; [constructor; simpl|].
  - rewrite lookup_insert_ne by done. apply HC.
  - intros w Hw. destruct (decide (v = w)) as [<-|Hne].
    + by rewrite lookup_insert_eq in Hw.
    + rewrite lookup_insert_ne in Hw by done. by apply HC.
  - intros w p Hw. destruct (decide (v = w)) as [<-|Hne].
    + rewrite lookup_insert_eq in Hw. injection Hw as <-.
      split; [done|]. split; [done|].
      destruct (decide (v = point current)) as [->|Hne'].
      * rewrite lookup_insert_eq. eauto.
      * by rewrite lookup_insert_ne.
    + rewrite lookup_insert_ne in Hw by done.
      destruct (ci_link _ _ _ HC w p Hw) as (? & ? & Hp).
      split; [done|]. split; [done|].
      destruct (decide (v = p)) as [->|Hne'].
      * rewrite lookup_insert_eq. eauto.
      * by rewrite lookup_insert_ne.
  - intros n Hn.
    assert (Hcase : n ∈ openSet st ∨ point n = v).
    { destruct (existsb _ (openSet st)); [by left|].
      apply elem_of_app in Hn as [Hn|Hn]; [by left|].
      right. by apply list_elem_of_singleton in Hn as ->. }
    destruct (decide (v = point n)) as [->|Hne].
    + rewrite lookup_insert_eq. eauto.
    + rewrite lookup_insert_ne by done.
      destruct Hcase as [Hn'|Hn']; [by apply HC|congruence].
  - by left.
  - simpl. destruct (decide (v = point current)) as [->|Hne].
    + rewrite lookup_insert_eq. eauto.
    + by rewrite lookup_insert_ne.
Qed.

Lemma foldl_relax_chain grid gridEnd s current (l : list Cell) :
  (∀ v, v ∈ l → v ∈ neighbors (point current)) →
  ∀ st, ChainInv grid s st → s ∈ closedSet st →
        is_Some (parents st !! point current) →
        ChainInv grid s (foldl (relax grid gridEnd current) st l).
Proof.
  induction l as [|v l IH]; intros Hl st HC Hs Hcur; [done|].
  cbn [foldl].
  destruct (relax_chain grid gridEnd s current st v HC Hs) as [HC' Hcur'];
    [apply Hl; left|done|].
  apply IH; [|done| |done].
  - intros w Hw. apply Hl. by right.
  - by rewrite relax_closedSet.
Qed.

Lemma initialState_chain grid (s t : Cell) : ChainInv grid s (initialState s t).
Proof.
  constructor; simpl.
  - by rewrite lookup_singleton_eq.
  - intros v Hv. by apply lookup_singleton_Some in Hv as [? _].
  - intros v p Hv. by apply lookup_singleton_Some in Hv as [_ ?].
  - intros n Hn. apply list_elem_of_singleton in Hn as ->. simpl.
    rewrite lookup_singleton_eq. eauto.
  - right. intros n Hn. by apply list_elem_of_singleton in Hn as ->.
Qed.

(** Following the parents from a recorded cell [c] yields the cells of a
    chain from the start cell to [c]. *)
Lemma reconstructLoop_chain grid s st gridSize :
  ChainInv grid s st → SearchInv grid s st →
  ∀ fuel c path path',
    is_Some (parents st !! c) →
    reconstructLoop fuel (parents st) c gridSize path = Ok path' →
    ∃ cells,
      path' = (toCanvas gridSize <$> cells) ++ path
      ∧ head cells = Some s ∧ last cells = Some c
      ∧ stepwise cells ∧ Forall (passable grid) (tail cells)
      ∧ NoDup cells
      ∧ (∀ x, x ∈ cells → x = c ∨
           ∃ gx gc, gScores st !! x = Some gx ∧ gScores st !! c = Some gc
                    ∧ (gx < gc)%Z).
Proof.
  intros HC HI. induction fuel as [|fuel IH]; intros c path path' Hc Hrec; [done|].
  cbn [reconstructLoop] in Hrec.
  destruct (parents st !! c) as [[p|]|] eqn:Hp.
  - destruct (ci_link _ _ _ HC c p Hp) as (Hnb & Hpass & Hpp).
    destruct (inv_parent _ _ _ HI c p Hp) as (gp & gc & Hgp & Hgc & Hlt).
    destruct (IH p _ _ Hpp Hrec)
      as (cells & -> & Hhead & Hlast & Hstep & Hpassable & Hnd & Hg).
    exists (cells ++ [c]).
    assert (Hcin : c ∉ cells).
    { intros Hin. destruct (Hg c Hin) as [->|(gx & gp' & Hgx & Hgp' & Hlt')].
      - rewrite Hgp in Hgc. injection Hgc as ->. lia.
      - rewrite Hgc in Hgx. rewrite Hgp in Hgp'.
        injection Hgx as <-. injection Hgp' as <-. lia. }
    repeat split.
    + rewrite fmap_app, <- app_assoc. done.
    + destruct cells; [done|]. done.
    + by rewrite last_snoc.
    + clear -Hstep Hlast Hnb. induction cells as [|a [|b cells] IHc].
      * done.
      * simpl in *. injection Hlast as ->. done.
      * destruct Hstep as [Hab Hstep]. split; [done|].
        apply IHc; [|done]. done.
    + destruct cells as [|a cells]; [done|]. simpl in *.
      apply Forall_app. split; [done|]. by constructor.
    + apply NoDup_app. split; [done|]. split; [|apply NoDup_singleton].
      intros x Hx Hx'. apply list_elem_of_singleton in Hx' as ->. done.
    + intros x Hx. apply elem_of_app in Hx as [Hx|Hx].
      * right. destruct (Hg x Hx) as [->|(gx & gp' & Hgx & Hgp' & Hlt')].
        -- exists gp, gc. repeat split; try done; lia.
        -- exists gx, gc. rewrite Hgp in Hgp'. injection Hgp' as <-.
           repeat split; try done. lia.
      * left. by apply list_elem_of_singleton in Hx.
  - injection Hrec as <-. pose proof (ci_root _ _ _ HC c Hp) as ->.
    exists [s]. repeat split; try done.
    + apply NoDup_singleton.
    + intros x Hx. left. by apply list_elem_of_singleton in Hx.
  - by destruct Hc.
Qed.

Lemma searchLoop_chain grid gridEnd gridSize s :
  ∀ fuel st path,
    ChainInv grid s st → SearchInv grid s st →
    searchLoop fuel grid gridEnd gridSize st = Ok path → path ≠ [] →
    ∃ cells,
      path = toCanvas gridSize <$> cells
      ∧ head cells = Some s ∧ last cells = Some gridEnd
      ∧ stepwise cells ∧ Forall (passable grid) (tail cells) ∧ NoDup cells.
Proof.
  induction fuel as [|fuel IH]; intros st path HC HI Hloop Hne; [done|].
  rewrite searchLoop_S in Hloop.
  destruct (sortByF (openSet st)) as [|current rest] eqn:Hsort.
  { injection Hloop as <-. done. }
  assert (Hperm : current :: rest ≡ₚ openSet st)
    by (rewrite <- Hsort; apply sortByF_perm).
  assert (Hcur : current ∈ openSet st)
    by (rewrite <- Hperm; apply list_elem_of_here).
  case_bool_decide as Hgoal.
  - destruct (reconstructLoop_chain grid s st gridSize HC HI _ _ _ _
                (ci_open _ _ _ HC current Hcur) Hloop)
      as (cells & -> & ? & ? & ? & ? & ? & _).
    exists cells. rewrite app_nil_r, <- Hgoal. done.
  - set (st1 := {| openSet := rest; closedSet := closedSet st ∪ {[point current]};
                   gScores := gScores st; parents := parents st |}) in *.
    assert (Hnd : NoDup (point <$> current :: rest)).
    { rewrite Hperm. apply HI. }
    rewrite fmap_cons in Hnd. apply NoDup_cons in Hnd as [Hnin Hnd].
    assert (Hrest : ∀ n, n ∈ rest → n ∈ openSet st).
    { intros n Hn. rewrite <- Hperm. by right. }
    assert (Hs1 : s ∈ closedSet st1).
    { simpl. destruct (ci_closed _ _ _ HC) as [?|Hall]; [set_solver|].
      rewrite <- (Hall current Hcur). set_solver. }
    assert (HC1 : ChainInv grid s st1).
    { constructor; simpl; try apply HC.
      - intros n Hn. by apply (ci_open _ _ _ HC), Hrest.
      - by left. }
    assert (HI1 : SearchInv grid s st1).
    { constructor; simpl.
      - pose proof (inv_closed _ _ _ HI).
        destruct (inv_open _ _ _ HI current Hcur). set_solver.
      - intros n Hn. destruct (inv_open _ _ _ HI n (Hrest n Hn)) as [? ?].
        split; [done|]. apply not_elem_of_union. split; [done|].
        apply not_elem_of_singleton. intros Heq. apply Hnin.
        rewrite <- Heq. by apply list_elem_of_fmap_2.
      - done.
      - intros n Hn. by apply (inv_g _ _ _ HI), Hrest.
      - apply HI. }
    assert (Hexp : Expanding st1 current).
    { split; simpl; [set_solver|]. by apply (inv_g _ _ _ HI). }
    eapply IH; [| |exact Hloop|done].
    + apply foldl_relax_chain; [done|done|done|].
      simpl. by apply (ci_open _ _ _ HC).
    + by apply foldl_relax_inv.
Qed.

(** ** The empty path means that the goal cannot be reached *)

Lemma reconstructLoop_nonempty parents gridSize :
  ∀ fuel c path path',
    reconstructLoop fuel parents c gridSize path = Ok path' → path' ≠ [].
Proof.
  induction fuel as [|fuel IH]; intros c path path' Hrec; [done|].
  cbn [reconstructLoop] in Hrec.
  destruct (parents !! c) as [[p|]|]; [by eapply IH| |]; by injection Hrec as <-.
Qed.

Lemma relax_openSet_mono grid gridEnd current st v n :
  n ∈ openSet st → n ∈ openSet (relax grid gridEnd current st v).
Proof.
  intros Hn. unfold relax. destruct (skipped _ _ _); [done|].
  destruct (match gScores st !! v with None => true | Some g => _ end); [|done].
  simpl. destruct (existsb _ (openSet st)); [done|].
  apply elem_of_app. by left.
Qed.

Lemma relax_known grid gridEnd current st v :
  (∀ w, is_Some (gScores st !! w) →
        w ∈ closedSet st ∨ w ∈ point <$> openSet st) →
  (∀ w, is_Some (gScores (relax grid gridEnd current st v) !! w) →
        w ∈ closedSet (relax grid gridEnd current st v)
        ∨ w ∈ point <$> openSet (relax grid gridEnd current st v))
  ∧ (passable grid v →
     v ∈ closedSet (relax grid gridEnd current st v)
     ∨ v ∈ point <$> openSet (relax grid gridEnd current st v)).
Proof.
  intros Hknown. unfold relax.
  destruct (skipped grid (closedSet st) v) eqn:Hsk.
  { split; [done|]. intros Hp. left. by eapply passable_skipped. }
  destruct (gScores st !! v) as [g|] eqn:Hg.
  - destruct (gScore current + 1 <? g)%Z eqn:Hlt.
    + assert (Hv : v ∈ closedSet st ∨ v ∈ point <$> openSet st)
        by (apply Hknown; rewrite Hg; eauto).
      assert (Hv' : v ∈ closedSet st
                    ∨ v ∈ point <$>
                        (if existsb (λ node, bool_decide (point node = v)) (openSet st)
                         then openSet st
                         else openSet st
                              ++ [ {| point := v; gScore := gScore current + 1;
                                      fScore := gScore current + 1 + heuristic v gridEnd;
                                      parent := Some (point current) |} ])).
      { destruct Hv as [?|Hv]; [by left|]. right.
        destruct (existsb _ (openSet st)); [done|].
        rewrite fmap_app. apply elem_of_app. by left. }
      split; [|done]. simpl. intros w Hw.
      destruct (decide (v = w)) as [<-|Hne]; [done|].
      rewrite lookup_insert_ne in Hw by done.
      destruct (Hknown w Hw) as [?|Hw']; [by left|]. right.
      destruct (existsb _ (openSet st)); [done|].
      rewrite fmap_app. apply elem_of_app. by left.
    + split; [done|]. intros _. apply Hknown. rewrite Hg. eauto.
  - assert (Hv' : v ∈ point <$>
                        (if existsb (λ node, bool_decide (point node = v)) (openSet st)
                         then openSet st
                         else openSet st
                              ++ [ {| point := v; gScore := gScore current + 1;
                                      fScore := gScore current + 1 + heuristic v gridEnd;
                                      parent := Some (point current) |} ])).
    { destruct (existsb _ (openSet st)) eqn:E.
      - apply existsb_point_true in E as (n & Hn & <-).
        by apply list_elem_of_fmap_2.
      - rewrite fmap_app. apply elem_of_app. right. simpl. left. }
    split; [|by right]. simpl. intros w Hw.
    destruct (decide (v = w)) as [<-|Hne]; [by right|].
    rewrite lookup_insert_ne in Hw by done.
    destruct (Hknown w Hw) as [?|Hw']; [by left|]. right.
    destruct (existsb _ (openSet st)); [done|].
    rewrite fmap_app. apply elem_of_app. by left.
Qed.

Lemma foldl_relax_openSet_mono grid gridEnd current (l : list Cell) :
  ∀ st n, n ∈ openSet st → n ∈ openSet (foldl (relax grid gridEnd current) st l).
Proof.
  induction l as [|v l IH]; intros st n Hn; [done|].
  cbn [foldl]. by apply IH, relax_openSet_mono.
Qed.

Lemma foldl_relax_known grid gridEnd current (l : list Cell) :
  ∀ st,
    (∀ w, is_Some (gScores st !! w) →
          w ∈ closedSet st ∨ w ∈ point <$> openSet st) →
    (∀ w, is_Some (gScores (foldl (relax grid gridEnd current) st l) !! w) →
          w ∈ closedSet st
          ∨ w ∈ point <$> openSet (foldl (relax grid gridEnd current) st l))
    ∧ (∀ v, v ∈ l → passable grid v →
            v ∈ closedSet st
            ∨ v ∈ point <$> openSet (foldl (relax grid gridEnd current) st l)).
Proof.
  induction l as [|v l IH]; intros st Hknown.
  - split; [done|]. intros v Hv. by apply elem_of_nil in Hv.
  - cbn [foldl].
    destruct (relax_known grid gridEnd current st v Hknown) as [Hk1 Hv1].
    destruct (IH _ Hk1) as [Hk2 Hv2].
    rewrite relax_closedSet in Hk2, Hv2, Hv1.
    split; [done|]. intros w Hw Hp. apply elem_of_cons in Hw as [->|Hw].
    + destruct (Hv1 Hp) as [?|Hin]; [by left|]. right.
      apply list_elem_of_fmap in Hin as (n & -> & Hn).
      by apply list_elem_of_fmap_2, foldl_relax_openSet_mono.
    + by apply Hv2.
Qed.

Lemma initialState_explore grid (s t : Cell) : ExploreInv grid s t (initialState s t).
Proof.
  constructor; simpl.
  - right. left.
  - apply not_elem_of_empty.
  - intros c v Hc. by apply elem_of_empty in Hc.
  - intros v [g Hg]. apply lookup_singleton_Some in Hg as [<- _]. right. left.
Qed.

Lemma searchLoop_explore grid gridEnd gridSize s :
  ∀ fuel st,
    ExploreInv grid s gridEnd st →
    searchLoop fuel grid gridEnd gridSize st = Ok [] →
    ¬ reachable grid s gridEnd.
Proof.
  induction fuel as [|fuel IH]; intros st HE Hloop; [done|].
  rewrite searchLoop_S in Hloop.
  destruct (sortByF (openSet st)) as [|current rest] eqn:Hsort.
  - assert (Hopen : openSet st = []).
    { apply Permutation_nil_r. rewrite <- Hsort. symmetry. apply sortByF_perm. }
    intros Hreach.
    assert (Hall : ∀ c, reachable grid s c → c ∈ closedSet st).
    { induction 1 as [|c v _ IHc Hv Hp].
      - destruct (ei_start _ _ _ _ HE) as [?|Hin]; [done|].
        rewrite Hopen in Hin. by apply elem_of_nil in Hin.
      - destruct (ei_closed _ _ _ _ HE c v IHc Hv Hp) as [?|Hin]; [done|].
        rewrite Hopen in Hin. by apply elem_of_nil in Hin. }
    by apply (ei_goal _ _ _ _ HE), Hall.
  - assert (Hperm : current :: rest ≡ₚ openSet st)
      by (rewrite <- Hsort; apply sortByF_perm).
    case_bool_decide as Hgoal.
    { by apply reconstructLoop_nonempty in Hloop. }
    set (st1 := {| openSet := rest; closedSet := closedSet st ∪ {[point current]};
                   gScores := gScores st; parents := parents st |}) in *.
    assert (Hmove : ∀ w, w ∈ closedSet st ∨ w ∈ point <$> openSet st →
                         w ∈ closedSet st1 ∨ w ∈ point <$> openSet st1).
    { intros w [?|Hw]; [left; apply elem_of_union; by left|].
      rewrite <- Hperm, fmap_cons in Hw. apply elem_of_cons in Hw as [->|Hw].
      - left. apply elem_of_union. right. by apply elem_of_singleton.
      - by right. }
    assert (Hknown1 : ∀ w, is_Some (gScores st1 !! w) →
                           w ∈ closedSet st1 ∨ w ∈ point <$> openSet st1).
    { intros w Hw. by apply Hmove, (ei_known _ _ _ _ HE). }
    destruct (foldl_relax_known grid gridEnd current (neighbors (point current))
                st1 Hknown1) as [Hk Hv].
    assert (Hgrow : ∀ w, w ∈ closedSet st1 ∨ w ∈ point <$> openSet st1 →
              w ∈ closedSet st1
              ∨ w ∈ point <$> openSet (foldl (relax grid gridEnd current) st1
                                          (neighbors (point current)))).
    { intros w [?|Hw]; [by left|]. right.
      apply list_elem_of_fmap in Hw as (n & -> & Hn).
      by apply list_elem_of_fmap_2, foldl_relax_openSet_mono. }
    apply (IH (foldl (relax grid gridEnd current) st1 (neighbors (point current))));
      [|done].
    constructor; rewrite ?foldl_relax_closedSet.
    + by apply Hgrow, Hmove, (ei_start _ _ _ _ HE).
    + simpl. intros Hin. apply elem_of_union in Hin as [Hin|Hin].
      * by apply (ei_goal _ _ _ _ HE).
      * apply elem_of_singleton in Hin. congruence.
    + intros c v Hc Hvn Hp. simpl in Hc.
      apply elem_of_union in Hc as [Hc|Hc].
      * by apply Hgrow, Hmove, (ei_closed _ _ _ _ HE c v).
      * apply elem_of_singleton in Hc as ->. by apply Hv.
    + done.
Qed.

Lemma chain_reachable grid s (cells : list Cell) :
  stepwise cells → Forall (passable grid) (tail cells) → head cells = Some s →
  ∀ c, c ∈ cells → reachable grid s c.
Proof.
  intros Hstep Hpass Hhead.
  destruct cells as [|a cells]; [done|]. injection Hhead as ->.
  simpl in Hpass.
  assert (G : ∀ (l : list Cell) a,
             reachable grid s a → stepwise (a :: l) → Forall (passable grid) l →
             ∀ c, c ∈ a :: l → reachable grid s c).
  { induction l as [|b l IH]; intros a Ha Hst Hp c Hc.
    - apply list_elem_of_singleton in Hc as ->. done.
    - destruct Hst as [Hab Hst]. apply Forall_cons in Hp as [Hb Hp].
      apply elem_of_cons in Hc as [->|Hc]; [done|].
      apply (IH b); try done. by apply (reach_step grid s a b). }
  apply G; [constructor|done..].
Qed.

(** X1: a non-empty path returned by [findPathAStar] is the image, under
    [cell * gridSize], of a list of cells that starts at the start cell, ends
    at the end cell, moves by one step to a 4-neighbor each time, visits no
    cell twice, and whose cells after the first are passable cells of the
    grid. *)
Theorem findPathAStar_path_is_chain
    (grid : Grid) (start end_ : Point) (gridSize : Q) (path : list Point) :
  findPathAStar grid start end_ gridSize = Ok path →
  path ≠ [] →
  ∃ cells,
    path = toCanvas gridSize <$> cells
    ∧ head cells = Some (toCell gridSize start)
    ∧ last cells = Some (toCell gridSize end_)
    ∧ stepwise cells
    ∧ Forall (passable grid) (tail cells)
    ∧ NoDup cells.
Proof.
  intros Hfind Hne. unfold findPathAStar in Hfind.
  eapply searchLoop_chain; [| |exact Hfind|exact Hne].
  - apply initialState_chain.
  - apply initialState_inv.
Qed.

Lemma findPathAStar_path_is_chain_witness :
  let grid := [[true; false; true]; [true; false; true]; [true; true; true]] in
  ∃ cells,
    [mkPoint 0 0; mkPoint 0 10; mkPoint 0 20; mkPoint 10 20; mkPoint 20 20;
     mkPoint 20 10; mkPoint 20 0]
    = toCanvas 10 <$> cells
    ∧ head cells = Some (toCell 10 (mkPoint 5 5))
    ∧ last cells = Some (toCell 10 (mkPoint 25 5))
    ∧ stepwise cells
    ∧ Forall (passable grid) (tail cells)
    ∧ NoDup cells.
Proof.
  intros grid.
  apply (findPathAStar_path_is_chain grid (mkPoint 5 5) (mkPoint 25 5) 10).
  - vm_compute. reflexivity.
  - discriminate.
Defined.

(** X2: [findPathAStar] returns the empty path exactly when the end cell
    cannot be reached from the start cell by steps between 4-neighbors
    through passable cells of the grid. *)
Theorem findPathAStar_empty_iff_unreachable
    (grid : Grid) (start end_ : Point) (gridSize : Q) :
  findPathAStar grid start end_ gridSize = Ok []
  ↔ ¬ reachable grid (toCell gridSize start) (toCell gridSize end_).
Proof.
  split.
  - intros Hfind. unfold findPathAStar in Hfind.
    eapply searchLoop_explore; [|exact Hfind]. apply initialState_explore.
  - intros Hun.
    destruct (findPathAStar_total grid start end_ gridSize) as [path Hpath].
    destruct path as [|p path]; [done|]. destruct Hun.
    unfold findPathAStar in Hpath.
    destruct (searchLoop_chain grid _ gridSize (toCell gridSize start) _ _ _
                (initialState_chain _ _ _) (initialState_inv _ _ _) Hpath)
      as (cells & _ & Hhead & Hlast & Hstep & Hpass & _); [done|].
    apply (chain_reachable grid _ cells Hstep Hpass Hhead).
    destruct cells as [|a cells _] using rev_ind; [done|].
    rewrite last_snoc in Hlast. injection Hlast as ->.
    apply elem_of_app. right. left.
Qed.

(** X3: the two [while] loops of [findPathAStar] terminate for every grid
    (also an empty or ragged one), start point and end point: the call
    returns a path, possibly empty, and never throws. *)
Theorem findPathAStar_terminates
    (grid : Grid) (start end_ : Point) (gridSize : Q) :
  ∃ path, findPathAStar grid start end_ gridSize = Ok path.
Proof.
  unfold findPathAStar.
  apply searchLoop_total with (s := toCell gridSize start).
  - apply initialState_inv.
  - pose proof (size_universe grid (toCell gridSize start)). lia.
Qed.

(** * The window and the grid *)







(** ** Marking only blocks cells *)












(** ** What the grid of [createObstacleGrid] blocks *)















Lemma segmentSteps_nonneg (p1 p2 : Point) : (0 <= segmentSteps p1 p2)%Q.
Proof.
  unfold segmentSteps.
  eapply Qle_trans; [apply (Qabs_nonneg (pt_x p2 - pt_x p1))|apply Q.le_max_l].
Qed.

Lemma stepRange_zero_in (steps : Q) : (0 <= steps)%Q → 0%Z ∈ stepRange steps.
Proof.
  intros H. unfold stepRange. apply elem_of_seqZ.
  assert (0 ≤ Qfloor steps)%Z by (change 0%Z with (Qfloor 0); by apply Qfloor_resp_le).
  lia.
Qed.





(** * More on the simplifier, the fallback and the facade *)

Lemma optimizeFrom_sublist (rest : list Point) :
  ∀ current farthest,
    optimizeFrom current farthest rest `sublist_of` farthest :: rest
    ∧ last (optimizeFrom current farthest rest) = last (farthest :: rest)
    ∧ optimizeFrom current farthest rest ≠ [].
Proof.
  induction rest as [|next rest IH]; intros current farthest.
  - simpl. split; [done|]. split; done.
  - cbn [optimizeFrom]. destruct (arePointsCollinear current farthest next).
    + destruct (IH current next) as (Hs & Hl & Hn).
      split; [by apply sublist_cons|]. split; [|done].
      rewrite Hl. done.
    + destruct (IH farthest next) as (Hs & Hl & Hn).
      split; [by apply sublist_skip|]. split; [|discriminate].
      destruct (optimizeFrom farthest next rest) as [|q l] eqn:E; [done|].
      rewrite last_cons_cons, Hl. done.
Qed.

Lemma optimizePath_facts (path : list Point) :
  optimizePath path `sublist_of` path
  ∧ head (optimizePath path) = head path
  ∧ last (optimizePath path) = last path
  ∧ (2 ≤ length path → 2 ≤ length (optimizePath path)).
Proof.
  destruct path as [|p0 [|p1 [|p2 rest]]]; try done.
  unfold optimizePath.
  destruct (optimizeFrom_sublist (p2 :: rest) p0 p1) as (Hs & Hl & Hn).
  split; [by apply sublist_skip|]. split; [done|]. split.
  - destruct (optimizeFrom p0 p1 (p2 :: rest)) as [|q l] eqn:E; [done|].
    rewrite last_cons_cons, Hl. done.
  - intros _. destruct (optimizeFrom p0 p1 (p2 :: rest)); [done|]. simpl. lia.
Qed.

(** X8: [optimizePath] only drops points: its result is a subsequence of the
    input with the same first and the same last point, so it is never longer
    than the input and has at least two points whenever the input has. *)
Theorem optimizePath_subsequence (path : list Point) :
  optimizePath path `sublist_of` path
  ∧ head (optimizePath path) = head path
  ∧ last (optimizePath path) = last path
  ∧ length (optimizePath path) ≤ length path
  ∧ (2 ≤ length path → 2 ≤ length (optimizePath path)).
Proof.
  destruct (optimizePath_facts path) as (Hs & Hh & Hl & H2).
  repeat split; try done. by apply sublist_length.
Qed.







(** ** The fallback *)

Lemma lineSample_first (start end_ : Point) :
  ∃ s, lineSample start end_ (segmentSteps start end_) 0 = Some s ∧ pt_eq s start.
Proof.
  unfold lineSample, js_div.
  destruct (Qeq_bool (segmentSteps start end_) 0) eqn:E; simpl.
  - eexists. split; [done|]. split; simpl; ring.
  - eexists. split; [done|].
    assert (Hne : ¬ (segmentSteps start end_ == 0)%Q).
    { intros H. apply Qeq_bool_iff in H. congruence. }
    split; simpl; field; done.
Qed.

(** A segment that passes the test starts outside every obstacle. *)
Lemma isLineClear_start (start end_ : Point) (obstacles : list Rectangle) :
  isLineClear start end_ obstacles = true →
  existsb (pointInRectangle start) obstacles = false.
Proof.
  unfold isLineClear. intros H. rewrite forallb_forall in H.
  specialize (H 0%Z). destruct (lineSample_first start end_) as (s & Hs & Heq).
  rewrite Hs in H.
  assert (Hin : In 0%Z (stepRange (segmentSteps start end_))).
  { apply list_elem_of_In, stepRange_zero_in, segmentSteps_nonneg. }
  apply H, negb_true_iff in Hin. rewrite <- Hin.
  clear -Heq. induction obstacles as [|o l IH]; [done|].
  simpl. by rewrite IH, (pointInRectangle_proper s start o Heq).
Qed.

Lemma isLineClear_no_obstacles (start end_ : Point) : isLineClear start end_ [] = true.
Proof.
  unfold isLineClear. apply forallb_forall. intros i _.
  by destruct (lineSample _ _ _ _).
Qed.

(** X11: when the start point lies in an obstacle rectangle (bounds
    included), as a pin on the edge of its own component does, neither
    L-shape passes the test and [createLShapedPath] returns the direct line
    [start, end]; a path with a bend is returned only when the start point
    and the bend are outside every obstacle. *)
Theorem createLShapedPath_start_blocked
    (start end_ : Point) (obstacles : list Rectangle) :
  (existsb (pointInRectangle start) obstacles = true →
   createLShapedPath start end_ obstacles = [start; end_])
  ∧ (∀ mid, createLShapedPath start end_ obstacles = [start; mid; end_] →
       existsb (pointInRectangle start) obstacles = false
       ∧ existsb (pointInRectangle mid) obstacles = false).
Proof.
  unfold createLShapedPath. split.
  - intros Hin.
    destruct (isLineClear start _ obstacles) eqn:E1;
      [apply isLineClear_start in E1; congruence|].
    destruct (isLineClear start {| pt_x := pt_x start; pt_y := pt_y end_ |} obstacles)
      eqn:E2; [apply isLineClear_start in E2; congruence|].
    done.
  - intros mid.
    destruct (isLineClear start {| pt_x := pt_x end_; pt_y := pt_y start |} obstacles)
      eqn:E1; simpl.
    + destruct (isLineClear {| pt_x := pt_x end_; pt_y := pt_y start |} end_ obstacles)
        eqn:E1'; simpl.
      * intros [= <-]. split; by eapply isLineClear_start.
      * destruct (isLineClear start {| pt_x := pt_x start; pt_y := pt_y end_ |} obstacles)
          eqn:E2; simpl; [|done].
        destruct (isLineClear {| pt_x := pt_x start; pt_y := pt_y end_ |} end_ obstacles)
          eqn:E2'; simpl; [|done].
        intros [= <-]. split; by eapply isLineClear_start.
    + destruct (isLineClear start {| pt_x := pt_x start; pt_y := pt_y end_ |} obstacles)
        eqn:E2; simpl; [|done].
      destruct (isLineClear {| pt_x := pt_x start; pt_y := pt_y end_ |} end_ obstacles)
        eqn:E2'; simpl; [|done].
      intros [= <-]. split; by eapply isLineClear_start.
Qed.

(** X12: with an empty obstacle list [createLShapedPath] always returns the
    three points of the horizontal-first L, never the two-point line, also
    when the two points coincide or share a coordinate (the bend then
    repeats an endpoint). *)
Theorem createLShapedPath_no_obstacles (start end_ : Point) :
  createLShapedPath start end_ []
  = [start; {| pt_x := pt_x end_; pt_y := pt_y start |}; end_].
Proof.
  unfold createLShapedPath. by rewrite !isLineClear_no_obstacles.
Qed.

(** * Pins, bend points and components *)

(** X14: [Pin.setPosition] returns exactly when both coordinates are
    finite, and the pin is then at the given point.  It is not atomic: with
    a finite [x] and a non-finite [y] it throws after [x] has been
    overwritten; with a non-finite [x] the pin is left as it was. *)
Theorem Pin_setPosition_outcome (p : Pin) (point : JsPoint) :
  let r := Pin_setPosition p point in
  (r.2 = Returns tt ↔ ∃ x y, point = {| js_x := Number x; js_y := Number y |})
  ∧ (∀ x y, point = {| js_x := Number x; js_y := Number y |} →
       getPosition r.1 = {| pt_x := x; pt_y := y |}
       ∧ samePinFrame (withY (withX r.1 (pin_x p)) (pin_y p)) p)
  ∧ (js_x point = NonFinite → r = (p, Raises InvalidXCoordinate))
  ∧ (∀ x, js_x point = Number x → js_y point = NonFinite →
       r.2 = Raises InvalidYCoordinate
       ∧ getPosition r.1 = {| pt_x := x; pt_y := pin_y p |}).
Proof.
  destruct point as [[x|] [y|]]; unfold Pin_setPosition; simpl;
    (split; [split; [try done; eauto|intros (? & ? & ?); done]|]);
    (split; [intros ? ? [= <- <-] || intros ? ? [=]; done|]);
    (split; [done|]); intros ? [= <-] ?; done.
Qed.

(** ** Bend points *)

Lemma otherWirePaths_alter_this h this f existingWires :
  otherWirePaths {| pins := pins h; wires := alter f this (wires h) |}
                 this existingWires
  = otherWirePaths h this existingWires.
Proof.
  unfold otherWirePaths. apply list_omap_ext.
  induction existingWires as [|r l IH]; constructor; [|done].
  case_bool_decide as Hr; [|done]. simpl. by rewrite lookup_alter_ne.
Qed.

(** X15: after [addBendPoint(point)] the wire is routed through its bend
    points, the new one last, whatever the obstacles, the other wires and
    the grid size are; after [clearBendPoints()] it is routed by the search
    again, as a wire that never had bend points. *)
Theorem bendPoints_then_calculatePath
    (h : Heap) (this : Ref) (w : Wire) (pe px : Pin) (point : Point)
    (obstacles : list Rectangle) (existingWires : list Ref) (gridSize : Q) :
  wires h !! this = Some w →
  pins h !! enterPin w = Some pe →
  pins h !! exitPin w = Some px →
  (calculatePath (addBendPoint h this point) this obstacles existingWires gridSize).2
  = Ok (getPosition pe :: bendPoints w ++ [point; getPosition px])
  ∧ (calculatePath (clearBendPoints h this) this obstacles existingWires gridSize).2
    = route [] (getPosition pe) (getPosition px) obstacles
            (otherWirePaths h this existingWires) gridSize.
Proof.
  intros Hw Hpe Hpx. split.
  - unfold calculatePath, addBendPoint. cbn [wires pins].
    rewrite lookup_alter_eq, Hw. cbn [fmap option_fmap option_map setBendPoints
      enterPin exitPin bendPoints].
    rewrite Hpe, Hpx. unfold route.
    rewrite length_app, Nat.add_1_r. cbn [Nat.ltb Nat.leb].
    cbn [snd]. by rewrite <- app_assoc.
  - unfold calculatePath, clearBendPoints. cbn [wires pins].
    rewrite lookup_alter_eq, Hw. cbn [fmap option_fmap option_map setBendPoints
      enterPin exitPin bendPoints].
    rewrite Hpe, Hpx.
    rewrite (otherWirePaths_alter_this h this).
    by destruct (route _ _ _ _ _ _).
Qed.

Lemma bendPoints_then_calculatePath_witness :
  (calculatePath (addBendPoint (wireHeap (mkPoint 0 0) (mkPoint 100 0) [mkPoint 20 30])
                    0 (mkPoint 50 30))
     0 [blockingObstacle] [] 0).2
  = Ok [mkPoint 0 0; mkPoint 20 30; mkPoint 50 30; mkPoint 100 0]
  ∧ (calculatePath (clearBendPoints (wireHeap (mkPoint 0 0) (mkPoint 100 0) [mkPoint 20 30]) 0)
       0 [blockingObstacle] [] 0).2
    = route [] (mkPoint 0 0) (mkPoint 100 0) [blockingObstacle]
        (otherWirePaths (wireHeap (mkPoint 0 0) (mkPoint 100 0) [mkPoint 20 30]) 0 []) 0.
Proof.
  exact (bendPoints_then_calculatePath
           (wireHeap (mkPoint 0 0) (mkPoint 100 0) [mkPoint 20 30]) 0
           {| enterPin := 0; exitPin := 1; wire_name := "w";
              bendPoints := [mkPoint 20 30]; routedPath := [] |}
           (pinAt "a" (mkPoint 0 0) 0 1) (pinAt "b" (mkPoint 100 0) 1 0)
           (mkPoint 50 30) [blockingObstacle] [] 0
           eq_refl eq_refl eq_refl).
Defined.

(** ** Numbers *)

Lemma norm_Val (q v : Q) : norm q = Val v → v = q.
Proof.
  unfold norm. destruct (Qle_bool overflowBound q); [done|].
  destruct (Qle_bool q (- overflowBound)); [done|]. by intros [= <-].
Qed.

Lemma norm_in_range (q : Q) :
  (- overflowBound < q)%Q → (q < overflowBound)%Q → norm q = Val q.
Proof.
  intros Hlo Hhi. unfold norm.
  destruct (Qle_bool overflowBound q) eqn:E1.
  { apply Qle_bool_iff in E1. lra. }
  destruct (Qle_bool q (- overflowBound)) eqn:E2; [|done].
  apply Qle_bool_iff in E2. lra.
Qed.

Lemma numAdd_Val (a b : Num) (v : Q) :
  numAdd a b = Val v → ∃ x y, a = Val x ∧ b = Val y ∧ v = (x + y)%Q.
Proof.
  destruct a as [x| | |], b as [y| | |]; try done. cbn [numAdd].
  intros Hn. apply norm_Val in Hn. eauto.
Qed.

Lemma numSpread_Val (extent : Num) (index count : nat) (v : Q) :
  numSpread extent index count = Val v →
  ∃ e, extent = Val e ∧ v = spread e index count.
Proof.
  destruct extent as [e| | |]; try done. cbn [numSpread].
  destruct (norm _); try done. intros [= <-]. eauto.
Qed.

Lemma numAdd_NaN_r (a : Num) : numAdd a NaN = NaN.
Proof. by destruct a. Qed.

Lemma spread_bounds (extent : Q) (index count : nat) :
  (0 <= extent)%Q → index < count →
  (0 <= spread extent index count)%Q ∧ (spread extent index count <= extent)%Q.
Proof.
  intros Hext Hlt. unfold spread.
  assert (Hk : (0 < inject_Z (Z.of_nat index + 1))%Q).
  { change 0%Q with (inject_Z 0). rewrite <- Zlt_Qlt. lia. }
  assert (Hm : (0 < inject_Z (Z.of_nat count + 1))%Q).
  { change 0%Q with (inject_Z 0). rewrite <- Zlt_Qlt. lia. }
  assert (Hkm : (inject_Z (Z.of_nat index + 1) <= inject_Z (Z.of_nat count + 1))%Q).
  { rewrite <- Zle_Qle. lia. }
  split.
  - apply Qle_shift_div_l; [done|]. nra.
  - apply Qle_shift_div_r; [done|]. nra.
Qed.

(** ** One pin *)

(** The three ways [pin.x = x; pin.y = y] ends. *)
Lemma placeAt_cases (a b : Num) (p : Pin) :
  (placeAt a b p = (p, Raises InvalidXCoordinate) ∧ finiteValue a = None)
  ∨ (∃ x, placeAt a b p = (withX p x, Raises InvalidYCoordinate)
          ∧ a = Val x ∧ finiteValue b = None)
  ∨ (∃ x y, placeAt a b p = (withY (withX p x) y, Returns tt)
            ∧ a = Val x ∧ b = Val y).
Proof.
  unfold placeAt, Pin_setPosition.
  destruct a as [x| | |]; cbn; [|by left..]. right.
  destruct b as [y| | |]; cbn; [right|left..]; eauto.
Qed.

Lemma placeAt_returns (a b : Num) (p : Pin) :
  (placeAt a b p).2 = Returns tt →
  ∃ x y, a = Val x ∧ b = Val y ∧ (placeAt a b p).1 = withY (withX p x) y.
Proof.
  destruct (placeAt_cases a b p) as [[-> _]|[(x & -> & _)|(x & y & -> & -> & ->)]];
    [done..|]. eauto.
Qed.

(** What a placement keeps: everything but the position. *)
Lemma placeAt_keep (P : Pin → Prop) (a b : Num) (p : Pin) :
  (∀ p x, P p → P (withX p x)) → (∀ p y, P p → P (withY p y)) →
  P p → P (placeAt a b p).1.
Proof.
  intros HX HY HP.
  destruct (placeAt_cases a b p) as [[-> _]|[(x & -> & _)|(x & y & -> & _)]];
    cbn [fst]; auto.
Qed.

(** ** The loops over the pins of a component *)

Lemma lookup_insert_is_Some_same (ps : gmap Ref Pin) (r0 r : Ref) (pin pin' : Pin) :
  ps !! r0 = Some pin →
  is_Some (<[r0 := pin']> ps !! r) ↔ is_Some (ps !! r).
Proof.
  intros H0. destruct (decide (r = r0)) as [->|Hne].
  - rewrite lookup_insert_eq, H0. split; eauto.
  - by rewrite lookup_insert_ne.
Qed.

Lemma forEachPin_notin (body : nat → Pin → Pin * Completion unit) (r : Ref)
    (refs : list Ref) :
  ∀ index0 ps, r ∉ refs → (forEachPin body refs index0 ps).1 !! r = ps !! r.
Proof.
  induction refs as [|r0 rest IH]; intros index0 ps Hr; [done|].
  apply not_elem_of_cons in Hr as [Hne Hr]. cbn [forEachPin].
  destruct (ps !! r0) as [pin|] eqn:E; [|by apply IH].
  destruct (body index0 pin) as [pin' [[]|e]].
  - rewrite IH by done. by rewrite lookup_insert_ne.
  - cbn [fst]. by rewrite lookup_insert_ne.
Qed.

Lemma forEachPin_is_Some (body : nat → Pin → Pin * Completion unit) (r : Ref)
    (refs : list Ref) :
  ∀ index0 ps,
    is_Some ((forEachPin body refs index0 ps).1 !! r) ↔ is_Some (ps !! r).
Proof.
  induction refs as [|r0 rest IH]; intros index0 ps; [done|].
  cbn [forEachPin]. destruct (ps !! r0) as [pin|] eqn:E; [|by apply IH].
  destruct (body index0 pin) as [pin' [[]|e]].
  - rewrite IH. by apply lookup_insert_is_Some_same with pin.
  - cbn [fst]. by apply lookup_insert_is_Some_same with pin.
Qed.

(** A loop whose body never throws returns. *)
Lemma forEachPin_total (body : nat → Pin → Pin * Completion unit)
    (refs : list Ref) :
  ∀ index0 ps,
    (∀ i p, index0 ≤ i < index0 + length refs → (body i p).2 = Returns tt) →
    (forEachPin body refs index0 ps).2 = Returns tt.
Proof.
  induction refs as [|r0 rest IH]; intros index0 ps Hbody; [done|].
  cbn [forEachPin].
  assert (Hrest : ∀ i p, S index0 ≤ i < S index0 + length rest →
                         (body i p).2 = Returns tt).
  { intros i p Hi. apply Hbody. cbn [length]. lia. }
  destruct (ps !! r0) as [pin|] eqn:E; [|by apply IH].
  pose proof (Hbody index0 pin) as H0.
  destruct (body index0 pin) as [pin' [[]|e]]; [by apply IH|].
  cbn [snd] in H0. discriminate H0. cbn [length]. lia.
Qed.

(** In a loop that returns, the body returned for every pin it met. *)
Lemma forEachPin_returns (body : nat → Pin → Pin * Completion unit)
    (refs : list Ref) :
  ∀ index0 ps,
    (forEachPin body refs index0 ps).2 = Returns tt →
    ∀ r, r ∈ refs → is_Some (ps !! r) →
    ∃ i p, (body i p).2 = Returns tt.
Proof.
  induction refs as [|r0 rest IH]; intros index0 ps Hret r Hr Hsome.
  { by apply elem_of_nil in Hr. }
  cbn [forEachPin] in Hret.
  destruct (ps !! r0) as [pin|] eqn:E.
  - destruct (body index0 pin) as [pin' [[]|e]] eqn:Eb; [|done].
    exists index0, pin. by rewrite Eb.
  - apply elem_of_cons in Hr as [->|Hr].
    + rewrite E in Hsome. by destruct Hsome.
    + by apply (IH _ _ Hret r).
Qed.

(** What a loop that returns establishes for a pin it visits, and keeps for
    a pin it does not visit. *)
Lemma forEachPin_establish (P : Pin → Prop)
    (body : nat → Pin → Pin * Completion unit) (r : Ref) (refs : list Ref) :
  ∀ index0 ps,
    (forEachPin body refs index0 ps).2 = Returns tt →
    (r ∈ refs → ∀ i p, index0 ≤ i < index0 + length refs →
                       (body i p).2 = Returns tt → P (body i p).1) →
    is_Some (ps !! r) →
    (r ∈ refs ∨ ∃ p, ps !! r = Some p ∧ P p) →
    ∃ p', (forEachPin body refs index0 ps).1 !! r = Some p' ∧ P p'.
Proof.
  induction refs as [|r0 rest IH]; intros index0 ps Hret Hbody Hsome Hcase.
  - destruct Hcase as [Hin|Hp]; [by apply elem_of_nil in Hin|done].
  - cbn [forEachPin] in *.
    assert (Hrest : r ∈ rest → ∀ i p, S index0 ≤ i < S index0 + length rest →
                      (body i p).2 = Returns tt → P (body i p).1).
    { intros Hin i p Hi. apply Hbody; [by right|]. cbn [length]. lia. }
    destruct (ps !! r0) as [pin|] eqn:E.
    + pose proof (Hbody) as Hb0.
      destruct (body index0 pin) as [pin' [[]|e]] eqn:Eb; [|done].
      apply IH; [done|done|by apply lookup_insert_is_Some_same with pin|].
      destruct (decide (r ∈ rest)) as [Hin|Hnin]; [by left|]. right.
      destruct (decide (r = r0)) as [->|Hne].
      * exists pin'. rewrite lookup_insert_eq. split; [done|].
        change pin' with (pin', @Returns unit tt).1. rewrite <- Eb.
        apply Hb0; [by left|cbn [length]; lia|by rewrite Eb].
      * rewrite lookup_insert_ne by done.
        destruct Hcase as [Hin|Hp]; [|done].
        apply elem_of_cons in Hin as [?|?]; done.
    + apply IH; [done|done|done|].
      destruct Hcase as [Hin|Hp]; [|by right].
      apply elem_of_cons in Hin as [->|Hin]; [|by left].
      rewrite E in Hsome. by destruct Hsome.
Qed.

(** What a loop keeps for every pin, visited or not, also when it throws. *)
Lemma forEachPin_keep (P : Pin → Prop)
    (body : nat → Pin → Pin * Completion unit) (r : Ref) (refs : list Ref) :
  ∀ index0 ps p,
    (∀ i p, P p → P (body i p).1) →
    ps !! r = Some p → P p →
    ∃ p', (forEachPin body refs index0 ps).1 !! r = Some p' ∧ P p'.
Proof.
  induction refs as [|r0 rest IH]; intros index0 ps p Hbody Hp HP; [eauto|].
  cbn [forEachPin]. destruct (ps !! r0) as [pin|] eqn:E; [|by apply (IH _ _ p)].
  pose proof (Hbody index0 pin) as Hb0.
  destruct (body index0 pin) as [pin' [[]|e]]; cbn [fst] in *.
  - destruct (decide (r = r0)) as [->|Hne].
    + apply (IH _ _ pin'); [done|by rewrite lookup_insert_eq|].
      apply Hb0. congruence.
    + apply (IH _ _ p); [done| |done]. by rewrite lookup_insert_ne.
  - destruct (decide (r = r0)) as [->|Hne].
    + exists pin'. rewrite lookup_insert_eq. split; [done|].
      apply Hb0. congruence.
    + exists p. by rewrite lookup_insert_ne.
Qed.

(** ** updatePinPositions *)

(** A relation between stores that each of the four loops respects is
    respected by [updatePinPositions], however it ends. *)
Lemma updatePinPositions_chain (R : gmap Ref Pin → gmap Ref Pin → Prop)
    (c : Component) (ps : gmap Ref Pin) :
  (∀ s1 s2 s3, R s1 s2 → R s2 s3 → R s1 s3) →
  (∀ s, R s (placeInputPins c s).1) → (∀ s, R s (placeOutputPins c s).1) →
  (∀ s, R s (placePowerPins c s).1) → (∀ s, R s (placeGroundPins c s).1) →
  R ps (updatePinPositions c ps).1.
Proof.
  intros Htrans H1 H2 H3 H4. unfold updatePinPositions, andThen.
  pose proof (H1 ps) as R1.
  destruct (placeInputPins c ps) as [ps1 [[]|e]]; cbn [fst] in *; [|done].
  pose proof (H2 ps1) as R2.
  destruct (placeOutputPins c ps1) as [ps2 [[]|e]]; cbn [fst] in *; [|eauto].
  pose proof (H3 ps2) as R3.
  destruct (placePowerPins c ps2) as [ps3 [[]|e]]; cbn [fst] in *; [|eauto].
  pose proof (H4 ps3) as R4. eauto.
Qed.

(** [updatePinPositions] returns exactly when its four loops return. *)
Lemma updatePinPositions_returns (c : Component) (ps : gmap Ref Pin) :
  (updatePinPositions c ps).2 = Returns tt ↔
  ∃ ps1 ps2 ps3 ps4,
    placeInputPins c ps = (ps1, Returns tt)
    ∧ placeOutputPins c ps1 = (ps2, Returns tt)
    ∧ placePowerPins c ps2 = (ps3, Returns tt)
    ∧ placeGroundPins c ps3 = (ps4, Returns tt)
    ∧ (updatePinPositions c ps).1 = ps4.
Proof.
  unfold updatePinPositions, andThen. split.
  - destruct (placeInputPins c ps) as [ps1 [[]|e]] eqn:E1; [|done].
    destruct (placeOutputPins c ps1) as [ps2 [[]|e]] eqn:E2; [|done].
    destruct (placePowerPins c ps2) as [ps3 [[]|e]] eqn:E3; [|done].
    destruct (placeGroundPins c ps3) as [ps4 [[]|e]] eqn:E4; [|done].
    intros _. exists ps1, ps2, ps3, ps4. by rewrite ?E2, ?E3, ?E4.
  - intros (ps1 & ps2 & ps3 & ps4 & -> & -> & -> & -> & _). done.
Qed.

Lemma updatePinPositions_notin (c : Component) (ps : gmap Ref Pin) (r : Ref) :
  r ∉ getAllPins c → (updatePinPositions c ps).1 !! r = ps !! r.
Proof.
  unfold getAllPins. rewrite !not_elem_of_app. intros (Hi & Ho & Hg & Hp).
  apply (updatePinPositions_chain (λ s s', s' !! r = s !! r));
    [congruence|intros s; by apply forEachPin_notin..].
Qed.

Lemma updatePinPositions_is_Some (c : Component) (ps : gmap Ref Pin) (r : Ref) :
  is_Some ((updatePinPositions c ps).1 !! r) ↔ is_Some (ps !! r).
Proof.
  apply (updatePinPositions_chain (λ s s', is_Some (s' !! r) ↔ is_Some (s !! r)));
    [tauto|intros s; by apply forEachPin_is_Some..].
Qed.

Lemma updatePinPositions_keep (P : Pin → Prop) (c : Component)
    (ps : gmap Ref Pin) (r : Ref) (p : Pin) :
  (∀ p x, P p → P (withX p x)) → (∀ p y, P p → P (withY p y)) →
  ps !! r = Some p → P p →
  ∃ p', (updatePinPositions c ps).1 !! r = Some p' ∧ P p'.
Proof.
  intros HX HY Hp HP.
  apply (updatePinPositions_chain
           (λ s s', (∃ q, s !! r = Some q ∧ P q) → ∃ q', s' !! r = Some q' ∧ P q'));
    [tauto| | | | |eauto];
    intros s (q & Hq & HPq);
    apply (forEachPin_keep P _ r _ 0 s q); try done;
    intros i q0 HP0; by apply placeAt_keep.
Qed.

Lemma onBox_with (box : Rectangle) (p : Pin) (x y : Q) :
  (rect_x box <= x)%Q → (x <= rect_x box + rect_width box)%Q →
  (rect_y box <= y)%Q → (y <= rect_y box + rect_height box)%Q →
  onBox box (withY (withX p x) y).
Proof.
  intros H1 H2 H3 H4. unfold onBox, pointInRectangle. simpl.
  rewrite !andb_true_iff, !Qle_bool_iff. done.
Qed.

Lemma finiteBox_fields (c : Component) (box : Rectangle) :
  finiteBox c box →
  comp_x c = Val (rect_x box) ∧ comp_y c = Val (rect_y box)
  ∧ comp_width c = Val (rect_width box) ∧ comp_height c = Val (rect_height box).
Proof.
  unfold finiteBox, asRectangle, getBoundingBox. cbn.
  destruct (comp_x c), (comp_y c), (comp_width c), (comp_height c);
    try done. by intros [= <-].
Qed.

(** After an [updatePinPositions] that returns, every pin of a component of
    finite numbers and non-negative size lies on the component's bounding
    box. *)
Lemma updatePinPositions_on_box (c : Component) (box : Rectangle)
    (ps : gmap Ref Pin) (r : Ref) :
  (updatePinPositions c ps).2 = Returns tt →
  finiteBox c box → (0 <= rect_width box)%Q → (0 <= rect_height box)%Q →
  r ∈ getAllPins c → is_Some (ps !! r) →
  ∃ p', (updatePinPositions c ps).1 !! r = Some p' ∧ onBox box p'.
Proof.
  intros Hret Hbox Hw Hh Hin Hsome.
  apply finiteBox_fields in Hbox as (Ex & Ey & Ew & Eh).
  unfold getAllPins in Hin. rewrite !elem_of_app in Hin.
  apply updatePinPositions_returns in Hret
    as (ps1 & ps2 & ps3 & ps4 & E1 & E2 & E3 & E4 & ->).
  unfold placeInputPins, placeOutputPins, placePowerPins, placeGroundPins in *.
  assert (S1 : is_Some (ps1 !! r)).
  { change ps1 with (ps1, @Returns unit tt).1. rewrite <- E1.
    by apply forEachPin_is_Some. }
  assert (S2 : is_Some (ps2 !! r)).
  { change ps2 with (ps2, @Returns unit tt).1. rewrite <- E2.
    by apply forEachPin_is_Some. }
  assert (S3 : is_Some (ps3 !! r)).
  { change ps3 with (ps3, @Returns unit tt).1. rewrite <- E3.
    by apply forEachPin_is_Some. }
  assert (Hplace : ∀ a b p, (placeAt a b p).2 = Returns tt →
            (∀ x y, a = Val x → b = Val y →
               (rect_x box <= x)%Q ∧ (x <= rect_x box + rect_width box)%Q
               ∧ (rect_y box <= y)%Q ∧ (y <= rect_y box + rect_height box)%Q) →
            onBox box (placeAt a b p).1).
  { intros a b p Hr Hab. destruct (placeAt_returns a b p Hr) as (x & y & -> & -> & ->).
    destruct (Hab x y eq_refl eq_refl) as (? & ? & ? & ?). by apply onBox_with. }
  assert (Hside : ∀ base extent i n v, (i < n)%nat →
            (0 <= extent)%Q →
            numAdd (Val base) (numSpread (Val extent) i n) = Val v →
            (base <= v)%Q ∧ (v <= base + extent)%Q).
  { intros base extent i n v Hi Hext Hv.
    apply numAdd_Val in Hv as (x & s & [= <-] & Hs & ->).
    apply numSpread_Val in Hs as (e & [= <-] & ->).
    destruct (spread_bounds extent i n Hext Hi). lra. }
  assert (Hsum : ∀ base extent v, (0 <= extent)%Q →
            numAdd (Val base) (Val extent) = Val v → (base <= v)%Q ∧ (v <= base + extent)%Q).
  { intros base extent v Hext Hv.
    apply numAdd_Val in Hv as (x & s & [= <-] & [= <-] & ->). lra. }
  assert (G : ∃ p', ps4 !! r = Some p' ∧ onBox box p');
    [|done].
  change ps4 with (ps4, @Returns unit tt).1. rewrite <- E4.
  apply (forEachPin_establish (onBox box)); [by rewrite E4| |done|].
  { intros _ i p Hi Hr. apply Hplace; [done|]. rewrite Ex, Ey, Ew, Eh.
    intros x y Hx Hy.
    destruct (Hside _ _ _ _ _ (proj2 Hi) Hw Hx).
    destruct (Hsum _ _ _ Hh Hy). done. }
  destruct (decide (r ∈ _groundPins c)) as [?|Hg]; [by left|right].
  change ps3 with (ps3, @Returns unit tt).1. rewrite <- E3.
  apply (forEachPin_establish (onBox box)); [by rewrite E3| |done|].
  { intros _ i p Hi Hr. apply Hplace; [done|]. rewrite Ex, Ey, Ew.
    intros x y Hx [= <-].
    destruct (Hside _ _ _ _ _ (proj2 Hi) Hw Hx). split_and!; lra. }
  destruct (decide (r ∈ _powerPins c)) as [?|Hp]; [by left|right].
  change ps2 with (ps2, @Returns unit tt).1. rewrite <- E2.
  apply (forEachPin_establish (onBox box)); [by rewrite E2| |done|].
  { intros _ i p Hi Hr. apply Hplace; [done|]. rewrite Ex, Ey, Ew, Eh.
    intros x y Hx Hy.
    destruct (Hside _ _ _ _ _ (proj2 Hi) Hh Hy).
    destruct (Hsum _ _ _ Hw Hx). done. }
  destruct (decide (r ∈ _outputPins c)) as [?|Ho]; [by left|right].
  change ps1 with (ps1, @Returns unit tt).1. rewrite <- E1.
  apply (forEachPin_establish (onBox box)); [by rewrite E1| |done|].
  { intros _ i p Hi Hr. apply Hplace; [done|]. rewrite Ex, Ey, Eh.
    intros x y [= <-] Hy.
    destruct (Hside _ _ _ _ _ (proj2 Hi) Hh Hy). split_and!; lra. }
  left. tauto.
Qed.

(** Within the range of magnitudes 2^1000 and with fewer than 2^20 pins no
    sum or product of [updatePinPositions] overflows. *)
Lemma moderate_bound :
  (0 < inject_Z (2 ^ 1000))%Q
  ∧ (2097152 * inject_Z (2 ^ 1000) < overflowBound)%Q.
Proof. split; by vm_compute. Qed.

Lemma numAdd_moderate (a b : Q) :
  moderate a → (0 <= b)%Q → (b <= 1048576 * inject_Z (2 ^ 1000))%Q →
  numAdd (Val a) (Val b) = Val (a + b).
Proof.
  intros [Ha1 Ha2] Hb1 Hb2. destruct moderate_bound as [HB HOB].
  cbn [numAdd]. apply norm_in_range; lra.
Qed.

Lemma numSpread_moderate (extent : Q) (index count : nat) :
  (0 <= extent)%Q → (extent <= inject_Z (2 ^ 1000))%Q →
  index < count → (Z.of_nat count < 2 ^ 20)%Z →
  numSpread (Val extent) index count = Val (spread extent index count).
Proof.
  intros He1 He2 Hi Hn. destruct moderate_bound as [HB HOB].
  cbn [numSpread]. rewrite norm_in_range; [done| |].
  - assert (Hk : (0 < inject_Z (Z.of_nat index + 1))%Q).
    { change 0%Q with (inject_Z 0). rewrite <- Zlt_Qlt. lia. }
    nra.
  - assert (Hk : (0 < inject_Z (Z.of_nat index + 1))%Q).
    { change 0%Q with (inject_Z 0). rewrite <- Zlt_Qlt. lia. }
    assert (Hk' : (inject_Z (Z.of_nat index + 1) <= 1048576)%Q).
    { change 1048576%Q with (inject_Z (2 ^ 20)). rewrite <- Zle_Qle. lia. }
    nra.
Qed.

Lemma updatePinPositions_total (c : Component) (box : Rectangle)
    (ps : gmap Ref Pin) :
  finiteBox c box →
  moderate (rect_x box) → moderate (rect_y box) →
  (0 <= rect_width box)%Q → (rect_width box <= inject_Z (2 ^ 1000))%Q →
  (0 <= rect_height box)%Q → (rect_height box <= inject_Z (2 ^ 1000))%Q →
  (Z.of_nat (length (getAllPins c)) < 2 ^ 20)%Z →
  (updatePinPositions c ps).2 = Returns tt.
Proof.
  intros Hbox Hx Hy Hw1 Hw2 Hh1 Hh2 Hlen.
  apply finiteBox_fields in Hbox as (Ex & Ey & Ew & Eh).
  unfold getAllPins in Hlen. rewrite !length_app in Hlen.
  destruct moderate_bound as [HB HOB].
  assert (Hrow : ∀ i n, i < n → (Z.of_nat n < 2 ^ 20)%Z →
            numAdd (Val (rect_y box)) (numSpread (Val (rect_height box)) i n)
            = Val (rect_y box + spread (rect_height box) i n)).
  { intros i n Hi Hn. rewrite numSpread_moderate by done.
    destruct (spread_bounds (rect_height box) i n Hh1 Hi).
    apply numAdd_moderate; [done|lra|lra]. }
  assert (Hcol : ∀ i n, i < n → (Z.of_nat n < 2 ^ 20)%Z →
            numAdd (Val (rect_x box)) (numSpread (Val (rect_width box)) i n)
            = Val (rect_x box + spread (rect_width box) i n)).
  { intros i n Hi Hn. rewrite numSpread_moderate by done.
    destruct (spread_bounds (rect_width box) i n Hw1 Hi).
    apply numAdd_moderate; [done|lra|lra]. }
  assert (Hright : numAdd (Val (rect_x box)) (Val (rect_width box))
                   = Val (rect_x box + rect_width box))
    by (apply numAdd_moderate; [done|lra|lra]).
  assert (Hbottom : numAdd (Val (rect_y box)) (Val (rect_height box))
                    = Val (rect_y box + rect_height box))
    by (apply numAdd_moderate; [done|lra|lra]).
  unfold updatePinPositions, andThen.
  assert (R1 : (placeInputPins c ps).2 = Returns tt).
  { apply forEachPin_total. intros i p Hi. rewrite Ex, Ey, Eh, Hrow by lia. done. }
  destruct (placeInputPins c ps) as [ps1 [[]|?]]; [|done].
  assert (R2 : (placeOutputPins c ps1).2 = Returns tt).
  { apply forEachPin_total. intros i p Hi.
    rewrite Ex, Ey, Ew, Eh, Hright, Hrow by lia. done. }
  destruct (placeOutputPins c ps1) as [ps2 [[]|?]]; [|done].
  assert (R3 : (placePowerPins c ps2).2 = Returns tt).
  { apply forEachPin_total. intros i p Hi. rewrite Ex, Ey, Ew, Hcol by lia. done. }
  destruct (placePowerPins c ps2) as [ps3 [[]|?]]; [|done].
  apply forEachPin_total. intros i p Hi.
  rewrite Ex, Ey, Ew, Eh, Hbottom, Hcol by lia. done.
Qed.

(** ** initializePins *)

Lemma markPins_notin (this : Ref) (type : PinType) (refs : list Ref)
    (ps : gmap Ref Pin) (r : Ref) :
  r ∉ refs → markPins this type refs ps !! r = ps !! r.
Proof. apply forEachPin_notin. Qed.

Lemma markPins_is_Some (this : Ref) (type : PinType) (refs : list Ref)
    (ps : gmap Ref Pin) (r : Ref) :
  is_Some (markPins this type refs ps !! r) ↔ is_Some (ps !! r).
Proof. apply forEachPin_is_Some. Qed.

Lemma markPins_establish (P : Pin → Prop) (this : Ref) (type : PinType)
    (refs : list Ref) (ps : gmap Ref Pin) (r : Ref) :
  (r ∈ refs → ∀ p, P (withComponent (withType p type) (Some this))) →
  is_Some (ps !! r) →
  (r ∈ refs ∨ ∃ p, ps !! r = Some p ∧ P p) →
  ∃ p', markPins this type refs ps !! r = Some p' ∧ P p'.
Proof.
  intros Hbody Hsome Hcase. unfold markPins.
  apply (forEachPin_establish P); [by apply forEachPin_total| |done|done].
  intros Hin i p _ _. by apply Hbody.
Qed.

Lemma markPins_keep (P : Pin → Prop) (this : Ref) (type : PinType)
    (refs : list Ref) (ps : gmap Ref Pin) (r : Ref) (p : Pin) :
  (∀ p, P p → P (withComponent (withType p type) (Some this))) →
  ps !! r = Some p → P p →
  ∃ p', markPins this type refs ps !! r = Some p' ∧ P p'.
Proof.
  intros Hbody Hp HP. unfold markPins.
  apply (forEachPin_keep P _ r refs 0 ps p); [|done|done].
  intros i q HQ. by apply Hbody.
Qed.

Lemma initializePins_notin (this : Ref) (c : Component) (ps : gmap Ref Pin) (r : Ref) :
  r ∉ getAllPins c → (initializePins this c ps).1 !! r = ps !! r.
Proof.
  intros Hr. unfold initializePins. cbv zeta.
  rewrite updatePinPositions_notin by done.
  unfold getAllPins in Hr. rewrite !not_elem_of_app in Hr.
  destruct Hr as (Hi & Ho & Hg & Hp). by rewrite !markPins_notin.
Qed.

Lemma initializePins_is_Some (this : Ref) (c : Component) (ps : gmap Ref Pin) (r : Ref) :
  is_Some ((initializePins this c ps).1 !! r) ↔ is_Some (ps !! r).
Proof.
  unfold initializePins. cbv zeta.
  by rewrite updatePinPositions_is_Some, !markPins_is_Some.
Qed.

(** What [initializePins] leaves in a pin of the component, however it
    ends. *)
Lemma initializePins_marks (this : Ref) (c : Component) (ps : gmap Ref Pin)
    (r : Ref) (p : Pin) :
  r ∈ getAllPins c → ps !! r = Some p →
  ∃ p', (initializePins this c ps).1 !! r = Some p'
        ∧ pin_component p' = Some this
        ∧ typedBy c r p'
        ∧ samePinIdentity p p'.
Proof.
  intros Hin Hp. unfold initializePins. cbv zeta.
  set (ps1 := markPins this INPUT (_inputPins c) ps).
  set (ps2 := markPins this OUTPUT (_outputPins c) ps1).
  set (ps3 := markPins this POWER (_powerPins c) ps2).
  set (ps4 := markPins this GROUND (_groundPins c) ps3).
  assert (S1 : is_Some (ps1 !! r)) by (apply markPins_is_Some; eauto).
  assert (S2 : is_Some (ps2 !! r)) by (by apply markPins_is_Some).
  assert (S3 : is_Some (ps3 !! r)) by (by apply markPins_is_Some).
  assert (Hin' := Hin). unfold getAllPins in Hin'. rewrite !elem_of_app in Hin'.
  assert (H4 : ∃ p4, ps4 !! r = Some p4
                     ∧ (pin_component p4 = Some this ∧ typedBy c r p4)).
  { apply (markPins_establish (λ q, pin_component q = Some this ∧ typedBy c r q));
      [intros Hr q; split; [done|]; unfold typedBy; simpl; tauto|done|].
    destruct (decide (r ∈ _groundPins c)) as [?|Hg]; [by left|right].
    apply (markPins_establish (λ q, pin_component q = Some this ∧ typedBy c r q));
      [intros Hr q; split; [done|]; unfold typedBy; simpl; tauto|done|].
    destruct (decide (r ∈ _powerPins c)) as [?|Hpw]; [by left|right].
    apply (markPins_establish (λ q, pin_component q = Some this ∧ typedBy c r q));
      [intros Hr q; split; [done|]; unfold typedBy; simpl; tauto|done|].
    destruct (decide (r ∈ _outputPins c)) as [?|Ho]; [by left|right].
    apply (markPins_establish (λ q, pin_component q = Some this ∧ typedBy c r q));
      [intros Hr q; split; [done|]; unfold typedBy; simpl; tauto|eauto|].
    left. tauto. }
  assert (I4 : ∃ p4, ps4 !! r = Some p4 ∧ samePinIdentity p p4).
  { unfold ps4, ps3, ps2, ps1.
    do 4 (match goal with
          | |- ∃ p', markPins ?t ?ty ?refs ?s !! r = Some p' ∧ _ =>
              cut (∃ q, s !! r = Some q ∧ samePinIdentity p q);
              [intros (q & Hq & HPq);
               apply (markPins_keep (samePinIdentity p) t ty refs s r q);
               [intros ? HQ; exact HQ|done|done]|]
          end).
    exists p. split; [done|]. by unfold samePinIdentity. }
  destruct H4 as (p4 & Hp4 & Hc4 & Ht4), I4 as (p4' & Hp4' & Hi4).
  assert (p4' = p4) as -> by congruence.
  destruct (updatePinPositions_keep
              (λ q, pin_component q = Some this ∧ typedBy c r q ∧ samePinIdentity p q)
              c ps4 r p4) as (p5 & Hp5 & Hc5 & Ht5 & Hi5); [| |done|done|].
  { intros q ? (? & ? & ?). done. }
  { intros q ? (? & ? & ?). done. }
  exists p5. done.
Qed.

(** Where [initializePins] leaves a pin of the component when it returns. *)
Lemma initializePins_on_box (this : Ref) (c : Component) (box : Rectangle)
    (ps : gmap Ref Pin) (r : Ref) :
  (initializePins this c ps).2 = Returns tt →
  finiteBox c box → (0 <= rect_width box)%Q → (0 <= rect_height box)%Q →
  r ∈ getAllPins c → is_Some (ps !! r) →
  ∃ p', (initializePins this c ps).1 !! r = Some p' ∧ onBox box p'.
Proof.
  unfold initializePins. cbv zeta. intros Hret Hbox Hw Hh Hin Hsome.
  apply updatePinPositions_on_box; try done.
  by rewrite !markPins_is_Some.
Qed.

(** The object built by the constructor, and the call it ends with. *)
Lemma newComponent_inv (this : Ref) (ps : gmap Ref Pin)
    (inputPins outputPins groundPins powerPins : list Ref) (name : string)
    (x y width height : Num) :
  let c0 := {| _inputPins := inputPins; _outputPins := outputPins;
               _groundPins := groundPins; _powerPins := powerPins;
               comp_name := name; comp_x := x; comp_y := y;
               comp_width := numMax width 20; comp_height := numMax height 20 |} in
  let r := newComponent this ps inputPins outputPins groundPins powerPins
             name x y width height in
  r.1 = (initializePins this c0 ps).1
  ∧ (∀ c, r.2 = Returns c → c = c0 ∧ (initializePins this c0 ps).2 = Returns tt)
  ∧ ((initializePins this c0 ps).2 = Returns tt → r.2 = Returns c0)
  ∧ (∀ e, r.2 = Raises e ↔ (initializePins this c0 ps).2 = Raises e).
Proof.
  cbv zeta. unfold newComponent.
  destruct (initializePins _ _ _) as [ps' [[]|e]]; cbn [fst snd].
  - split; [done|]. split; [by intros c [= <-]|]. split; [done|]. done.
  - split; [done|]. split; [done|]. split; [done|]. intros e'. split; by intros [= <-].
Qed.

Lemma Qmax_ge_20 (v : Q) : (20 <= Qmax v 20)%Q.
Proof. apply Q.le_max_r. Qed.

Lemma finiteBox_numMax (c : Component) (box : Rectangle) (width height : Num) :
  finiteBox c box →
  comp_width c = numMax width 20 → comp_height c = numMax height 20 →
  (20 <= rect_width box)%Q ∧ (20 <= rect_height box)%Q.
Proof.
  intros Hbox Ew Eh. apply finiteBox_fields in Hbox as (_ & _ & Ew' & Eh').
  rewrite Ew in Ew'. rewrite Eh in Eh'.
  destruct width as [w| | |], height as [h| | |]; try done;
    cbn [numMax] in *; injection Ew' as <-; injection Eh' as <-;
    (split; [apply Qmax_ge_20 || apply Qle_refl|apply Qmax_ge_20 || apply Qle_refl]).
Qed.

(** X16: the constructor of [Component] checks none of its arguments.  For
    finite arguments of magnitude at most 2^1000 and fewer than 2^20 pins it
    returns.  Whenever it returns, the width and the height are the
    arguments clamped to at least 20 by [Math.max] and the pins handed in
    have been taken over: each of them has the component as its owner, the
    type of a group that lists it, and, when the four numbers of the
    component are finite, a position on its bounding box; its name and
    counters are kept.  However it ends, no other pin is touched. *)
Theorem newComponent_places_pins
    (this : Ref) (ps : gmap Ref Pin)
    (inputPins outputPins groundPins powerPins : list Ref) (name : string)
    (x y width height : Num) :
  let r := newComponent this ps inputPins outputPins groundPins powerPins
             name x y width height in
  (∀ qx qy qw qh,
     x = Val qx → y = Val qy → width = Val qw → height = Val qh →
     moderate qx → moderate qy → moderate qw → moderate qh →
     (Z.of_nat (length (inputPins ++ outputPins ++ groundPins ++ powerPins))
      < 2 ^ 20)%Z →
     ∃ c, r.2 = Returns c)
  ∧ (∀ c, r.2 = Returns c →
       comp_width c = numMax width 20 ∧ comp_height c = numMax height 20
       ∧ getAllPins c = inputPins ++ outputPins ++ groundPins ++ powerPins
       ∧ ∀ pin p, pin ∈ getAllPins c → ps !! pin = Some p →
           ∃ p', r.1 !! pin = Some p'
                 ∧ pin_component p' = Some this
                 ∧ typedBy c pin p'
                 ∧ samePinIdentity p p'
                 ∧ ∀ box, finiteBox c box → onBox box p')
  ∧ (∀ pin, pin ∉ inputPins ++ outputPins ++ groundPins ++ powerPins →
       r.1 !! pin = ps !! pin).
Proof.
  intros r.
  destruct (newComponent_inv this ps inputPins outputPins groundPins powerPins
              name x y width height) as (H1 & Hret & Htot & _).
  fold r in H1, Hret, Htot.
  set (c0 := {| _inputPins := inputPins; _outputPins := outputPins;
                _groundPins := groundPins; _powerPins := powerPins;
                comp_name := name; comp_x := x; comp_y := y;
                comp_width := numMax width 20;
                comp_height := numMax height 20 |}) in *.
  split; [|split].
  - intros qx qy qw qh -> -> -> -> Hx Hy [Hw1 Hw2] [Hh1 Hh2] Hlen.
    exists c0. apply Htot. unfold initializePins. cbv zeta.
    pose proof (Qmax_ge_20 qw). pose proof (Qmax_ge_20 qh).
    destruct moderate_bound as [HB _].
    apply (updatePinPositions_total c0
             {| rect_x := qx; rect_y := qy;
                rect_width := Qmax qw 20; rect_height := Qmax qh 20 |});
      cbn [rect_x rect_y rect_width rect_height]; try done; try lra.
    + apply Q.max_lub; [done|]. by vm_compute.
    + apply Q.max_lub; [done|]. by vm_compute.
  - intros c Hc. destruct (Hret c Hc) as [-> Hinit].
    split; [done|]. split; [done|]. split; [done|].
    intros pin p Hpin Hp. rewrite H1.
    destruct (initializePins_marks this c0 ps pin p Hpin Hp)
      as (p' & Hp' & Hown & Htype & Hid).
    exists p'. split_and!; try done.
    intros box Hbox.
    destruct (finiteBox_numMax c0 box width height Hbox eq_refl eq_refl) as [Hw Hh].
    destruct (initializePins_on_box this c0 box ps pin Hinit Hbox) as (q & Hq & Hon);
      [lra|lra|done|eauto|].
    congruence.
  - intros pin Hpin. rewrite H1. by apply initializePins_notin.
Qed.

(** X18: [Component.setSize(width, height)] throws and changes nothing when
    [width <= 0] or [height <= 0].  Any other pair, NaN and Infinity
    included, is stored as given (the minimum of 20 of the constructor is
    not applied) before the pins are moved, so also when a pin setter then
    throws, as it does for a NaN width and a pin on the right, top or bottom
    side.  When the call returns and the numbers of the component are
    finite, every pin of the component is on the new bounding box. *)
Theorem Component_setSize_outcome
    (c : Component) (ps : gmap Ref Pin) (width height : Num) :
  let r := Component_setSize c ps width height in
  (numLe0 width = true ∨ numLe0 height = true →
   r = ((c, ps), Raises NonPositiveSize))
  ∧ (numLe0 width = false → numLe0 height = false →
     getBoundingBox r.1.1
     = {| nr_x := comp_x c; nr_y := comp_y c;
          nr_width := width; nr_height := height |}
     ∧ getAllPins r.1.1 = getAllPins c
     ∧ (r.2 = Returns tt →
        ∀ box pin, finiteBox r.1.1 box → pin ∈ getAllPins c → is_Some (ps !! pin) →
          ∃ p', r.1.2 !! pin = Some p' ∧ onBox box p')
     ∧ (width = NaN →
        ∀ pin, pin ∈ _outputPins c ++ _groundPins c ++ _powerPins c →
          is_Some (ps !! pin) → r.2 ≠ Returns tt)).
Proof.
  unfold Component_setSize. cbv zeta. split.
  - intros [-> | ->]; [done|]. by rewrite orb_true_r.
  - intros Hw0 Hh0. rewrite Hw0, Hh0. cbn [orb]. unfold assignAndUpdate. cbn [fst snd].
    split; [done|]. split; [done|]. split.
    + intros Hret box pin Hbox Hpin Hsome.
      assert (Hpos : (0 <= rect_width box)%Q ∧ (0 <= rect_height box)%Q).
      { apply finiteBox_fields in Hbox as (_ & _ & Ew & Eh).
        cbn [withSize comp_width comp_height] in Ew, Eh. subst width height.
        cbn [numLe0] in Hw0, Hh0.
        split; apply Qlt_le_weak, Qnot_le_lt; intros H;
          apply Qle_bool_iff in H; congruence. }
      destruct Hpos. by apply updatePinPositions_on_box.
    + intros -> pin Hpin Hsome Hret.
      apply updatePinPositions_returns in Hret
        as (ps1 & ps2 & ps3 & ps4 & E1 & E2 & E3 & E4 & _).
      assert (S1 : is_Some (ps1 !! pin)).
      { change ps1 with (ps1, @Returns unit tt).1. rewrite <- E1.
        by apply forEachPin_is_Some. }
      assert (S2 : is_Some (ps2 !! pin)).
      { change ps2 with (ps2, @Returns unit tt).1. rewrite <- E2.
        by apply forEachPin_is_Some. }
      assert (S3 : is_Some (ps3 !! pin)).
      { change ps3 with (ps3, @Returns unit tt).1. rewrite <- E3.
        by apply forEachPin_is_Some. }
      cbn [withSize _outputPins _groundPins _powerPins] in Hpin.
      rewrite !elem_of_app in Hpin.
      assert (Hnan : ∀ b p, (placeAt NaN b p).2 ≠ Returns tt) by done.
      destruct Hpin as [Hpin|[Hpin|Hpin]].
      * apply (f_equal snd) in E2. unfold placeOutputPins in E2.
        destruct (forEachPin_returns _ _ _ _ E2 pin Hpin S1) as (i & p & Hbody).
        cbn [withSize comp_x comp_width] in Hbody.
        rewrite numAdd_NaN_r in Hbody. by apply Hnan in Hbody.
      * apply (f_equal snd) in E4. unfold placeGroundPins in E4.
        destruct (forEachPin_returns _ _ _ _ E4 pin Hpin S3) as (i & p & Hbody).
        cbn [withSize comp_x comp_width numSpread] in Hbody.
        rewrite numAdd_NaN_r in Hbody. by apply Hnan in Hbody.
      * apply (f_equal snd) in E3. unfold placePowerPins in E3.
        destruct (forEachPin_returns _ _ _ _ E3 pin Hpin S2) as (i & p & Hbody).
        cbn [withSize comp_x comp_width numSpread] in Hbody.
        rewrite numAdd_NaN_r in Hbody. by apply Hnan in Hbody.
Qed.

Lemma createLShapedPath_direct (start end_ : Point) (obstacles : list Rectangle) :
  existsb (pointInRectangle start) obstacles = true →
  createLShapedPath start end_ obstacles = [start; end_].
Proof.
  intros Hin. unfold createLShapedPath.
  destruct (isLineClear start _ obstacles) eqn:E1;
    [apply isLineClear_start in E1; congruence|].
  destruct (isLineClear start {| pt_x := pt_x start; pt_y := pt_y end_ |} obstacles)
    eqn:E2; [apply isLineClear_start in E2; congruence|].
  done.
Qed.

(** X19: a pin placed by a constructor of [Component] that returned lies on
    the component's bounding box; when the numbers of that box are finite
    and the box is among the obstacles, as in [buildCircuit], the fallback
    for a wire that starts at the pin is the direct line to the end point:
    [createLShapedPath] never bends it. *)
Theorem component_pin_fallback_is_direct
    (this : Ref) (ps ps' : gmap Ref Pin)
    (inputPins outputPins groundPins powerPins : list Ref) (name : string)
    (x y width height : Num) (c : Component) (box : Rectangle)
    (r : Ref) (p' : Pin) (obstacles : list Rectangle) (end_ : Point) :
  newComponent this ps inputPins outputPins groundPins powerPins
    name x y width height = (ps', Returns c) →
  finiteBox c box →
  r ∈ getAllPins c →
  ps' !! r = Some p' →
  box ∈ obstacles →
  createLShapedPath (getPosition p') end_ obstacles = [getPosition p'; end_].
Proof.
  intros Hnew Hbox Hin Hp' Hobs. apply createLShapedPath_direct.
  apply existsb_exists. exists box. split; [by apply list_elem_of_In|].
  destruct (newComponent_inv this ps inputPins outputPins groundPins powerPins
              name x y width height) as (H1 & Hret & _).
  rewrite Hnew in H1, Hret. cbn [fst snd] in H1, Hret.
  destruct (Hret c eq_refl) as [-> Hinit].
  match type of Hinit with (initializePins _ ?c _).2 = _ => set (c0 := c) in * end.
  destruct (finiteBox_numMax c0 box width height Hbox eq_refl eq_refl) as [Hw Hh].
  assert (Hsome : is_Some (ps !! r)).
  { apply (initializePins_is_Some this c0). rewrite <- H1, Hp'. eauto. }
  destruct (initializePins_on_box this c0 box ps r Hinit Hbox) as (q & Hq & Hon);
    [lra|lra|done|done|].
  rewrite <- H1, Hp' in Hq. by injection Hq as ->.
Qed.

Lemma component_pin_fallback_is_direct_witness :
  let r := newComponent 7 twoPins [0] [1] [] [] "R1" (Val 100) (Val 50) (Val 60) (Val 40) in
  let p' := default (newPin "out") (r.1 !! 1) in
  createLShapedPath (getPosition p') (mkPoint 300 300)
    [ {| rect_x := 100; rect_y := 50; rect_width := 60; rect_height := 40 |} ]
  = [getPosition p'; mkPoint 300 300].
Proof.
  intros r p'.
  apply (component_pin_fallback_is_direct 7 twoPins r.1 [0] [1] [] [] "R1"
           (Val 100) (Val 50) (Val 60) (Val 40)
           {| _inputPins := [0]; _outputPins := [1]; _groundPins := [];
              _powerPins := []; comp_name := "R1"; comp_x := Val 100;
              comp_y := Val 50; comp_width := Val 60; comp_height := Val 40 |}
           {| rect_x := 100; rect_y := 50; rect_width := 60; rect_height := 40 |}
           1 p').
  - by vm_compute.
  - reflexivity.
  - apply list_elem_of_further, list_elem_of_here.
  - by vm_compute.
  - apply list_elem_of_here.
Defined.

(** X20: a [Resistor] whose resistance is not a positive finite number is
    rejected only after the constructor of [Component] has run.  The call
    throws: the error of the resistance when that constructor returned, its
    exception otherwise.  In both cases the pins handed in are left as that
    constructor left them: each has been given the new object as owner and
    a type other than NULL. *)
Theorem newResistor_invalid_resistance
    (this : Ref) (ps : gmap Ref Pin)
    (inputPins outputPins groundPins powerPins : list Ref) (name : string)
    (x y width height : Num) (_resistance : JsNumber) :
  (_resistance = NonFinite ∨ ∃ v, _resistance = Number v ∧ (v <= 0)%Q) →
  let sup := newComponent this ps inputPins outputPins groundPins powerPins
               name x y width height in
  let res := newResistor this ps inputPins outputPins groundPins powerPins
               name x y width height _resistance in
  res.1 = sup.1
  ∧ (∀ c, sup.2 = Returns c → res.2 = Raises InvalidResistance)
  ∧ (∀ e, sup.2 = Raises e → res.2 = Raises e)
  ∧ ∀ r p, r ∈ inputPins ++ outputPins ++ groundPins ++ powerPins →
      ps !! r = Some p →
      ∃ p', res.1 !! r = Some p'
            ∧ pin_component p' = Some this
            ∧ pin_type p' ≠ NULL.
Proof.
  intros Hres sup res.
  assert (H1 : res.1 = sup.1).
  { unfold res, newResistor. fold sup. destruct sup as [ps' [c|e]]; [|done].
    destruct Hres as [->|(v & -> & Hv)]; [done|].
    apply Qle_bool_iff in Hv. by rewrite Hv. }
  split; [done|]. split; [|split].
  - intros c Hc. unfold res, newResistor. fold sup.
    destruct sup as [ps' [c'|e]]; [|done].
    destruct Hres as [->|(v & -> & Hv)]; [done|].
    apply Qle_bool_iff in Hv. by rewrite Hv.
  - intros e He. unfold res, newResistor. fold sup.
    destruct sup as [ps' [c'|e']]; [done|]. cbn [snd] in *. congruence.
  - intros r p Hr Hp. rewrite H1. unfold sup.
    destruct (newComponent_inv this ps inputPins outputPins groundPins powerPins
                name x y width height) as (-> & _).
    match goal with |- context [initializePins _ ?c _] => set (c0 := c) end.
    destruct (initializePins_marks this c0 ps r p Hr Hp) as (q & Hq & Hc & Ht & _).
    exists q. split_and!; try done.
    destruct Ht as [[-> _]|[[-> _]|[[-> _]|[-> _]]]]; done.
Qed.

Lemma newResistor_invalid_resistance_witness :
  let sup := newComponent 7 twoPins [0] [1] [] [] "R1"
               (Val 100) (Val 50) (Val 60) (Val 40) in
  let res := newResistor 7 twoPins [0] [1] [] [] "R1"
               (Val 100) (Val 50) (Val 60) (Val 40) (Number 0) in
  res.1 = sup.1
  ∧ (∀ c, sup.2 = Returns c → res.2 = Raises InvalidResistance)
  ∧ (∀ e, sup.2 = Raises e → res.2 = Raises e)
  ∧ ∀ r p, r ∈ [0] ++ [1] ++ [] ++ [] →
      twoPins !! r = Some p →
      ∃ p', res.1 !! r = Some p'
            ∧ pin_component p' = Some 7
            ∧ pin_type p' ≠ NULL.
Proof.
  apply (newResistor_invalid_resistance 7 twoPins [0] [1] [] [] "R1"
           (Val 100) (Val 50) (Val 60) (Val 40) (Number 0)).
  right. exists 0%Q. split; [reflexivity|]. by vm_compute.
Defined.

(** ** The invariant of a component *)

Lemma updatePinPositions_wellPlaced (c : Component) (box : Rectangle)
    (ps : gmap Ref Pin) :
  (updatePinPositions c ps).2 = Returns tt →
  finiteBox c box → (0 < rect_width box)%Q → (0 < rect_height box)%Q →
  wellPlaced c (updatePinPositions c ps).1.
Proof.
  intros Hret Hbox Hw Hh. exists box. split_and!; try done. intros r p Hr Hp.
  destruct (updatePinPositions_on_box c box ps r) as (p' & Hp' & Hon);
    [done|done|lra|lra|done| |congruence].
  apply (updatePinPositions_is_Some c). rewrite Hp. eauto.
Qed.

Lemma Qle_bool_false_lt (v : Q) : Qle_bool v 0 = false → (0 < v)%Q.
Proof.
  intros H. apply Qnot_le_lt. intros Hle. apply Qle_bool_iff in Hle. congruence.
Qed.

(** A call with finite arguments that returns keeps the invariant. *)
Lemma runCall_wellPlaced (st st' : CompState) (call : ComponentCall) :
  wellPlaced st.1 st.2 → finiteCall call →
  runCall st call = (st', Returns tt) →
  wellPlaced st'.1 st'.2.
Proof.
  destruct st as [c ps]. intros (box & Hbox & Hw & Hh & Hpins) Hfin.
  cbn [fst snd] in *.
  pose proof (finiteBox_fields c box Hbox) as (Ex & Ey & Ew & Eh).
  assert (Hupd : ∀ c' box', finiteBox c' box' →
            (0 < rect_width box')%Q → (0 < rect_height box')%Q →
            assignAndUpdate c' ps = (st', Returns tt) →
            wellPlaced st'.1 st'.2).
  { intros c' box' Hbox' Hw' Hh'. unfold assignAndUpdate. intros [= <- Hret].
    cbn [fst snd]. by apply updatePinPositions_wellPlaced with box'. }
  destruct call as [[v|]|[v|]|[v|]|[v|]|x y|width height];
    cbn [runCall fst snd Component_set_x Component_set_y Component_set_width
         Component_set_height Component_setPosition finiteCall] in *;
    try done.
  - apply (Hupd _ {| rect_x := v; rect_y := rect_y box;
                     rect_width := rect_width box; rect_height := rect_height box |});
      [|done|done].
    unfold finiteBox, asRectangle. cbn. by rewrite Ey, Ew, Eh.
  - apply (Hupd _ {| rect_x := rect_x box; rect_y := v;
                     rect_width := rect_width box; rect_height := rect_height box |});
      [|done|done].
    unfold finiteBox, asRectangle. cbn. by rewrite Ex, Ew, Eh.
  - destruct (Qle_bool v 0) eqn:E; [done|].
    apply (Hupd _ {| rect_x := rect_x box; rect_y := rect_y box;
                     rect_width := v; rect_height := rect_height box |});
      [|by apply Qle_bool_false_lt|done].
    unfold finiteBox, asRectangle. cbn. by rewrite Ex, Ey, Eh.
  - destruct (Qle_bool v 0) eqn:E; [done|].
    apply (Hupd _ {| rect_x := rect_x box; rect_y := rect_y box;
                     rect_width := rect_width box; rect_height := v |});
      [|done|by apply Qle_bool_false_lt].
    unfold finiteBox, asRectangle. cbn. by rewrite Ex, Ey, Ew.
  - destruct Hfin as [[qx Hx] [qy Hy]].
    destruct x as [x| | |], y as [y| | |]; try done.
    apply (Hupd _ {| rect_x := x; rect_y := y;
                     rect_width := rect_width box; rect_height := rect_height box |});
      [|done|done].
    unfold finiteBox, asRectangle. cbn. by rewrite Ew, Eh.
  - destruct Hfin as [[qw Hqw] [qh Hqh]].
    destruct width as [w| | |], height as [h| | |]; try done.
    unfold Component_setSize. cbn [numLe0].
    destruct (Qle_bool w 0) eqn:E1; [done|].
    destruct (Qle_bool h 0) eqn:E2; [done|]. cbn [orb].
    apply (Hupd _ {| rect_x := rect_x box; rect_y := rect_y box;
                     rect_width := w; rect_height := h |});
      [|by apply Qle_bool_false_lt..].
    unfold finiteBox, asRectangle. cbn. by rewrite Ex, Ey.
Qed.

(** X21: the invariant of a component.  After a constructor called with
    finite numbers that returned, and after any sequence of calls of
    [set x], [set y], [set width], [set height], [setPosition] and [setSize]
    with finite arguments that all returned, the four numbers of the
    component are finite, the width and the height are positive and every
    pin of the component lies on its bounding box. *)
Theorem component_invariant
    (this : Ref) (ps ps' : gmap Ref Pin)
    (inputPins outputPins groundPins powerPins : list Ref) (name : string)
    (x y width height : Q) (c : Component) (calls : list ComponentCall)
    (st : CompState) :
  newComponent this ps inputPins outputPins groundPins powerPins
    name (Val x) (Val y) (Val width) (Val height) = (ps', Returns c) →
  Forall finiteCall calls →
  runCalls (c, ps') calls = (st, Returns tt) →
  wellPlaced st.1 st.2.
Proof.
  intros Hnew Hfin Hrun.
  assert (H0 : wellPlaced (c, ps').1 (c, ps').2).
  { destruct (newComponent_inv this ps inputPins outputPins groundPins powerPins
                name (Val x) (Val y) (Val width) (Val height)) as (H1 & Hret & _).
    rewrite Hnew in H1, Hret. cbn [fst snd] in *.
    destruct (Hret c eq_refl) as [-> Hinit]. rewrite H1.
    unfold initializePins in *. cbv zeta in *.
    pose proof (Qmax_ge_20 width). pose proof (Qmax_ge_20 height).
    apply (updatePinPositions_wellPlaced _
             {| rect_x := x; rect_y := y;
                rect_width := Qmax width 20; rect_height := Qmax height 20 |});
      [done|done|cbn; lra|cbn; lra]. }
  revert Hrun H0. generalize (c, ps'). clear Hnew.
  induction Hfin as [|call calls Hcall Hcalls IH]; intros st0 Hrun H0.
  - cbn [runCalls] in Hrun. by injection Hrun as <-.
  - cbn [runCalls] in Hrun.
    destruct (runCall st0 call) as [st1 [[]|e]] eqn:E; [|done].
    apply (IH st1 Hrun). by apply (runCall_wellPlaced st0 st1 call).
Qed.

Lemma component_invariant_witness :
  let calls := [call_setSize (Val 80) (Val 30); call_set_x (Number 5)] in
  let r := newComponent 7 twoPins [0] [1] [] [] "R1"
             (Val 100) (Val 50) (Val 60) (Val 10) in
  let c := {| _inputPins := [0]; _outputPins := [1]; _groundPins := [];
              _powerPins := []; comp_name := "R1"; comp_x := Val 100;
              comp_y := Val 50; comp_width := Val 60; comp_height := Val 20 |} in
  let st := (runCalls (c, r.1) calls).1 in
  wellPlaced st.1 st.2.
Proof.
  intros calls r c st.
  apply (component_invariant 7 twoPins r.1 [0] [1] [] [] "R1" 100 50 60 10 c
           calls st).
  - by vm_compute.
  - repeat constructor; cbn; eauto.
  - by vm_compute.
Defined.

(** * Circuits and the routing loop of buildCircuit *)

Lemma indexOf_None (x : Ref) (array : list Ref) :
  indexOf x array = None ↔ x ∉ array.
Proof.
  induction array as [|y rest IH]; simpl.
  - split; [intros _; apply not_elem_of_nil|done].
  - rewrite not_elem_of_cons. case_bool_decide as Hy.
    + split; [done|]. intros [? _]. done.
    + destruct (indexOf x rest); simpl.
      * split; [done|]. intros [_ H]. by apply IH in H.
      * split; [|done]. intros _. split; [done|]. by apply IH.
Qed.

Lemma indexOf_first (x : Ref) (l1 l2 : list Ref) :
  x ∉ l1 → indexOf x (l1 ++ x :: l2) = Some (length l1).
Proof.
  induction l1 as [|y l1 IH]; simpl; intros Hx.
  - by rewrite bool_decide_true.
  - apply not_elem_of_cons in Hx as [Hne Hx].
    rewrite bool_decide_false by done. by rewrite IH.
Qed.

(** X22: [removeComponent] and [removeWire] return [true] exactly when the
    object is in the list, and then remove its first occurrence only: the
    other entries, also later copies of the same object, stay in order.
    When the object is not in the list the circuit is unchanged. *)
Theorem removeComponent_first_occurrence (c : Circuit) (x : Ref) :
  let rc := removeComponent c x in
  let rw := removeWire c x in
  rc.2 = bool_decide (x ∈ _components c)
  ∧ rw.2 = bool_decide (x ∈ _wires c)
  ∧ (x ∉ _components c → rc.1 = c)
  ∧ (x ∉ _wires c → rw.1 = c)
  ∧ (∀ l1 l2, _components c = l1 ++ x :: l2 → x ∉ l1 →
       rc.1 = {| _components := l1 ++ l2; _wires := _wires c;
                 circuit_name := circuit_name c |})
  ∧ (∀ l1 l2, _wires c = l1 ++ x :: l2 → x ∉ l1 →
       rw.1 = {| _components := _components c; _wires := l1 ++ l2;
                 circuit_name := circuit_name c |}).
Proof.
  unfold removeComponent, removeWire. repeat split.
  - destruct (indexOf x (_components c)) eqn:E; simpl.
    + rewrite bool_decide_true; [done|].
      destruct (decide (x ∈ _components c)) as [?|Hn]; [done|].
      apply indexOf_None in Hn. congruence.
    + apply indexOf_None in E. by rewrite bool_decide_false.
  - destruct (indexOf x (_wires c)) eqn:E; simpl.
    + rewrite bool_decide_true; [done|].
      destruct (decide (x ∈ _wires c)) as [?|Hn]; [done|].
      apply indexOf_None in Hn. congruence.
    + apply indexOf_None in E. by rewrite bool_decide_false.
  - intros Hx. apply indexOf_None in Hx. by rewrite Hx.
  - intros Hx. apply indexOf_None in Hx. by rewrite Hx.
  - intros l1 l2 Hl Hx. rewrite Hl, indexOf_first by done. simpl.
    by rewrite delete_middle.
  - intros l1 l2 Hl Hx. rewrite Hl, indexOf_first by done. simpl.
    by rewrite delete_middle.
Qed.

(** X23: removing a component right after adding it restores the circuit
    when the component was not in it before.  When it was, [addComponent]
    has added a second entry and [removeComponent] removes the older one, so
    the component is still in the circuit and has moved to the end of the
    list. *)
Theorem addComponent_removeComponent (c : Circuit) (x : Ref) :
  let added := (addComponent c (Some x)).1 in
  let r := removeComponent added x in
  (addComponent c (Some x)).2 = Returns tt
  ∧ r.2 = true
  ∧ (x ∉ _components c → r.1 = c)
  ∧ (∀ l1 l2, _components c = l1 ++ x :: l2 → x ∉ l1 →
       _components r.1 = l1 ++ l2 ++ [x]).
Proof.
  unfold removeComponent, addComponent. cbn [fst snd _components _wires circuit_name].
  split; [done|].
  destruct (decide (x ∈ _components c)) as [Hin|Hnin].
  - apply list_elem_of_split_l in Hin as (l1 & l2 & Hl & Hx).
    rewrite Hl, <- app_assoc. cbn [app].
    rewrite (indexOf_first x l1 (l2 ++ [x])) by done. cbn [fst snd _components].
    split; [done|]. split.
    + intros Hn. exfalso. apply Hn. apply elem_of_app. right. by left.
    + intros l1' l2' Heq Hx'. rewrite delete_middle.
      assert (Hlen : length l1' = length l1).
      { assert (H1 := indexOf_first x l1 l2 Hx).
        assert (H2 := indexOf_first x l1' l2' Hx'). rewrite <- Heq in H2. congruence. }
      apply app_inj_1 in Heq as [-> [= ->]]; done.
  - replace (_components c ++ [x]) with (_components c ++ x :: []) by done.
    rewrite indexOf_first by done. cbn [fst snd _components].
    split; [done|]. split.
    + intros _. rewrite delete_middle, app_nil_r. by destruct c.
    + intros l1 l2 Hl _. exfalso. apply Hnin. rewrite Hl.
      apply elem_of_app. right. by left.
Qed.

(** ** validateConnections *)

Lemma concat_imap_nil {A B} (l : list A) :
  ∀ f : nat → A → list B,
    concat (imap f l) = [] ↔ ∀ i x, l !! i = Some x → f i x = [].
Proof.
  induction l as [|a l IH]; intros f.
  - simpl. split; [intros _ i x; by rewrite lookup_nil|done].
  - rewrite imap_cons. cbn [concat]. split.
    + intros H. apply app_eq_nil in H as [H0 Hrest].
      intros [|i] x Hx; simpl in Hx.
      * by injection Hx as <-.
      * by apply (proj1 (IH (f ∘ S)) Hrest i x).
    + intros H. rewrite (H 0%nat a eq_refl). simpl.
      apply IH. intros i x Hx. by apply (H (S i)).
Qed.

Lemma length_concat_imap_le {A B} (n : nat) (l : list A) :
  ∀ f : nat → A → list B,
    (∀ i x, length (f i x) ≤ n) → length (concat (imap f l)) ≤ n * length l.
Proof.
  induction l as [|a l IH]; intros f Hf; simpl; [lia|].
  rewrite length_app. specialize (IH (f ∘ S) (λ i x, Hf (S i) x)).
  specialize (Hf 0%nat a). lia.
Qed.

Lemma wireErrors_nil (all : list Ref) (index : nat) (w : Wire) :
  wireErrors all index w = [] ↔ enterPin w ∈ all ∧ exitPin w ∈ all.
Proof.
  unfold wireErrors. do 2 case_bool_decide; simpl; split; try done; tauto.
Qed.

(** X24: [validateConnections] returns no message exactly when the enter
    pin and the exit pin of every wire of the circuit are pins of components
    of the circuit; it returns at most two messages per wire. *)
Theorem validateConnections_empty_iff
    (comps : gmap Ref Component) (ws : gmap Ref Wire) (c : Circuit) :
  (validateConnections comps ws c = []
   ↔ ∀ r w, r ∈ _wires c → ws !! r = Some w →
       enterPin w ∈ allPins comps c ∧ exitPin w ∈ allPins comps c)
  ∧ length (validateConnections comps ws c) ≤ 2 * length (_wires c).
Proof.
  unfold validateConnections. cbv zeta. split.
  - rewrite concat_imap_nil. split.
    + intros H r w Hr Hw. apply list_elem_of_lookup in Hr as [i Hi].
      specialize (H i r Hi). rewrite Hw in H. simpl in H.
      by apply wireErrors_nil in H.
    + intros H i r Hi. destruct (ws !! r) as [w|] eqn:Hw; simpl; [|done].
      apply wireErrors_nil. apply (H r w); [|done].
      by apply list_elem_of_lookup_2 in Hi.
  - apply length_concat_imap_le. intros i r.
    destruct (ws !! r) as [w|]; simpl; [|lia].
    unfold wireErrors. do 2 case_bool_decide; simpl; lia.
Qed.

(** * The routing loop *)



(** The two ways a call of [calculatePath] ends. *)
Lemma calculatePathAmong_cases h this obstacles existingWires gridSize :
  match calculatePathAmong h this obstacles existingWires gridSize with
  | (h', Ok path) =>
      ∃ w pe px,
        wires h !! this = Some w
        ∧ pins h !! enterPin w = Some pe
        ∧ pins h !! exitPin w = Some px
        ∧ routeAmong obstacles (bendPoints w) (getPosition pe) (getPosition px)
            (otherWirePaths h this existingWires) gridSize = Ok path
        ∧ h' = {| pins := pins h; wires := <[this := setRoutedPath w path]> (wires h) |}
  | (h', _) => h' = h
  end.
Proof.
  unfold calculatePathAmong.
  destruct (wires h !! this) as [w|]; [|done].
  destruct (pins h !! enterPin w) as [pe|] eqn:Hpe; [|done].
  destruct (pins h !! exitPin w) as [px|] eqn:Hpx; [|done].
  destruct (routeAmong _ _ _ _ _ _) as [path| |] eqn:Hroute; [|done..].
  exists w, pe, px. done.
Qed.







(** ** Re-running the loop *)

Lemma sameModuloPath_refl (o : option Wire) : sameModuloPath o o.
Proof. by destruct o. Qed.

Lemma sameModuloPath_trans (o1 o2 o3 : option Wire) :
  sameModuloPath o1 o2 → sameModuloPath o2 o3 → sameModuloPath o1 o3.
Proof.
  destruct o1, o2, o3; simpl; try done. intros -> ->. done.
Qed.

Lemma sameModuloPath_insert (m : gmap Ref Wire) this w path r :
  m !! this = Some w →
  sameModuloPath (m !! r) (<[this := setRoutedPath w path]> m !! r).
Proof.
  intros Hw. destruct (decide (r = this)) as [->|Hne].
  - by rewrite lookup_insert_eq, Hw.
  - rewrite lookup_insert_ne by done. apply sameModuloPath_refl.
Qed.

Lemma routeWires_frame obstacles gridSize (ws : list Ref) :
  ∀ h routedWires h' o,
    routeWires h obstacles gridSize routedWires ws = (h', o) →
    pins h' = pins h
    ∧ (∀ r, r ∉ ws → wires h' !! r = wires h !! r)
    ∧ (∀ r, sameModuloPath (wires h !! r) (wires h' !! r)).
Proof.
  induction ws as [|wire rest IH]; intros h routedWires h' o Hrun.
  - cbn [routeWires] in Hrun. injection Hrun as <- <-.
    repeat split; try done. intros r. apply sameModuloPath_refl.
  - cbn [routeWires] in Hrun.
    pose proof (calculatePathAmong_cases h wire obstacles routedWires gridSize) as Hcase.
    destruct (calculatePathAmong h wire obstacles routedWires gridSize) as [h1 [path|e|]].
    + destruct Hcase as (w & pe & px & Hw & Hpe & Hpx & Hroute & ->).
      apply IH in Hrun as (Hpins & Hframe & Hsame). cbn [pins wires] in *.
      split; [done|]. split.
      * intros r Hr. apply not_elem_of_cons in Hr as [Hne Hr].
        rewrite Hframe by done. by rewrite lookup_insert_ne.
      * intros r. eapply sameModuloPath_trans; [|apply Hsame].
        by apply sameModuloPath_insert.
    + injection Hrun as <- <-. subst h1. repeat split; try done.
      intros r. apply sameModuloPath_refl.
    + injection Hrun as <- <-. subst h1. repeat split; try done.
      intros r. apply sameModuloPath_refl.
Qed.

Lemma otherWirePaths_ext h1 h2 this (existingWires : list Ref) :
  (∀ r, r ∈ existingWires → wires h1 !! r = wires h2 !! r) →
  otherWirePaths h1 this existingWires = otherWirePaths h2 this existingWires.
Proof.
  intros Hagree. unfold otherWirePaths.
  induction existingWires as [|r l IH]; [done|].
  cbn [omap list_omap]. rewrite (Hagree r) by (by left).
  rewrite IH; [done|]. intros r' Hr'. apply Hagree. by right.
Qed.

(** Two runs of the loop on heaps that agree on the wires routed so far stay
    in step. *)
Lemma routeWires_sim obstacles gridSize (ws : list Ref) :
  ∀ h1 h2 routedWires h1' l,
    agreeOn routedWires h1 h2 →
    routeWires h1 obstacles gridSize routedWires ws = (h1', Ok l) →
    ∃ h2', routeWires h2 obstacles gridSize routedWires ws = (h2', Ok l)
           ∧ agreeOn (routedWires ++ ws) h1' h2'.
Proof.
  induction ws as [|wire rest IH]; intros h1 h2 routedWires h1' l Hagree Hrun.
  - cbn [routeWires] in *. injection Hrun as <- <-. exists h2.
    by rewrite app_nil_r.
  - cbn [routeWires] in *.
    pose proof (calculatePathAmong_cases h1 wire obstacles routedWires gridSize) as Hcase.
    destruct (calculatePathAmong h1 wire obstacles routedWires gridSize)
      as [h1a [path|e|]]; [|done..].
    destruct Hcase as (w1 & pe & px & Hw1 & Hpe & Hpx & Hroute & ->).
    destruct Hagree as (Hpins & Hrouted & Hsame).
    pose proof (Hsame wire) as Hwire. rewrite Hw1 in Hwire.
    destruct (wires h2 !! wire) as [w2|] eqn:Hw2; [|done].
    cbn [sameModuloPath] in Hwire. unfold setRoutedPath in Hwire.
    injection Hwire as He Hx Hn Hb.
    assert (Hcalc : calculatePathAmong h2 wire obstacles routedWires gridSize
                    = ({| pins := pins h2;
                          wires := <[wire := setRoutedPath w1 path]> (wires h2) |},
                       Ok path)).
    { unfold calculatePathAmong. rewrite Hw2, <- He, <- Hx, <- Hb, <- Hpins, Hpe, Hpx.
      rewrite <- (otherWirePaths_ext h1 h2 wire routedWires Hrouted), Hroute.
      unfold setRoutedPath. by rewrite He, Hx, Hn, Hb. }
    rewrite Hcalc.
    assert (Hagree1 : agreeOn (routedWires ++ [wire])
              {| pins := pins h1; wires := <[wire := setRoutedPath w1 path]> (wires h1) |}
              {| pins := pins h2; wires := <[wire := setRoutedPath w1 path]> (wires h2) |}).
    { split; [done|]. cbn [wires]. split.
      - intros r Hr. destruct (decide (r = wire)) as [->|Hne].
        + by rewrite !lookup_insert_eq.
        + rewrite !lookup_insert_ne by done. apply Hrouted.
          apply elem_of_app in Hr as [Hr|Hr]; [done|].
          apply elem_of_cons in Hr as [?|Hr]; [done|]. by apply elem_of_nil in Hr.
      - intros r. destruct (decide (r = wire)) as [->|Hne].
        + rewrite !lookup_insert_eq. done.
        + rewrite !lookup_insert_ne by done. apply Hsame. }
    destruct (IH _ _ _ _ _ Hagree1 Hrun) as (h2' & Hrun2 & Hagree').
    exists h2'. split; [done|]. by rewrite <- app_assoc in Hagree'.
Qed.

(** X26: running the routing block of [buildCircuit] again on the heap it
    left changes nothing and returns the same list: a wire is re-routed
    against the wires routed before it in the same run only, never against
    the stale path of a wire that comes later in the circuit. *)
Theorem calculateWirePaths_idempotent
    (comps : gmap Ref Component) (h h' : Heap) (c : Circuit) (gridSize : Q)
    (routed : list Ref) :
  calculateWirePaths comps h c gridSize = (h', Ok routed) →
  calculateWirePaths comps h' c gridSize = (h', Ok routed).
Proof.
  unfold calculateWirePaths. intros Hrun.
  destruct (routeWires_frame _ _ _ _ _ _ _ Hrun) as (Hpins & Hframe & Hsame).
  destruct (routeWires_sim (boundingBoxes comps c) gridSize (_wires c) h h' [] h' routed)
    as (h'' & Hrun2 & Hp2 & Hagree & _); [|done|].
  { split; [done|]. split; [|done]. intros r Hr. by apply elem_of_nil in Hr. }
  destruct (routeWires_frame _ _ _ _ _ _ _ Hrun2) as (Hpins2 & Hframe2 & _).
  rewrite Hrun2. f_equal.
  destruct h' as [ps' ws'], h'' as [ps'' ws'']. cbn [pins wires] in *.
  f_equal; [done|]. apply map_eq. intros r.
  destruct (decide (r ∈ _wires c)) as [Hin|Hnin].
  - symmetry. apply Hagree. by rewrite app_nil_l.
  - by apply Hframe2.
Qed.

Lemma calculateWirePaths_idempotent_witness :
  let c := {| _components := []; _wires := [0; 1]; circuit_name := "c" |} in
  let h' := (calculateWirePaths ∅ twoWireHeap c 10).1 in
  calculateWirePaths ∅ h' c 10 = (h', Ok [0; 1]).
Proof.
  intros c h'.
  apply (calculateWirePaths_idempotent ∅ twoWireHeap h' c 10 [0; 1]).
  vm_compute. reflexivity.
Defined.

(** * The search among obstacles *)

(** X27: with obstacles the path found by [findPathAStar] need not be a
    shortest one.  On [detourGrid], from cell (0,1) to cell (4,2), the search
    returns a path of 11 steps although [detourShortcut] reaches the end
    cell in 9 steps through passable cells: a node waiting in the open list
    keeps the [gScore] of its first discovery, so when cell (2,0) is expanded
    its neighbor (3,0) is not offered the shorter way. *)
Theorem findPathAStar_not_shortest :
  ∃ (grid : Grid) (start end_ : Point) (gridSize : Q)
    (path : list Point) (cells : list Cell),
    findPathAStar grid start end_ gridSize = Ok path
    ∧ head cells = Some (toCell gridSize start)
    ∧ last cells = Some (toCell gridSize end_)
    ∧ stepwise cells
    ∧ Forall (passable grid) cells
    ∧ length cells < length path.
Proof.
  exists detourGrid, (mkPoint 0 1), (mkPoint 4 2), 1%Q.
  exists (toCanvas 1 <$>
            [ (0, 1); (0, 2); (1, 2); (2, 2); (2, 1); (3, 1); (3, 0); (4, 0);
              (5, 0); (5, 1); (5, 2); (4, 2) ]%Z),
         detourShortcut.
  split; [vm_compute; reflexivity|].
  split; [vm_compute; reflexivity|].
  split; [vm_compute; reflexivity|].
  split.
  - unfold detourShortcut. cbn [stepwise].
    repeat split; apply list_elem_of_In; vm_compute;
      repeat (first [left; reflexivity | right]).
  - split; [|vm_compute; lia].
    unfold detourShortcut. repeat constructor; vm_compute; congruence.
Qed.

(** * The search away from the origin *)










